(** * MistHelper / ssh_runner_v2.py: validators, session, harvester, orchestrator

    A shallow embedding of [EnhancedSSHRunner] (src/junk/ssh_runner_v2.py).

    Conventions of the embedding.
    - A Python [str] is a [list ascii]; a character is a code point below 256
      (ASCII and Latin-1), classified as CPython classifies it.  Literals are
      written [py "text"].
    - A Python [int] is a [Z]; [len] returns a [Z].
    - Calls into paramiko, the socket layer, the clock and the thread pool are
      outcomes supplied by the caller of the model (oracles); what the code
      does with each outcome is modelled in full. *)

From stdpp Require Import gmap strings list pretty.
From Stdlib Require Import ZArith Lia List Bool Ascii Permutation.
Import ListNotations.

Local Open Scope Z_scope.

(** ** Python strings *)

Module Py.

Abbreviation str := (list ascii).

Definition py (s : string) : str := String.list_ascii_of_string s.
Arguments py s%_string.

Definition len {A} (l : list A) : Z := Z.of_nat (length l).

Definition code (c : ascii) : N := N_of_ascii c.

Definition between (lo hi : N) (c : ascii) : bool :=
  ((lo <=? code c) && (code c <=? hi))%N.

Definition is_upper (c : ascii) : bool := between 65 90 c.
Definition is_lower (c : ascii) : bool := between 97 122 c.
Definition is_digit (c : ascii) : bool := between 48 57 c.

(** [[a-zA-Z0-9]] *)
Definition is_alnum (c : ascii) : bool := is_upper c || is_lower c || is_digit c.

(** [str.isspace] on one character: TAB..CR, FS..US, space, NEL, NBSP. *)
Definition is_space (c : ascii) : bool :=
  between 9 13 c || between 28 32 c || (code c =? 133)%N || (code c =? 160)%N.

(** The regular-expression class [\w] of a [str] pattern: [[a-zA-Z0-9_]] and
    the Latin-1 code points that [str.isalnum] accepts. *)
Definition is_word (c : ascii) : bool :=
  is_alnum c || (code c =? 95)%N
  || (code c =? 170)%N || (code c =? 178)%N || (code c =? 179)%N
  || (code c =? 181)%N || (code c =? 185)%N || (code c =? 186)%N
  || between 188 190 c || between 192 214 c || between 216 246 c
  || between 248 255 c.

Definition shift_code (d : N) (c : ascii) : ascii := ascii_of_N (code c + d).
Definition unshift_code (d : N) (c : ascii) : ascii := ascii_of_N (code c - d).

(** [str.lower]: A-Z and the Latin-1 capitals (all of 0xC0..0xDE but the
    multiplication sign) move up by 32. *)
Definition lower_char (c : ascii) : ascii :=
  if is_upper c || (between 192 222 c && negb (code c =? 215)%N)
  then shift_code 32 c else c.

Definition lower (s : str) : str := map lower_char s.

(** [str.upper] on the ASCII letters.  It is used only to look a name up in
    a table of ASCII words none of which contains an S: the Latin-1 letters
    that [str.upper] changes become non-ASCII capitals (or "SS"), so leaving
    them alone does not change the answer of the lookup. *)
Definition upper_char (c : ascii) : ascii :=
  if is_lower c then unshift_code 32 c else c.

Definition upper (s : str) : str := map upper_char s.

Definition str_eqb (a b : str) : bool := bool_decide (a = b).

(** [s.lstrip(chars)], [s.rstrip(chars)], [s.strip(chars)], with the set of
    characters given as a predicate. *)
Fixpoint lstrip_by (p : ascii -> bool) (s : str) : str :=
  match s with
  | [] => []
  | c :: t => if p c then lstrip_by p t else s
  end.

Definition rstrip_by (p : ascii -> bool) (s : str) : str :=
  rev (lstrip_by p (rev s)).

Definition strip_by (p : ascii -> bool) (s : str) : str :=
  rstrip_by p (lstrip_by p s).

Definition one_of (chars : str) (c : ascii) : bool :=
  existsb (Ascii.eqb c) chars.

(** [s.strip()] *)
Definition strip (s : str) : str := strip_by is_space s.

(** [s.split(sep)] for a one-character separator. *)
Fixpoint split (sep : ascii) (s : str) : list str :=
  match s with
  | [] => [[]]
  | c :: t =>
      if Ascii.eqb c sep then [] :: split sep t
      else match split sep t with
           | h :: r => (c :: h) :: r
           | [] => [[c]]
           end
  end.

(** [sep.join(parts)] for a one-character separator. *)
Fixpoint join (sep : ascii) (parts : list str) : str :=
  match parts with
  | [] => []
  | [p] => p
  | p :: rest => p ++ sep :: join sep rest
  end.

Fixpoint starts_with (p s : str) : bool :=
  match p, s with
  | [], _ => true
  | _ :: _, [] => false
  | a :: p', b :: s' => Ascii.eqb a b && starts_with p' s'
  end.

(** [p in s] *)
Fixpoint contains (p s : str) : bool :=
  starts_with p s ||
  match s with
  | [] => false
  | _ :: t => contains p t
  end.

(** [s[:n]] for [n >= 0] *)
Definition slice_to (n : Z) (s : str) : str := firstn (Z.to_nat n) s.

(** [str(n)] / [f"{n}"] for an integer *)
Definition show (n : Z) : str := py (pretty n).

End Py.
Import Py.

(** ** Validator *)

(** [hostname_pattern]: [^(L\.)*L$] with
    [L = [a-zA-Z0-9]([a-zA-Z0-9\-]{0,61}[a-zA-Z0-9])?]: a label has 1 to 63
    characters, all alphanumeric or [-], the first and the last
    alphanumeric. *)
Definition label_char (c : ascii) : bool := is_alnum c || Ascii.eqb c "-".

Definition label_ok (l : str) : bool :=
  match l with
  | [] => false
  | c :: _ =>
      is_alnum c && is_alnum (last l c) && forallb label_char l
      && (len l <=? 63)
  end.

Definition labels_ok (s : str) : bool := forallb label_ok (split "." s).

Definition newline : ascii := ascii_of_N 10.

(** [hostname_pattern.match(s)]: [$] matches at the end of the string and
    also just before a newline that ends the string. *)
Definition hostname_pattern_match (s : str) : bool :=
  labels_ok s ||
  match rev s with
  | c :: r => Ascii.eqb c newline && labels_ok (rev r)
  | [] => false
  end.

Section Validator.

(** [ipaddress.ip_address(s)] does not raise [ValueError]: the standard
    library's parser of IPv4 and IPv6 literals, taken as given. *)
Variable ip_address_parses : str -> bool.

Definition validate_hostname (hostname : str) : bool :=
  match hostname with
  | [] => false
  | _ =>
      if len hostname >? 253 then false
      else if ip_address_parses hostname then true
      else if len hostname >? 253 then false
      else
        let hostname := rstrip_by (Ascii.eqb ".") hostname in
        hostname_pattern_match hostname
  end.

End Validator.

Definition validate_port (port : Z) : bool := (1 <=? port) && (port <=? 65535).

Definition validate_timeout (timeout : Z) : bool :=
  (1 <=? timeout) && (timeout <=? 3600).

(** [^[a-zA-Z0-9._-]+$], where [$] again tolerates one final newline. *)
Definition username_char (c : ascii) : bool :=
  is_alnum c || Ascii.eqb c "." || Ascii.eqb c "_" || Ascii.eqb c "-".

Definition nonempty_all (p : ascii -> bool) (s : str) : bool :=
  match s with [] => false | _ => forallb p s end.

Definition username_pattern_match (s : str) : bool :=
  nonempty_all username_char s ||
  match rev s with
  | c :: r => Ascii.eqb c newline && nonempty_all username_char (rev r)
  | [] => false
  end.

Definition validate_username (username : str) : bool :=
  match username with
  | [] => false
  | _ =>
      if (len username >? 32) || (len username <? 1) then false
      else username_pattern_match username
  end.

Definition nul : ascii := ascii_of_N 0.

Definition validate_command (command : str) : bool :=
  match command with
  | [] => false
  | _ =>
      if len command >? 1000 then false
      else if existsb (Ascii.eqb nul) command then false
      else true
  end.

(** [cpu_count] is [multiprocessing.cpu_count()]. *)
Definition validate_thread_count (cpu_count thread_count max_hosts : Z) : Z :=
  if thread_count <=? 0 then Z.min max_hosts cpu_count
  else
    let max_reasonable_threads := Z.min 50 (max_hosts * 2) in
    Z.min (Z.min thread_count max_reasonable_threads) max_hosts.

(** *** sanitize_filename *)

(** [re.sub(r'[^\w\-_\.]', '_', filename)] replaces, one character at a
    time, whatever is outside the class. *)
Definition filename_char (c : ascii) : bool :=
  is_word c || Ascii.eqb c "-" || Ascii.eqb c "_" || Ascii.eqb c ".".

Definition replace_unsafe (c : ascii) : ascii :=
  if filename_char c then c else "_"%char.

Definition dot_or_dash (c : ascii) : bool := one_of (py ".-") c.

Definition reserved_names : list str :=
  map py ["CON"; "PRN"; "AUX"; "NUL"]%string
  ++ map (fun i => py "COM" ++ show i) [1; 2; 3; 4; 5; 6; 7; 8; 9]
  ++ map (fun i => py "LPT" ++ show i) [1; 2; 3; 4; 5; 6; 7; 8; 9].

Definition sanitize_filename (filename : str) : str :=
  match filename with
  | [] => py "unknown"
  | _ =>
      let sanitized := map replace_unsafe filename in
      let sanitized := strip_by dot_or_dash sanitized in
      let sanitized :=
        match sanitized with [] => py "sanitized_host" | _ => sanitized end in
      let sanitized :=
        if len sanitized >? 100 then slice_to 100 sanitized else sanitized in
      if existsb (str_eqb (upper sanitized)) reserved_names
      then py "host_" ++ sanitized
      else sanitized
  end.

(** *** parse_command_list *)

Definition quote_char (c : ascii) : bool :=
  Ascii.eqb c "'" || Ascii.eqb c (ascii_of_N 34).

(** [cmd.strip()], then the strip of both quote characters, then
    [.strip()] again. *)
Definition clean_command (cmd : str) : str :=
  strip (strip_by quote_char (strip cmd)).

(** The loop over [commands_str.split(',')]: the entries kept in [commands]
    and the entries set aside in [invalid_commands] (which are only
    counted and printed). *)
Fixpoint collect_commands (pieces : list str) : list str :=
  match pieces with
  | [] => []
  | cmd :: rest =>
      let clean_cmd := clean_command cmd in
      match clean_cmd with
      | [] => collect_commands rest
      | _ =>
          if validate_command clean_cmd
          then clean_cmd :: collect_commands rest
          else collect_commands rest
      end
  end.

(** The value of [commands] when the loop ends, before the cap. *)
Definition valid_command_entries (commands_str : str) : list str :=
  let commands_str :=
    if len commands_str >? 50000 then slice_to 50000 commands_str
    else commands_str in
  let commands_str := strip_by quote_char commands_str in
  collect_commands (split "," commands_str).

Definition max_commands : Z := 50.

Definition parse_command_list (commands_str : str) : list str :=
  match commands_str with
  | [] => []
  | _ =>
      let commands := valid_command_entries commands_str in
      if len commands >? max_commands
      then firstn (Z.to_nat max_commands) commands
      else commands
  end.

(** *** Notions and sample inputs for the properties of the validator *)

(** A sequence of labels joined by dots, each label as the pattern has it. *)
Definition dns_label_sequence (s : str) : Prop :=
  exists labels,
    labels <> [] /\ Forall (fun l => label_ok l = true) labels
    /\ s = join "." labels.

(** A name of 253 characters: three labels of 63 and one of 61. *)
Definition long_name : str :=
  join "." [repeat "a"%char 63; repeat "a"%char 63; repeat "a"%char 63;
            repeat "a"%char 61].

(** The first, respectively the last, character of [s] is not in the set. *)
Definition head_ok (p : ascii -> bool) (s : str) : bool :=
  match s with [] => true | c :: _ => negb (p c) end.

Definition last_ok (p : ascii -> bool) (s : str) : bool := head_ok p (rev s).

Definition ends_with_dot_or_dash (s : str) : bool :=
  negb (last_ok dot_or_dash s).

(** What the steps before the reserved-name test establish. *)
Record cleaned (s : str) : Prop := {
  cleaned_nonempty : s <> [];
  cleaned_chars : forallb filename_char s = true;
  cleaned_head : head_ok dot_or_dash s = true;
  cleaned_len : len s <= 100
}.

(** [sanitize_filename] in two parts: the steps up to the cap, and the
    reserved-name test. *)
Definition finish_name (sanitized : str) : str :=
  if existsb (str_eqb (upper sanitized)) reserved_names
  then py "host_" ++ sanitized
  else sanitized.

Definition before_reserved (filename : str) : str :=
  let sanitized := strip_by dot_or_dash (map replace_unsafe filename) in
  let sanitized :=
    match sanitized with [] => py "sanitized_host" | _ => sanitized end in
  if len sanitized >? 100 then slice_to 100 sanitized else sanitized.

(** A name of 101 characters whose hundredth character is a dash. *)
Definition cut_name : str := repeat "a"%char 99 ++ py "-b".

(** Sixty copies of a command, separated by commas and padded with
    blanks. *)
Definition sixty_commands : str :=
  join "," (repeat (py " show version ") 60).

(** A command that the parser leaves as it is: valid, without a comma, and
    with neither blanks nor quotes at its ends. *)
Definition plain_command (c : str) : Prop :=
  validate_command c = true
  /\ forallb (fun x => negb (Ascii.eqb x ",")) c = true
  /\ head_ok is_space c = true /\ last_ok is_space c = true
  /\ head_ok quote_char c = true /\ last_ok quote_char c = true.

(** ** Success determination of the shell mode (_execute_with_shell) *)

Definition error_patterns : list str :=
  map py ["command not found"; "syntax error";
          "permission denied"; "authentication failed";
          "connection refused"; "host unreachable"; "network unreachable";
          "no such file or directory"]%string.

(** Plain substrings: the code looks them up with [in], so the [.*] of the
    last one is four literal characters. *)
Definition shell_cleanup_indicators : list str :=
  map py ["invalid command: [xit]";
          "unknown command: xit";
          "invalid command: exit";
          "connection to .* closed"]%string.

(** The last step of [_execute_with_shell]: the value of [success] that is
    returned with [cleaned_output]. *)
Definition success_determination (cleaned_output : str) : bool :=
  let success := len cleaned_output >? 0 in
  let output_lower := lower cleaned_output in
  let is_shell_cleanup :=
    existsb (fun cleanup_pattern => contains cleanup_pattern output_lower)
            shell_cleanup_indicators in
  if negb is_shell_cleanup then
    if existsb (fun pattern => contains pattern output_lower) error_patterns
    then false
    else success
  else success.

(** [p] is a substring of [s]. *)
Definition occurs (p s : str) : Prop := exists a b, s = a ++ p ++ b.

(** The rule in the words of the specification: an occurrence of an error
    pattern counts unless the matching text lies inside an occurrence of a
    cleanup artifact. *)
Definition occurs_at (p s : str) (i : nat) : bool := starts_with p (skipn i s).

Definition inside_artifact (s p : str) (i : nat) : bool :=
  existsb (fun artifact =>
    existsb (fun j =>
      occurs_at artifact s j && (j <=? i)%nat
      && (i + length p <=? j + length artifact)%nat)
      (seq 0 (S (length s))))
    shell_cleanup_indicators.

Definition success_as_specified (cleaned_output : str) : bool :=
  let s := lower cleaned_output in
  (len cleaned_output >? 0)
  && forallb (fun p =>
       forallb (fun i => negb (occurs_at p s i) || inside_artifact s p i)
               (seq 0 (S (length s))))
       error_patterns.

(** ** Session: connect and execute_command *)

(** The exceptions that the handlers of [connect] and [execute_command]
    tell apart: the constructor is the class that the [except] clauses
    test, and stands for its subclasses too; [type_name] is
    [type(e).__name__] and [e] is [str(e)], which the exception brings
    with it. *)
Inductive exn :=
| gaierror (type_name e : str)                (* socket.gaierror *)
| socket_timeout (type_name e : str)          (* socket.timeout *)
| AuthenticationException (type_name e : str) (* paramiko's *)
| SSHException (type_name e : str)            (* paramiko's, other *)
| FileNotFoundError (type_name e : str)
| OtherException (type_name e : str).

(** What a session does to the world, in order. *)
Inductive event :=
| LogError (msg : str)                  (* self.logger.error(msg) *)
| NewClient                             (* SSHClient() *)
| LoadSystemHostKeys
| LoadHostKeys
| SetMissingHostKeyPolicy
| TransportConnect (hostname : str) (port : Z) (username password : str)
                   (timeout : Z)        (* self.client.connect(...) *)
| ChannelIO (command : str) (shell : bool).

Inductive ssh_client := SSHClient.

Record session := {
  timeout : Z;
  client : option ssh_client
}.

(** How the transport answers one connection attempt: for each call,
    [None] when it returns and [Some e] when it raises [e]. *)
Record transport := {
  load_system_host_keys : option exn;
  load_host_keys : option exn;
  transport_connect : option exn
}.

Inductive failure_class :=
| DnsResolution | SocketTimeout | Authentication | ProtocolLevel | Unknown.

(** The [except] clause that catches [e]. *)
Definition classify (e : exn) : failure_class :=
  match e with
  | gaierror _ _ => DnsResolution
  | socket_timeout _ _ => SocketTimeout
  | AuthenticationException _ _ => Authentication
  | SSHException _ _ => ProtocolLevel
  | FileNotFoundError _ _ | OtherException _ _ => Unknown
  end.

Definition type_name_of (e : exn) : str :=
  match e with
  | gaierror n _ | socket_timeout n _ | AuthenticationException n _
  | SSHException n _ | FileNotFoundError n _ | OtherException n _ => n
  end.

Definition text_of (e : exn) : str :=
  match e with
  | gaierror _ e | socket_timeout _ e | AuthenticationException _ e
  | SSHException _ e | FileNotFoundError _ e | OtherException _ e => e
  end.

Inductive validation_error :=
| InvalidHostname | InvalidUsername | InvalidPort | EmptyPassword.

Definition validation_message (v : validation_error)
    (hostname username : str) (port : Z) : str :=
  match v with
  | InvalidHostname => py "Invalid hostname format: " ++ hostname
  | InvalidUsername => py "Invalid username format: " ++ username
  | InvalidPort =>
      py "Invalid port number: " ++ show port ++ py " (must be 1-65535)"
  | EmptyPassword => py "Password cannot be empty"
  end.

Section Session.

Variable ip_address_parses : str -> bool.

(** The four checks at the head of [connect], in order. *)
Definition connect_validation (hostname username password : str) (port : Z)
  : option validation_error :=
  if negb (validate_hostname ip_address_parses hostname) then Some InvalidHostname
  else if negb (validate_username username) then Some InvalidUsername
  else if negb (validate_port port) then Some InvalidPort
  else match password with
       | [] => Some EmptyPassword
       | _ => None
       end.

(** The [error_msg] that each [except] clause of [connect] logs. *)
Definition connect_error_message (s : session) (hostname username : str)
    (port : Z) (e : exn) : str :=
  match e with
  | gaierror _ e =>
      py "DNS Resolution Error for " ++ hostname ++ py ": " ++ e
  | socket_timeout _ _ =>
      py "Connection timeout to " ++ hostname ++ py ":" ++ show port
      ++ py " after " ++ show (timeout s) ++ py " seconds"
  | AuthenticationException _ e =>
      py "Authentication failed for " ++ username ++ py "@" ++ hostname
      ++ py ": " ++ e
  | SSHException _ e =>
      py "SSH Error connecting to " ++ hostname ++ py ": " ++ e
  | FileNotFoundError _ _ | OtherException _ _ =>
      py "Unexpected error connecting to " ++ hostname ++ py ": "
      ++ type_name_of e ++ py ": " ++ text_of e
  end.

(** The body of the [try] of [connect]: the events up to the call that
    raises, and the exception if one is raised. *)
Definition connect_attempt (t : transport) (s : session)
    (hostname username password : str) (port : Z)
  : list event * option exn :=
  match load_system_host_keys t with
  | Some e => ([NewClient; LoadSystemHostKeys], Some e)
  | None =>
      let after_keys :=
        match load_host_keys t with
        | Some (FileNotFoundError _ _) | None => None
        | Some e => Some e
        end in
      match after_keys with
      | Some e => ([NewClient; LoadSystemHostKeys; LoadHostKeys], Some e)
      | None =>
          ([NewClient; LoadSystemHostKeys; LoadHostKeys;
            SetMissingHostKeyPolicy;
            TransportConnect hostname port username password (timeout s)],
           transport_connect t)
      end
  end.

Definition connect (t : transport) (s : session)
    (hostname username password : str) (port : Z)
  : bool * session * list event :=
  match connect_validation hostname username password port with
  | Some v =>
      (false, s, [LogError (validation_message v hostname username port)])
  | None =>
      let s := {| timeout := timeout s; client := Some SSHClient |} in
      match connect_attempt t s hostname username password port with
      | (events, None) => (true, s, events)
      | (events, Some e) =>
          (false, s,
           events ++ [LogError (connect_error_message s hostname username port e)])
      end
  end.

End Session.

(** What [_execute_with_shell] or [_execute_direct] does for one command:
    the channel traffic, and the triple returned or the exception that
    escapes. *)
Record execution := {
  channel_events : list event;
  outcome : (bool * str * str) + exn
}.

Definition execute_command (run : str -> bool -> str -> execution)
    (s : session) (command : str) (use_shell : bool) (hostname : str)
  : (bool * str * str) * list event :=
  match client s with
  | None =>
      let error_msg := py "No active SSH connection" in
      ((false, [], error_msg), [LogError error_msg])
  | Some _ =>
      let x := run command use_shell hostname in
      match outcome x with
      | inl result => (result, channel_events x)
      | inr (socket_timeout _ _) =>
          let error_msg :=
            py "Command execution timeout after " ++ show (timeout s)
            ++ py " seconds" in
          ((false, [], error_msg), channel_events x ++ [LogError error_msg])
      | inr e =>
          let error_msg :=
            py "Execution error: " ++ type_name_of e ++ py ": " ++ text_of e in
          ((false, [], error_msg), channel_events x ++ [LogError error_msg])
      end
  end.

Definition is_handshake (ev : event) : bool :=
  match ev with TransportConnect _ _ _ _ _ => true | _ => false end.

Definition is_network_io (ev : event) : bool :=
  match ev with
  | NewClient | TransportConnect _ _ _ _ _ | ChannelIO _ _ => true
  | _ => false
  end.

(** *** Notions and sample inputs for the properties of the session *)

Definition class_initial (c : failure_class) : ascii :=
  match c with
  | DnsResolution => "D"
  | SocketTimeout => "C"
  | Authentication => "A"
  | ProtocolLevel => "S"
  | Unknown => "U"
  end%char.

Definition idle_session : session := {| timeout := 30; client := None |}.

Definition refusing_transport : transport :=
  {| load_system_host_keys := None; load_host_keys := None;
     transport_connect := Some (socket_timeout (py "TimeoutError") []) |}.

Definition failing_run (command : str) (use_shell : bool) (hostname : str)
  : execution :=
  {| channel_events := [ChannelIO command use_shell];
     outcome := inr (OtherException (py "EOFError") []) |}.

(** ** Host orchestrator *)

(** What a session run does for one submitted task: it returns its verdict
    or an exception escapes from it. *)
Inductive task_outcome :=
| Returns (success : bool)
| Raises (e : str).

Record run_report := {
  total : Z;
  successful : Z;
  failed : Z;
  successful_hosts : list str;
  failed_hosts : list str;
  results : gmap str (bool * str)
}.

(** The three accumulators of [run_ssh_commands_multi_host]. *)
Record tally := {
  tally_results : gmap str (bool * str);
  tally_successful : list str;
  tally_failed : list str
}.

Section Orchestrator.

(** The behaviour of [run_ssh_command] and [run_multiple_ssh_commands] in
    the task submitted as number [task]. *)
Variable run_ssh_command : nat -> str -> str -> task_outcome.
Variable run_multiple_ssh_commands : nat -> str -> list str -> task_outcome.

Definition run_ssh_command_on_host (task : nat) (hostname : str)
    (commands : list str) : str * bool * str :=
  match commands with
  | [command] =>
      match run_ssh_command task hostname command with
      | Returns success =>
          (hostname, success, py "Single command: " ++ command)
      | Raises e => (hostname, false, py "Error: " ++ e)
      end
  | _ =>
      match run_multiple_ssh_commands task hostname commands with
      | Returns success =>
          (hostname, success, show (len commands) ++ py " commands executed")
      | Raises e => (hostname, false, py "Error: " ++ e)
      end
  end.

(** The body of the loop over [as_completed(future_to_host)]. *)
Definition record_result (acc : tally) (r : str * bool * str) : tally :=
  let '(hostname, success, summary) := r in
  {| tally_results := <[hostname := (success, summary)]> (tally_results acc);
     tally_successful :=
       if success then tally_successful acc ++ [hostname]
       else tally_successful acc;
     tally_failed :=
       if success then tally_failed acc
       else tally_failed acc ++ [hostname] |}.

(** One task per host is submitted, task [i] for [hosts[i]];
    [completion_order] lists the tasks in the order in which
    [as_completed] hands them back. *)
Definition process_completed (hosts : list str) (commands : list str)
    (completion_order : list nat) (acc : tally) : tally :=
  fold_left
    (fun acc task =>
       match hosts !! task with
       | Some host =>
           record_result acc (run_ssh_command_on_host task host commands)
       | None => acc
       end)
    completion_order acc.

Definition run_ssh_commands_multi_host (hosts : list str)
    (commands : list str) (completion_order : list nat) : run_report :=
  let start :=
    {| tally_results := ∅; tally_successful := []; tally_failed := [] |} in
  let done := process_completed hosts commands completion_order start in
  {| total := len hosts;
     successful := len (tally_successful done);
     failed := len (tally_failed done);
     successful_hosts := tally_successful done;
     failed_hosts := tally_failed done;
     results := tally_results done |}.

End Orchestrator.

(** Three hosts: the first task succeeds, the second reports a failure,
    an exception escapes from the third; they complete in the order
    third, first, second. *)
Definition three_hosts : list str := [py "r1"; py "r2"; py "r3"].

Definition mixed_outcomes (task : nat) (hostname command : str)
  : task_outcome :=
  match task with
  | O => Returns true
  | S O => Returns false
  | _ => Raises (py "boom")
  end.

(** ** Output harvester: the collection loop of _execute_with_shell *)

(** Time is counted in microseconds from [start_time]: [elapsed] is
    [time.time() - start_time].  [time.sleep(d)] advances the clock by [d];
    a receive advances it by the cost that the channel gives for it; the
    other statements take no time.  This clock is exact, where the code
    reads floating-point seconds around sleeps that may last longer than
    asked: the times and the numbers of polls of a run are those of this
    clock, the control of the loop and what it does to the buffer are
    those of the code.  The progress messages are left out, and so are
    the ways out of the loop through an exception ([KeyboardInterrupt],
    an error raised by the channel), which the handlers around the loop
    take over. *)

Definition no_data_timeout : Z := 3000000.        (* 3.0 s *)
Definition max_total_wait : Z := 120000000.       (* 120 s *)
Definition hard_timeout : Z := 90000000.          (* 90 s *)
Definition max_output_size : Z := 100 * 1024 * 1024.
Definition max_drain_time : Z := 30000000.        (* 30 s *)
Definition recv_size : Z := 131072.               (* shell.recv(131072) *)
Definition data_sleep : Z := 10000.               (* time.sleep(0.01) *)
Definition idle_sleep : Z := 50000.               (* time.sleep(0.05) *)

(** The buffer [output] is a concatenation of pieces: the text of a chunk
    received from the channel, of which only the number of characters
    matters to the loop, or a text that the code appends itself. *)
Inductive piece :=
| Received (chars : Z)
| Text (t : str).

Definition piece_len (p : piece) : Z :=
  match p with Received n => n | Text t => len t end.

(** [len(output)] *)
Definition output_len (output : list piece) : Z :=
  fold_right (fun p n => piece_len p + n) 0 output.

(** The part of [len(output)] that came from the channel. *)
Definition received_len (output : list piece) : Z :=
  fold_right (fun p n => match p with Received k => k + n | Text _ => n end)
             0 output.

(** [f"{d:.0f}"] for a duration of [d] microseconds: the nearest whole
    number of seconds, a tie going to the even one. *)
Definition whole_seconds (d : Z) : Z :=
  let q := d / 1000000 in
  let r := d mod 1000000 in
  if r <? 500000 then q
  else if r >? 500000 then q + 1
  else if Z.even q then q else q + 1.

Definition timeout_marker (current_duration : Z) : str :=
  [newline; newline] ++ py "[COMMAND TIMEOUT - Forced completion after "
  ++ show (whole_seconds current_duration) ++ py "s]" ++ [newline].

Definition truncated_marker : str :=
  [newline; newline] ++ py "[OUTPUT TRUNCATED - Size limit of "
  ++ show (max_output_size / (1024 * 1024)) ++ py "MB reached]" ++ [newline].

(** The channel as the loop sees it; [k] counts the calls of
    [shell.recv_ready()] made so far. *)
Record channel := {
  recv_ready : nat -> bool;      (* the answer of call number k *)
  recv_chars : nat -> Z;         (* characters of the chunk received then *)
  recv_cost : nat -> Z           (* microseconds that receive takes *)
}.

Record harvest := {
  elapsed : Z;
  last_data_time : Z;
  output : list piece;
  chunk_count : Z;
  polls : nat
}.

(** Where control is: at the head of the collection loop, or at the head
    of the drain loop nested in it. *)
Inductive config :=
| Collecting (h : harvest)
| Draining (drain_start : Z) (drained_chunks : Z) (h : harvest).

(** How the collection ends. *)
Inductive exit :=
| Silence               (* no data for no_data_timeout: break *)
| HangDetected          (* more than 90 s: marker appended, break *)
| TotalWaitReached      (* the condition of the while loop is false *)
| DrainSilence          (* drain loop: no data for no_data_timeout *)
| DrainTimeout.         (* drain loop: max_drain_time is over *)

Definition after_sleep (d : Z) (h : harvest) : harvest :=
  {| elapsed := elapsed h + d;
     last_data_time := last_data_time h;
     output := output h;
     chunk_count := chunk_count h;
     polls := S (polls h) |}.

(** One turn of the loop at which control is. *)
Definition step (ch : channel) (c : config) : config + (exit * harvest) :=
  match c with
  | Collecting h =>
      if elapsed h <? max_total_wait then
        let current_duration := elapsed h in
        if current_duration >? hard_timeout then
          inr (HangDetected,
               {| elapsed := elapsed h;
                  last_data_time := last_data_time h;
                  output := output h ++ [Text (timeout_marker current_duration)];
                  chunk_count := chunk_count h;
                  polls := polls h |})
        else if recv_ready ch (polls h) then
          let t := elapsed h + recv_cost ch (polls h) in
          let output := output h ++ [Received (recv_chars ch (polls h))] in
          if output_len output >? max_output_size then
            inl (Draining t 0
                   {| elapsed := t;
                      last_data_time := t;
                      output := output ++ [Text truncated_marker];
                      chunk_count := chunk_count h + 1;
                      polls := S (polls h) |})
          else
            inl (Collecting
                   {| elapsed := t + data_sleep;
                      last_data_time := t;
                      output := output;
                      chunk_count := chunk_count h + 1;
                      polls := S (polls h) |})
        else if elapsed h - last_data_time h >=? no_data_timeout then
          inr (Silence, h)
        else inl (Collecting (after_sleep idle_sleep h))
      else inr (TotalWaitReached, h)
  | Draining drain_start drained_chunks h =>
      if elapsed h - drain_start <? max_drain_time then
        if recv_ready ch (polls h) then
          let t := elapsed h + recv_cost ch (polls h) in
          inl (Draining drain_start (drained_chunks + 1)
                 {| elapsed := t;
                    last_data_time := t;
                    output := output h;
                    chunk_count := chunk_count h;
                    polls := S (polls h) |})
        else if elapsed h - last_data_time h >=? no_data_timeout then
          inr (DrainSilence, h)
        else inl (Draining drain_start drained_chunks (after_sleep idle_sleep h))
      else inr (DrainTimeout, h)
  end.

(** The loop, run for at most [fuel] turns. *)
Fixpoint run (fuel : nat) (ch : channel) (c : config)
  : option (exit * harvest) :=
  match fuel with
  | O => None
  | S fuel =>
      match step ch c with
      | inl c' => run fuel ch c'
      | inr r => Some r
      end
  end.

(** The configurations that the loop goes through from [c]. *)
Inductive reaches (ch : channel) : config -> config -> Prop :=
| reaches_here c : reaches ch c c
| reaches_next c c' c'' :
    step ch c = inl c' -> reaches ch c' c'' -> reaches ch c c''.

(** The loop is entered [e0] microseconds after [start_time], with
    [last_data_time] just read from the clock. *)
Definition start (e0 : Z) : config :=
  Collecting {| elapsed := e0; last_data_time := e0; output := [];
                chunk_count := 0; polls := 0 |}.

(** A channel that never has data, and one that always has a full chunk. *)
Definition silent_channel : channel :=
  {| recv_ready := fun _ => false; recv_chars := fun _ => 0;
     recv_cost := fun _ => 1 |}.

Definition flooding_channel : channel :=
  {| recv_ready := fun _ => true; recv_chars := fun _ => recv_size;
     recv_cost := fun _ => 50000 |}.

(** A channel that has ten characters at every poll. *)
Definition trickling_channel : channel :=
  {| recv_ready := fun _ => true; recv_chars := fun _ => 10;
     recv_cost := fun _ => 1 |}.

(** An upper bound on the turns still to come. *)
Definition turns_left (c : config) : Z :=
  match c with
  | Collecting h =>
      (if elapsed h <=? hard_timeout
       then (hard_timeout - elapsed h) / data_sleep + 1 else 0)
      + max_drain_time + 3
  | Draining drain_start _ h =>
      (if elapsed h - drain_start <? max_drain_time
       then max_drain_time - (elapsed h - drain_start) else 0) + 1
  end.

Definition enough_fuel : nat :=
  Z.to_nat (hard_timeout / data_sleep + max_drain_time + 4).

(** *** Invariants of the loop *)

Definition ends_with (t : str) (o : list piece) : Prop :=
  exists o', o = o' ++ [Text t].

(** [R] bounds the time of a receive.  The head of the collection loop is
    reached before [max_total_wait]; the drain loop was entered at most [R]
    after the hang threshold and overruns its 30 s by less than a receive
    and a sleep. *)
Definition on_time (R : Z) (c : config) : Prop :=
  match c with
  | Collecting h => elapsed h < max_total_wait
  | Draining drain_start _ h =>
      drain_start <= hard_timeout + R
      /\ elapsed h < drain_start + max_drain_time + R + idle_sleep
      /\ ends_with truncated_marker (output h)
  end.

Definition harvest_of (c : config) : harvest :=
  match c with Collecting h | Draining _ _ h => h end.

(** How the loop entered at [e0] ends, with the reason of each way out;
    [R] bounds the time of a receive. *)
Definition ended (ch : channel) (R e0 : Z) (r : exit) (h : harvest) : Prop :=
  match r with
  | Silence =>
      recv_ready ch (polls h) = false
      /\ no_data_timeout <= elapsed h - last_data_time h
      /\ elapsed h <= hard_timeout
  | HangDetected =>
      hard_timeout < elapsed h < max_total_wait
      /\ ends_with (timeout_marker (elapsed h)) (output h)
  | TotalWaitReached =>
      max_total_wait <= e0 /\ h = harvest_of (start e0)
  | DrainSilence =>
      exists d k,
        reaches ch (start e0) (Draining d k h)
        /\ d <= hard_timeout + R
        /\ elapsed h - d < max_drain_time
        /\ recv_ready ch (polls h) = false
        /\ no_data_timeout <= elapsed h - last_data_time h
        /\ ends_with truncated_marker (output h)
  | DrainTimeout =>
      exists d k,
        reaches ch (start e0) (Draining d k h)
        /\ d <= hard_timeout + R
        /\ max_drain_time <= elapsed h - d < max_drain_time + R + idle_sleep
        /\ ends_with truncated_marker (output h)
  end.

(** At the head of the collection loop the buffer holds channel data only,
    within the limit; in the drain loop it holds the data, the chunk that
    crossed the limit included, and the truncation marker. *)
Definition buffer_ok (c : config) : Prop :=
  match c with
  | Collecting h =>
      output_len (output h) = received_len (output h)
      /\ received_len (output h) <= max_output_size
  | Draining _ _ h =>
      received_len (output h) <= max_output_size + recv_size
      /\ ends_with truncated_marker (output h)
  end.

(** ** Post-processing of the harvested output (_execute_with_shell) *)

(** The regular expressions of the cleaning step, and Python's way of
    matching them: alternatives in order, repetitions greedy, the first
    match found wins. *)
Inductive regex :=
| Eps
| Class (p : ascii -> bool)
| Cat (a b : regex)
| Star (a : regex).

(** [m r s k]: match [r] at the head of [s] and hand what is left to [k];
    the first way that [k] accepts is taken. *)
Fixpoint m (r : regex) (s : str) (k : str -> option str) : option str :=
  match r with
  | Eps => k s
  | Class p =>
      match s with
      | c :: t => if p c then k t else None
      | [] => None
      end
  | Cat a b => m a s (fun s' => m b s' k)
  | Star a =>
      (fix star (n : nat) (s : str) : option str :=
         let again :=
           match n with
           | O => None
           | S n' =>
               m a s (fun s' =>
                        if (length s' <? length s)%nat then star n' s'
                        else None)
           end in
         match again with
         | Some rest => Some rest
         | None => k s
         end) (length s) s
  end.

(** A pattern: its body and whether it ends in [$]. *)
Record pattern := {
  body : regex;
  to_end : bool
}.

(** [$]: at the end of the string, or just before a newline that ends
    it. *)
Definition at_end (s : str) : option str :=
  match s with
  | [] => Some s
  | [c] => if Ascii.eqb c newline then Some s else None
  | _ => None
  end.

Definition match_at (p : pattern) (s : str) : option str :=
  m (body p) s (if to_end p then at_end else Some).

(** [re.match(p, s)] is not [None]. *)
Definition re_match (p : pattern) (s : str) : bool :=
  match match_at p s with Some _ => true | None => false end.

(** [re.sub(p, '', s)], for a pattern that matches no empty string. *)
Fixpoint re_sub_from (fuel : nat) (p : pattern) (s : str) : str :=
  match fuel, s with
  | O, _ => s
  | _, [] => []
  | S fuel, c :: t =>
      match match_at p s with
      | Some rest =>
          if (length rest <? length s)%nat
          then re_sub_from fuel p rest
          else c :: re_sub_from fuel p t
      | None => c :: re_sub_from fuel p t
      end
  end.

Definition re_sub (p : pattern) (s : str) : str :=
  re_sub_from (length s) p s.

Definition lit (s : string) : regex :=
  fold_right (fun c r => Cat (Class (Ascii.eqb c)) r) Eps (py s).
Arguments lit s%_string.

Definition any : regex := Class (fun c => negb (Ascii.eqb c newline)).
Definition space : regex := Class is_space.
Definition digit : regex := Class is_digit.
Definition set (chars : string) : regex := Class (one_of (py chars)).
Arguments set chars%_string.
Definition plus (r : regex) : regex := Cat r (Star r).

Fixpoint seq_re (rs : list regex) : regex :=
  match rs with
  | [] => Eps
  | [r] => r
  | r :: rest => Cat r (seq_re rest)
  end.

Definition esc : regex := Class (Ascii.eqb (ascii_of_N 27)).
Definition digits_or_semicolon : regex :=
  Class (fun c => is_digit c || Ascii.eqb c ";").

Definition shell_artifacts : list str :=
  map py ["exit"; "logout"; "Connection to"; "Last login:";
          "Welcome to"; "Match except:"; "---(more)---";
          "No next tag"; "press RETURN"; "Invalid command:"; "xit";
          "vyos@vyos:~$"; "Connection closed"]%string.

Definition shell_prompt_patterns : list pattern :=
  [ (* .*[$#>]\s*$ *)
    {| body := seq_re [Star any; set "$#>"; Star space]; to_end := true |};
    (* vyos@.*[$#>]\s*$ *)
    {| body := seq_re [lit "vyos@"; Star any; set "$#>"; Star space];
       to_end := true |};
    (* .*@.*:.*[$#>]\s*$ *)
    {| body := seq_re [Star any; lit "@"; Star any; lit ":"; Star any;
                       set "$#>"; Star space];
       to_end := true |};
    (* {master:\d+} *)
    {| body := seq_re [lit "{master:"; plus digit; lit "}"];
       to_end := false |};
    (* ^\s*$ *)
    {| body := Star space; to_end := true |};
    (* :+.*\[.*\d+;\d+.*H.* *)
    {| body := seq_re [plus (lit ":"); Star any; lit "["; Star any;
                       plus digit; lit ";"; plus digit; Star any; lit "H";
                       Star any];
       to_end := false |};
    (* ^:.*press RETURN.* *)
    {| body := seq_re [lit ":"; Star any; lit "press RETURN"; Star any];
       to_end := false |};
    (* ^>vyos@.*\$ xit$ *)
    {| body := seq_re [lit ">vyos@"; Star any; lit "$ xit"]; to_end := true |};
    (* ^vyos@.*:~\$.*xit$ *)
    {| body := seq_re [lit "vyos@"; Star any; lit ":~$"; Star any; lit "xit"];
       to_end := true |};
    (* ^Invalid command: \[xit\]$ *)
    {| body := lit "Invalid command: [xit]"; to_end := true |};
    (* ^.*Connection to .* closed\.$ *)
    {| body := seq_re [Star any; lit "Connection to "; Star any;
                       lit " closed."];
       to_end := true |};
    (* ^\s*xit\s*$ *)
    {| body := seq_re [Star space; lit "xit"; Star space]; to_end := true |} ].

Definition vyos_artifacts : list pattern :=
  [ (* ^\s*xit\s*$ *)
    {| body := seq_re [Star space; lit "xit"; Star space]; to_end := true |};
    (* ^Invalid command: \[xit\]$ *)
    {| body := lit "Invalid command: [xit]"; to_end := true |};
    (* ^vyos@.*:~\$ *)
    {| body := seq_re [lit "vyos@"; Star any; lit ":~$"]; to_end := false |};
    (* ^Connection.*closed\.$ *)
    {| body := seq_re [lit "Connection"; Star any; lit "closed."];
       to_end := true |} ].

(** ESC[ digits and semicolons, then m or K *)
Definition ansi_escape : pattern :=
  {| body := seq_re [esc; lit "["; Star digits_or_semicolon; set "mK"];
     to_end := false |}.

(** ESC[? digits, then h or l *)
Definition ansi_mode : pattern :=
  {| body := seq_re [esc; lit "[?"; plus digit; set "hl"]; to_end := false |}.

(** ESC[ digits ; digits H *)
Definition ansi_cursor : pattern :=
  {| body := seq_re [esc; lit "["; plus digit; lit ";"; plus digit; lit "H"];
     to_end := false |}.

(** :\s*$ *)
Definition trailing_colon : pattern :=
  {| body := seq_re [lit ":"; Star space]; to_end := true |}.

Definition carriage_return : ascii := ascii_of_N 13.
Definition backspace : ascii := ascii_of_N 8.

(** [s.replace(c, '')] for a single character [c]. *)
Definition remove_char (c : ascii) (s : str) : str :=
  List.filter (fun x => negb (Ascii.eqb x c)) s.

(** The assignments to [clean_line]. *)
Definition clean_line_of (line : str) : str :=
  let clean_line := re_sub ansi_escape line in
  let clean_line := re_sub ansi_mode clean_line in
  let clean_line := re_sub ansi_cursor clean_line in
  let clean_line := re_sub trailing_colon clean_line in
  strip (remove_char backspace (remove_char carriage_return clean_line)).

(** The loop over [lines]; [command_found] is the flag of that name. *)
Fixpoint clean_lines (command : str) (command_found : bool)
    (lines : list str) : list str :=
  match lines with
  | [] => []
  | original_line :: rest =>
      let line := strip original_line in
      match line with
      | [] => clean_lines command command_found rest
      | _ =>
          if negb command_found && contains (strip command) line
          then clean_lines command true rest
          else if existsb (fun artifact =>
                             contains (lower artifact) (lower line))
                          shell_artifacts
          then clean_lines command command_found rest
          else if existsb (fun pattern => re_match pattern line)
                          shell_prompt_patterns
          then clean_lines command command_found rest
          else
            let clean_line := clean_line_of line in
            let skip_vyos_artifact :=
              existsb (fun artifact_pattern =>
                         re_match artifact_pattern clean_line)
                      vyos_artifacts in
            match clean_line with
            | [] => clean_lines command command_found rest
            | _ =>
                if skip_vyos_artifact
                then clean_lines command command_found rest
                else clean_line :: clean_lines command command_found rest
            end
      end
  end.

(** [cleaned_output], from the command and the text harvested. *)
Definition cleaned_output_of (command output : str) : str :=
  strip (join newline (clean_lines command false (split newline output))).

(** What the shell mode returns once the output is harvested. *)
Definition shell_result (command output : str) : bool * str * str :=
  let cleaned_output := cleaned_output_of command output in
  (success_determination cleaned_output, cleaned_output, []).

(** *** A sample output *)

(** A device that answers [show users] with one line, in which a backspace
    stands between the x and the i of xit: no artifact and no prompt
    pattern matches the line, and the cleaning removes the backspace. *)
Definition denied_command : str := py "show users".

Definition denied_output : str :=
  py "show users" ++ [carriage_return; newline]
  ++ py "permission denied: unknown command: x" ++ [backspace] ++ py "it"
  ++ [carriage_return; newline].

Definition denied_with_artifact : str :=
  py "permission denied: unknown command: xit".

(** The echo of the command, one line of output and the prompt. *)
Definition version_output : str :=
  py "show version" ++ [carriage_return; newline]
  ++ py "Junos: 21.4R1.12" ++ [carriage_return; newline]
  ++ py "admin@r1> ".

(** ** More of the validator: parse_host_list and load_commands_from_csv *)

Section HostList.

Variable ip_address_parses : str -> bool.

(** The loop of [parse_host_list] over [hosts_str.split(',')]: the value of
    [hosts] when it ends. *)
Fixpoint collect_hosts (pieces : list str) : list str :=
  match pieces with
  | [] => []
  | host :: rest =>
      let host := strip host in
      match host with
      | [] => collect_hosts rest
      | _ =>
          if validate_hostname ip_address_parses host
          then host :: collect_hosts rest
          else collect_hosts rest
      end
  end.

Definition valid_host_entries (hosts_str : str) : list str :=
  let hosts_str :=
    if len hosts_str >? 10000 then slice_to 10000 hosts_str else hosts_str in
  collect_hosts (split "," hosts_str).

Definition max_hosts : Z := 100.

Definition parse_host_list (hosts_str : str) : list str :=
  match hosts_str with
  | [] => []
  | _ =>
      let hosts := valid_host_entries hosts_str in
      if len hosts >? max_hosts
      then firstn (Z.to_nat max_hosts) hosts
      else hosts
  end.

End HostList.

(** What [load_commands_from_csv] finds at [csv_file_path]: no file, a file
    that cannot be opened or read to its end, or the rows that
    [csv.reader] yields. *)
Inductive csv_file :=
| NoSuchFile
| Unreadable
| Rows (rows : list (list str)).

(** The loop over the rows: the value of [commands] when it ends. *)
Fixpoint commands_from_rows (rows : list (list str)) : list str :=
  match rows with
  | [] => []
  | row :: rest =>
      match row with
      | [] => commands_from_rows rest
      | cell :: _ =>
          let first_cell := strip cell in
          if starts_with (py "#") first_cell
             || match first_cell with [] => true | _ => false end
          then commands_from_rows rest
          else
            let command := first_cell in
            if validate_command command
            then command :: commands_from_rows rest
            else commands_from_rows rest
      end
  end.

Definition load_commands_from_csv (file : csv_file) : list str :=
  match file with
  | NoSuchFile => []
  | Unreadable => []
  | Rows rows =>
      let commands := commands_from_rows rows in
      if len commands >? max_commands
      then firstn (Z.to_nat max_commands) commands
      else commands
  end.

(** *** Notions for the further properties of the validator *)

(** The characters of a host name that is not an IP literal. *)
Definition hostname_char (c : ascii) : bool :=
  is_alnum c || Ascii.eqb c "-" || Ascii.eqb c ".".

(** Neither blanks at the ends nor a comma inside. *)
Definition trimmed_without (sep : ascii) (s : str) : Prop :=
  head_ok is_space s = true /\ last_ok is_space s = true
  /\ forallb (fun c => negb (Ascii.eqb c sep)) s = true.

(** ** Per-host log: write_to_host_log and the path of the log file *)

(** [s.replace('\r\n', '\n')]: the pairs are replaced from left to right,
    without looking again at what a replacement leaves. *)
Fixpoint replace_crlf (s : str) : str :=
  match s with
  | [] => []
  | c :: rest =>
      match rest with
      | d :: t =>
          if Ascii.eqb c carriage_return && Ascii.eqb d newline
          then newline :: replace_crlf t
          else c :: replace_crlf rest
      | [] => [c]
      end
  end.

(** [message.replace('\x00', '').replace('\r\n', '\n')] *)
Definition safe_message_of (message : str) : str :=
  replace_crlf (remove_char nul message).

(** [message.encode('ascii', errors='replace').decode('ascii')] *)
Definition ascii_replace (message : str) : str :=
  map (fun c => if (code c <? 128)%N then c else "?"%char) message.

(** What opening the log file and writing to it does. *)
Inductive write_outcome :=
| Written
| WriteIOError (e : str)
| WriteUnicodeEncodeError (e : str)
| WriteOtherError (e : str).

(** [write_to_host_log(message)]: [content] is what the file holds,
    [first] the outcome of the write and [second] the outcome of the write
    of the fall-back; the new content and the errors logged. *)
Definition write_to_host_log (host_log_file : str)
    (first second : write_outcome) (content message : str)
  : str * list event :=
  match message with
  | [] => (content, [])
  | _ =>
      match first with
      | Written => (content ++ safe_message_of message ++ [newline], [])
      | WriteIOError e =>
          (content,
           [LogError (py "IO error writing to host log " ++ host_log_file
                      ++ py ": " ++ e)])
      | WriteUnicodeEncodeError e =>
          let logged :=
            LogError (py "Unicode encoding error writing to host log "
                      ++ host_log_file ++ py ": " ++ e) in
          match second with
          | Written =>
              (content ++ ascii_replace message ++ [newline], [logged])
          | _ =>
              (content,
               [logged;
                LogError (py "Failed to write sanitized message to host log")])
          end
      | WriteOtherError e =>
          (content,
           [LogError (py "Unexpected error writing to host log "
                      ++ host_log_file ++ py ": " ++ e)])
      end
  end.

(** [os.path.join(a, b)] where the separator is the slash. *)
Definition path_join (a b : str) : str :=
  if starts_with (py "/") b then b
  else match rev a with
       | [] => b
       | c :: _ => if Ascii.eqb c "/" then a ++ b else a ++ py "/" ++ b
       end.

(** [host_log_file] of [create_secure_log_file], [run_ssh_command] and
    [run_multiple_ssh_commands]; [makedirs_ok] says that the directory
    could be made and protected, [timestamp] is what [strftime] gives. *)
Definition host_log_file (makedirs_ok : bool) (timestamp hostname : str)
  : str :=
  let safe_hostname := sanitize_filename hostname in
  let log_dir := if makedirs_ok then py "per-host-logs" else py "." in
  let safe_hostname :=
    if makedirs_ok then safe_hostname else py "fallback_" ++ safe_hostname in
  path_join log_dir
    (py "ssh_output_" ++ safe_hostname ++ py "_" ++ timestamp ++ py ".log").

(** ** Session: disconnect and _execute_direct *)

(** What a run on one host does, in order. *)
Inductive host_message :=
| SessionHeader (hostname : str) (commands : Z)
| SingleHeader (hostname command : str)
| FailedToConnect (hostname : str)
| ExecutingSequentially (commands : Z)
| Separator
| SeparatorLine
| CommandHeader (i total : Z) (command : str)
| CommandOutputLabel
| OutputLabel
| ErrorsLabel
| StdoutLabel
| StderrLabel
| NoOutputReturned
| LogText (t : str)
| CommandOk (i : Z)
| CommandFailed (i : Z)
| CommandInterrupted (i remaining : Z)
| AllCommandsOk
| SomeCommandsFailed
| SingleOk
| SingleFailed
| SessionFooter (status : bool)
| SingleFooter (status : bool).

Inductive action :=
| Did (ev : event)               (* an event of connect or execute_command *)
| CloseClient                    (* self.client.close() *)
| Pause (d : Z)                  (* time.sleep, in microseconds *)
| HostLog (m : host_message).    (* write_to_host_log(m) *)

Definition disconnect (s : session) : session * list action :=
  match client s with
  | Some _ => ({| timeout := timeout s; client := None |}, [CloseClient])
  | None => (s, [])
  end.

(** What one [exec_command] with the reading of its streams does. *)
Inductive exec_attempt :=
| Completed (exit_status : Z) (stdout_output stderr_output : str)
| Failed (e : exn).

(** [_execute_direct]: [with_pty] is the attempt with [get_pty=True],
    [without_pty] the one made when the first raises. *)
Definition execute_direct (command : str) (with_pty without_pty : exec_attempt)
  : execution :=
  match with_pty with
  | Completed exit_status stdout_output stderr_output =>
      {| channel_events := [ChannelIO command false];
         outcome := inl (exit_status =? 0, stdout_output, stderr_output) |}
  | Failed _ =>
      match without_pty with
      | Completed exit_status stdout_output stderr_output =>
          {| channel_events := [ChannelIO command false; ChannelIO command false];
             outcome := inl (exit_status =? 0, stdout_output, stderr_output) |}
      | Failed e2 =>
          {| channel_events :=
               [ChannelIO command false; ChannelIO command false;
                LogError (py "Both PTY and non-PTY exec_command failed: "
                          ++ text_of e2)];
             outcome := inr e2 |}
      end
  end.

(** The [error_msg] of the handlers of [execute_command]. *)
Definition execution_error_message (s : session) (e : exn) : str :=
  match e with
  | socket_timeout _ _ =>
      py "Command execution timeout after " ++ show (timeout s)
      ++ py " seconds"
  | _ => py "Execution error: " ++ type_name_of e ++ py ": " ++ text_of e
  end.

Definition is_channel_io (ev : event) : bool :=
  match ev with ChannelIO _ _ => true | _ => false end.

(** ** One host: run_multiple_ssh_commands and run_ssh_command *)

Module HostRun.

(** What the [i]-th call of [execute_command] meets: it returns, with
    the execution [x] of its mode, or a [KeyboardInterrupt] leaves it,
    the handlers of [execute_command] and of [_execute_direct] catching
    only [Exception].  A Ctrl+C that [_execute_with_shell] catches
    itself, while it collects the output, does not leave the call: the
    command goes on to its result, and the call returns. *)
Inductive command_run :=
| Ran (x : execution)
| Interrupted (events : list event).

Section Host.

Variable ip_address_parses : str -> bool.
Variable t : transport.
Variable attempt : Z -> str -> bool -> str -> command_run.

(** A [KeyboardInterrupt] is raised in the [time.sleep] that follows
    command [i]. *)
Variable pause_interrupted : Z -> bool.

(** [os.makedirs] and [os.chmod]: [makedirs] is the text of the [OSError]
    if one is raised. *)
Definition open_host_log (makedirs : option str) : list action :=
  match makedirs with
  | Some e =>
      [Did (LogError (py "Failed to create log directory per-host-logs: "
                      ++ e))]
  | None => []
  end.

(** [if text: write_to_host_log(label); write_to_host_log(text)] *)
Definition labelled (label : host_message) (text : str) : list action :=
  match text with
  | [] => []
  | _ => [HostLog label; HostLog (LogText text)]
  end.

(** The loop [for i, command in enumerate(commands, 1)], from command [i]
    on; [total] is [len(commands)].  The result is [overall_success] when
    the loop is left. *)
Fixpoint run_commands (s : session) (hostname : str) (use_shell : bool)
    (total i : Z) (commands : list str) (overall_success : bool)
  : bool * list action :=
  match commands with
  | [] => (overall_success, [])
  | command :: rest =>
      let head :=
        [HostLog Separator; HostLog (CommandHeader i total command);
         HostLog SeparatorLine] in
      let interrupted := [HostLog (CommandInterrupted i (total - i))] in
      match attempt i command use_shell hostname with
      | Interrupted events => (false, head ++ map Did events ++ interrupted)
      | Ran x =>
          let '(success, stdout, stderr, events) :=
            execute_command (fun _ _ _ => x) s command use_shell hostname in
          let done :=
            head ++ map Did events
            ++ labelled OutputLabel stdout ++ labelled ErrorsLabel stderr
            ++ [HostLog (if success then CommandOk i else CommandFailed i)] in
          let overall_success := overall_success && success in
          let pause := if i <? total then [Pause 500000] else [] in
          if (i <? total) && pause_interrupted i
          then (false, done ++ pause ++ interrupted)
          else
            let (result, later) :=
              run_commands s hostname use_shell total (i + 1) rest
                overall_success in
            (result, done ++ pause ++ later)
      end
  end.

(** The value returned and what is done, in order.  Every call made in
    the outer [try] catches [Exception] itself, so that its handler for
    [Exception] is not entered. *)
Definition run_multiple_ssh_commands (makedirs : option str)
    (hostname username password : str) (commands : list str)
    (port timeout_ : Z) (use_shell : bool) : bool * list action :=
  let runner := {| timeout := timeout_; client := None |} in
  let header :=
    open_host_log makedirs
    ++ [HostLog (SessionHeader hostname (len commands))] in
  let '(connected, runner, events) :=
    connect ip_address_parses t runner hostname username password port in
  let '(result, overall_success, body) :=
    if connected then
      let (overall_success, body) :=
        run_commands runner hostname use_shell (len commands) 1 commands
          true in
      (overall_success, overall_success,
       [HostLog (ExecutingSequentially (len commands))] ++ body
       ++ [HostLog Separator;
           HostLog (if overall_success then AllCommandsOk
                    else SomeCommandsFailed)])
    else
      (false, true,
       [Did (LogError (py "SSH connection failed: " ++ hostname ++ py ":"
                       ++ show port));
        HostLog (FailedToConnect hostname)]) in
  (result,
   header ++ map Did events ++ body ++ snd (disconnect runner)
   ++ [HostLog (SessionFooter overall_success)]).

(** [run_ssh_command]: [None] when the [KeyboardInterrupt] leaves the
    function; the footer tests ['success' in locals() and success]. *)
Definition run_ssh_command (makedirs : option str)
    (hostname username password command : str)
    (port timeout_ : Z) (use_shell : bool) : option bool * list action :=
  let runner := {| timeout := timeout_; client := None |} in
  let header :=
    open_host_log makedirs ++ [HostLog (SingleHeader hostname command)] in
  let '(connected, runner, events) :=
    connect ip_address_parses t runner hostname username password port in
  let '(result, status, body) :=
    if connected then
      match attempt 1 command use_shell hostname with
      | Interrupted events => (None, false, map Did events)
      | Ran x =>
          let '(success, stdout, stderr, events) :=
            execute_command (fun _ _ _ => x) runner command use_shell
              hostname in
          (Some success, success,
           map Did events
           ++ [HostLog Separator; HostLog CommandOutputLabel;
               HostLog SeparatorLine]
           ++ labelled StdoutLabel stdout ++ labelled StderrLabel stderr
           ++ match stdout, stderr with
              | [], [] => [HostLog NoOutputReturned]
              | _, _ => []
              end
           ++ [HostLog SeparatorLine;
               HostLog (if success then SingleOk else SingleFailed)])
      end
    else
      (Some false, false,
       [Did (LogError (py "SSH connection failed: " ++ hostname ++ py ":"
                       ++ show port));
        HostLog (FailedToConnect hostname)]) in
  (result,
   header ++ map Did events ++ body ++ snd (disconnect runner)
   ++ [HostLog (SingleFooter status)]).

(** For command [i], [execute_command] returns with success and no
    [KeyboardInterrupt] is raised in the pause after it. *)
Definition command_passes (s : session) (hostname : str) (use_shell : bool)
    (total i : Z) (command : str) : bool :=
  match attempt i command use_shell hostname with
  | Interrupted _ => false
  | Ran x =>
      fst (fst (fst (execute_command (fun _ _ _ => x) s command use_shell
                       hostname)))
      && negb ((i <? total) && pause_interrupted i)
  end.

(** A [KeyboardInterrupt] reaches the loop at command [i]: it leaves
    [execute_command], or is raised in the pause after it. *)
Definition command_interrupted (hostname : str) (use_shell : bool)
    (total i : Z) (command : str) : bool :=
  match attempt i command use_shell hostname with
  | Interrupted _ => true
  | Ran _ => (i <? total) && pause_interrupted i
  end.

End Host.

(** [ok i command] for every command, numbered from [i]. *)
Fixpoint every_command (ok : Z -> str -> bool) (i : Z) (commands : list str)
  : bool :=
  match commands with
  | [] => true
  | command :: rest => ok i command && every_command ok (i + 1) rest
  end.

(** The header lines of the commands [commands], numbered from [i]. *)
Fixpoint command_headers (total i : Z) (commands : list str)
  : list host_message :=
  match commands with
  | [] => []
  | command :: rest =>
      CommandHeader i total command :: command_headers total (i + 1) rest
  end.

(** The commands up to the first one that is interrupted, it included. *)
Fixpoint until_interrupted (stop : Z -> str -> bool) (i : Z)
    (commands : list str) : list str :=
  match commands with
  | [] => []
  | command :: rest =>
      if stop i command then [command]
      else command :: until_interrupted stop (i + 1) rest
  end.

Definition headers_of (trace : list action) : list host_message :=
  flat_map (fun a => match a with
                     | HostLog (CommandHeader i total command) =>
                         [CommandHeader i total command]
                     | _ => []
                     end) trace.

Definition pauses_of (trace : list action) : list Z :=
  flat_map (fun a => match a with Pause d => [d] | _ => [] end) trace.

Definition is_footer (a : action) : bool :=
  match a with
  | HostLog (SessionFooter _) | HostLog (SingleFooter _) => true
  | _ => false
  end.

Definition is_close (a : action) : bool :=
  match a with CloseClient => true | _ => false end.

(** Neither the closing of the client nor a footer. *)
Definition quiet (a : action) : bool := negb (is_close a || is_footer a).

End HostRun.

(** *** A sample run *)

(** A device that accepts the connection and on which every command ends
    in an exception. *)
Definition accepting_transport : transport :=
  {| load_system_host_keys := None; load_host_keys := None;
     transport_connect := None |}.

Definition failing_attempt (i : Z) (command : str) (use_shell : bool)
    (hostname : str) : HostRun.command_run :=
  HostRun.Ran (failing_run command use_shell hostname).

Definition two_commands : list str := [py "show version"; py "show users"].

(** A line as the cleaning keeps it. *)
Definition kept_line (l : str) : Prop :=
  l <> []
  /\ head_ok is_space l = true /\ last_ok is_space l = true
  /\ ~ In newline l /\ ~ In carriage_return l /\ ~ In backspace l.

Definition is_received (p : piece) : bool :=
  match p with Received _ => true | Text _ => false end.

(** The chunks of the channel that the buffer holds. *)
Definition chunks_in (o : list piece) : Z :=
  len (List.filter is_received o).

(** [chunk_count] counts the chunks in the buffer and the clock readings
    are in order, [e0] being the time at which the loop was entered. *)
Definition counted (e0 : Z) (h : harvest) : Prop :=
  chunk_count h = chunks_in (output h)
  /\ e0 <= last_data_time h <= elapsed h.

(** ** Configuration from the .env file: load_ssh_config_from_env *)

Module EnvFile.

(** The dictionary [config]. *)
Record config := {
  hosts : list str;
  username : option str;
  password : option str;
  commands : list str
}.

Definition empty : config :=
  {| hosts := []; username := None; password := None; commands := [] |}.

(** [not env_file or '..' in env_file or env_file.startswith('/')
     or '\\' in env_file] *)
Definition bad_path (env_file : str) : bool :=
  match env_file with [] => true | _ => false end
  || contains (py "..") env_file
  || starts_with (py "/") env_file
  || contains (py "\") env_file.

(** [os.path.exists] and [os.path.getsize] on the file. *)
Inductive file_state :=
| Absent
| Inaccessible                 (* getsize raises OSError *)
| Size (file_size : Z).

(** How the file is read: by python-dotenv, after which [os.getenv]
    answers ([None] when [load_dotenv] raises), or line by line; the lines
    are those that could be read. *)
Inductive reader :=
| Dotenv (getenv : option (str -> option str))
| Manual (lines : list str).

Section Loader.

Variable ip_address_parses : str -> bool.

(** The branch [if DOTENV_AVAILABLE]. *)
Definition from_environment (getenv : str -> option str) : config :=
  {| hosts :=
       match getenv (py "SSH_HOST") with
       | Some (c :: t) => parse_host_list ip_address_parses (c :: t)
       | _ => []
       end;
     username :=
       match getenv (py "SSH_USER") with
       | Some (c :: t) =>
           if validate_username (c :: t) then Some (c :: t) else None
       | _ => None
       end;
     password := getenv (py "SSH_PASSWORD");
     commands :=
       match getenv (py "SSH_COMMANDS") with
       | Some (c :: t) => parse_command_list (c :: t)
       | _ => []
       end |}.

(** [line.split('=', 1)] for a line that holds an equals sign. *)
Fixpoint split_once (sep : ascii) (s : str) : str * str :=
  match s with
  | [] => ([], [])
  | c :: t =>
      if Ascii.eqb c sep then ([], t)
      else let (a, b) := split_once sep t in (c :: a, b)
  end.

Definition ends_with_char (c : ascii) (s : str) : bool :=
  match rev s with
  | x :: _ => Ascii.eqb x c
  | [] => false
  end.

(** [value[1:-1]] *)
Definition inner (value : str) : str := removelast (tl value).

(** The removal of one pair of quotes around the value. *)
Definition unquote (value : str) : str :=
  if starts_with [ascii_of_N 34] value && ends_with_char (ascii_of_N 34) value
  then inner value
  else if starts_with (py "'") value && ends_with_char "'" value
  then inner value
  else value.

(** The body of the loop over the lines, after the count. *)
Definition assign (cfg : config) (line : str) : config :=
  let line := strip line in
  match line with
  | [] => cfg
  | _ =>
      if starts_with (py "#") line then cfg
      else if negb (contains (py "=") line) then cfg
      else
        let (k, v) := split_once "=" line in
        let key := strip k in
        let value := unquote (strip v) in
        if str_eqb key (py "SSH_HOST") then
          {| hosts := parse_host_list ip_address_parses value;
             username := username cfg; password := password cfg;
             commands := commands cfg |}
        else if str_eqb key (py "SSH_USER") then
          if validate_username value then
            {| hosts := hosts cfg; username := Some value;
               password := password cfg; commands := commands cfg |}
          else cfg
        else if str_eqb key (py "SSH_PASSWORD") then
          {| hosts := hosts cfg; username := username cfg;
             password := Some value; commands := commands cfg |}
        else if str_eqb key (py "SSH_COMMANDS") then
          {| hosts := hosts cfg; username := username cfg;
             password := password cfg;
             commands := parse_command_list value |}
        else cfg
  end.

(** The loop stops at the line after the 1000th. *)
Definition read_lines (lines : list str) : config :=
  fold_left assign (firstn 1000 lines) empty.

Definition load_ssh_config_from_env (env_file : str) (file : file_state)
    (r : reader) : config :=
  if bad_path env_file then empty
  else
    match file with
    | Absent => empty
    | Inaccessible => empty
    | Size file_size =>
        if file_size >? 1024 * 1024 then empty
        else
          match r with
          | Dotenv None => empty
          | Dotenv (Some getenv) => from_environment getenv
          | Manual lines => read_lines lines
          end
    end.

(** What every configuration returned satisfies. *)
Definition validated (cfg : config) : Prop :=
  (length (hosts cfg) <= 100)%nat
  /\ Forall (fun h => validate_hostname ip_address_parses h = true) (hosts cfg)
  /\ (forall u, username cfg = Some u -> validate_username u = true)
  /\ (length (commands cfg) <= 50)%nat
  /\ Forall (fun c => validate_command c = true) (commands cfg).

(** A line that the manual reader passes over: blank, or a comment. *)
Definition passed_over (line : str) : bool :=
  match strip line with
  | [] => true
  | l => starts_with (py "#") l
  end.

End Loader.

End EnvFile.

(** ** The application: run_application and interactive_mode *)

Module App.

(** The parsed arguments; the logging options are left out. *)
Record args := {
  interactive : bool;
  no_env : bool;
  hostname : option str;
  username : option str;
  password : option str;
  command : option str;
  port : Z;
  timeout : Z;
  secure : bool;
  shell : bool;
  no_shell : bool;
  max_threads : option Z
}.

(** The truth value of an optional string, and its text. *)
Definition truthy (s : option str) : bool :=
  match s with Some (_ :: _) => true | _ => false end.

Definition text (s : option str) : str :=
  match s with Some s => s | None => [] end.

Definition nonempty {A} (l : list A) : bool :=
  match l with [] => false | _ => true end.

(** The call that runs the commands. *)
Inductive launch :=
| RunSshCommand (hostname username password command : str)
    (port timeout : Z) (use_shell : bool)
| RunMultipleSshCommands (hostname username password : str)
    (commands : list str) (port timeout : Z) (use_shell : bool)
| RunSshCommandsMultiHost (hosts : list str) (username password : str)
    (commands : list str) (port timeout : Z) (use_shell : bool)
    (max_threads : Z).

(** What [run_application] does: it hands over to [interactive_mode],
    returns [False] without connecting, or makes a call, whose verdict it
    returns (for several hosts: whether no host failed). *)
Inductive decision :=
| InteractiveMode
| ReturnFalse
| Launch (l : launch).

Definition launch_hosts (l : launch) : list str :=
  match l with
  | RunSshCommand hostname _ _ _ _ _ _ => [hostname]
  | RunMultipleSshCommands hostname _ _ _ _ _ _ => [hostname]
  | RunSshCommandsMultiHost hosts _ _ _ _ _ _ _ => hosts
  end.

Definition launch_username (l : launch) : str :=
  match l with
  | RunSshCommand _ username _ _ _ _ _ => username
  | RunMultipleSshCommands _ username _ _ _ _ _ => username
  | RunSshCommandsMultiHost _ username _ _ _ _ _ _ => username
  end.

Definition launch_password (l : launch) : str :=
  match l with
  | RunSshCommand _ _ password _ _ _ _ => password
  | RunMultipleSshCommands _ _ password _ _ _ _ => password
  | RunSshCommandsMultiHost _ _ password _ _ _ _ _ => password
  end.

Definition launch_commands (l : launch) : list str :=
  match l with
  | RunSshCommand _ _ _ command _ _ _ => [command]
  | RunMultipleSshCommands _ _ _ commands _ _ _ => commands
  | RunSshCommandsMultiHost _ _ _ commands _ _ _ _ => commands
  end.

Definition launch_port (l : launch) : Z :=
  match l with
  | RunSshCommand _ _ _ _ port _ _ => port
  | RunMultipleSshCommands _ _ _ _ port _ _ => port
  | RunSshCommandsMultiHost _ _ _ _ port _ _ _ => port
  end.

Definition launch_timeout (l : launch) : Z :=
  match l with
  | RunSshCommand _ _ _ _ _ timeout _ => timeout
  | RunMultipleSshCommands _ _ _ _ _ timeout _ => timeout
  | RunSshCommandsMultiHost _ _ _ _ _ timeout _ _ => timeout
  end.

(** The two validation loops, over the hosts and over the commands: the
    items are kept as they are when none is invalid, the valid ones are
    kept when some are, and [None] stands for the [return False] taken
    when none is valid. *)
Definition keep_valid (valid : str -> bool) (items : list str)
  : option (list str) :=
  let validated := List.filter valid items in
  let invalid := List.filter (fun x => negb (valid x)) items in
  match invalid with
  | [] => Some items
  | _ =>
      match validated with
      | [] => None
      | _ => Some validated
      end
  end.

Section Application.

Variable ip_address_parses : str -> bool.

(** [multiprocessing.cpu_count()] *)
Variable cpu_count : Z.

(** [commands_to_run] before its validation; [None] is the [return False]
    of the fourth branch.  [input] is the line typed at the prompt of
    that branch. *)
Definition choose_commands (a : args) (use_env : bool)
    (env_config : EnvFile.config) (csv : csv_file) (input : str)
  : option (list str) :=
  if truthy (command a) then Some [text (command a)]
  else if use_env && nonempty (EnvFile.commands env_config)
  then Some (EnvFile.commands env_config)
  else if negb (truthy (command a)) then
    let csv_commands := load_commands_from_csv csv in
    match csv_commands with
    | [] => Some []
    | _ => Some csv_commands
    end
  else
    let env_commands :=
      if use_env then EnvFile.commands env_config else [] in
    let csv_commands := load_commands_from_csv csv in
    let command := strip input in
    match env_commands, csv_commands with
    | _ :: _, _ :: _ =>
        match command with
        | [] => Some env_commands
        | _ =>
            if str_eqb (lower command) (py "csv") then Some csv_commands
            else Some [command]
        end
    | _ :: _, [] =>
        match command with
        | [] => Some env_commands
        | _ => Some [command]
        end
    | [], _ :: _ =>
        match command with
        | [] => Some csv_commands
        | _ => Some [command]
        end
    | [], [] =>
        match command with
        | [] => None
        | _ => Some [command]
        end
    end.

(** [loaded] is what [load_ssh_config_from_env()] returns, [getpass] the
    password typed at the prompt, [csv] the file SSH_COMMANDS.CSV.  With
    [--no-env], [env_config] is [{}], whose [get] answers as the empty
    configuration does. *)
Definition run_application (a : args) (loaded : EnvFile.config)
    (getpass : str) (csv : csv_file) (input : str) : decision :=
  if interactive a then InteractiveMode
  else
    let use_env := negb (no_env a) in
    let env_config := if use_env then loaded else EnvFile.empty in
    let final_hosts :=
      if truthy (hostname a) then [text (hostname a)]
      else EnvFile.hosts env_config in
    let final_username :=
      if truthy (username a) then username a
      else EnvFile.username env_config in
    let final_password := EnvFile.password env_config in
    let prompted :=
      if negb (truthy final_password) && negb (secure a) then
        if truthy final_username && nonempty final_hosts
        then Some (Some getpass)
        else None
      else if secure a && negb (truthy final_password)
      then Some (Some getpass)
      else Some final_password in
    match prompted with
    | None => ReturnFalse
    | Some final_password =>
        match keep_valid (validate_hostname ip_address_parses) final_hosts
        with
        | None => ReturnFalse
        | Some final_hosts =>
            if truthy final_username
               && negb (validate_username (text final_username))
            then ReturnFalse
            else if negb (nonempty final_hosts && truthy final_username
                          && truthy final_password)
            then ReturnFalse
            else
              match choose_commands a use_env env_config csv input with
              | None => ReturnFalse
              | Some commands_to_run =>
                  match keep_valid validate_command commands_to_run with
                  | None => ReturnFalse
                  | Some [] => ReturnFalse
                  | Some commands_to_run =>
                      let use_shell_mode := shell a && negb (no_shell a) in
                      match final_hosts with
                      | [hostname] =>
                          match commands_to_run with
                          | [command] =>
                              Launch (RunSshCommand hostname
                                        (text final_username)
                                        (text final_password) command
                                        (port a) (timeout a) use_shell_mode)
                          | _ =>
                              Launch (RunMultipleSshCommands hostname
                                        (text final_username)
                                        (text final_password) commands_to_run
                                        (port a) (timeout a) use_shell_mode)
                          end
                      | _ =>
                          let default_threads := cpu_count in
                          let requested_threads :=
                            match max_threads a with
                            | Some n => if n =? 0 then default_threads else n
                            | None => default_threads
                            end in
                          Launch (RunSshCommandsMultiHost final_hosts
                                    (text final_username)
                                    (text final_password) commands_to_run
                                    (port a) (timeout a) use_shell_mode
                                    (validate_thread_count cpu_count
                                       requested_threads (len final_hosts)))
                      end
                  end
              end
        end
    end.

(** [int(s)]: [None] when it raises [ValueError]. *)
Variable int : str -> option Z.

(** A loop [while True] that asks until the answer, stripped, is not
    empty and is valid; [None] when the input ends before that. *)
Fixpoint ask (valid : str -> bool) (answers : list str)
  : option (str * list str) :=
  match answers with
  | [] => None
  | answer :: rest =>
      match strip answer with
      | [] => ask valid rest
      | value => if valid value then Some (value, rest) else ask valid rest
      end
  end.

(** The loops that ask for the port and for the timeout. *)
Fixpoint ask_number (default : Z) (valid : Z -> bool) (answers : list str)
  : option (Z * list str) :=
  match answers with
  | [] => None
  | answer :: rest =>
      match strip answer with
      | [] => Some (default, rest)
      | value =>
          match int value with
          | None => ask_number default valid rest
          | Some n =>
              if valid n then Some (n, rest)
              else ask_number default valid rest
          end
      end
  end.

Inductive interaction :=
| EndOfInput                     (* input() raises EOFError *)
| PasswordRequired               (* return False *)
| Run (l : launch).

(** [answers] are the lines that [input] reads, [getpass] the password
    typed. *)
Definition interactive_mode (answers : list str) (getpass : str)
  : interaction :=
  match ask (validate_hostname ip_address_parses) answers with
  | None => EndOfInput
  | Some (hostname, answers) =>
      match ask validate_username answers with
      | None => EndOfInput
      | Some (username, answers) =>
          match getpass with
          | [] => PasswordRequired
          | password =>
              match ask_number 22 validate_port answers with
              | None => EndOfInput
              | Some (port, answers) =>
                  match ask_number 30 validate_timeout answers with
                  | None => EndOfInput
                  | Some (timeout, answers) =>
                      match answers with
                      | [] => EndOfInput
                      | shell_mode :: answers =>
                          let shell_mode := lower (strip shell_mode) in
                          let use_shell :=
                            existsb (str_eqb shell_mode)
                              (map py ["y"; "yes"; "true"; "1"]) in
                          match ask validate_command answers with
                          | None => EndOfInput
                          | Some (command, _) =>
                              Run (RunSshCommand hostname username password
                                     command port timeout use_shell)
                          end
                      end
                  end
              end
          end
      end
  end.

End Application.

(** *** Sample arguments *)

Definition one_host_one_command : args :=
  {| interactive := false; no_env := true;
     hostname := Some (py "r1.lab"); username := Some (py "admin");
     password := Some (py "ignored"); command := Some (py "show version");
     port := 22; timeout := 30; secure := false; shell := true;
     no_shell := false; max_threads := None |}.

End App.

(** [args] with another positional password. *)
Definition with_password (a : App.args) (password : option str) : App.args :=
  {| App.interactive := App.interactive a; App.no_env := App.no_env a;
     App.hostname := App.hostname a; App.username := App.username a;
     App.password := password; App.command := App.command a;
     App.port := App.port a; App.timeout := App.timeout a;
     App.secure := App.secure a; App.shell := App.shell a;
     App.no_shell := App.no_shell a; App.max_threads := App.max_threads a |}.

(** Where [run_application] takes the commands from: the command line,
    else the .env file, else SSH_COMMANDS.CSV. *)
Definition command_candidates (a : App.args) (loaded : EnvFile.config)
    (csv : csv_file) : list str :=
  if App.truthy (App.command a) then [App.text (App.command a)]
  else if negb (App.no_env a) && App.nonempty (EnvFile.commands loaded)
  then EnvFile.commands loaded
  else load_commands_from_csv csv.

(** What a user types in interactive mode: an empty line first, then the
    host, the user name, nothing for the port and the timeout, the shell
    mode and the command. *)
Definition typed_answers : list str :=
  [[]; py " r1.lab"; py "admin"; []; []; py "Y"; py "show version "].

(** ** The shell mode as a whole: _execute_with_shell *)

Module Shell.

(** What is met 0.2 s after the shell is opened: [recv_ready()] is true
    and the receive returns or raises, or [recv_ready()] is false. *)
Inductive initial_prompt :=
| PromptRead
| PromptFails (e : exn)
| NoPrompt.

(** What the channel does in one run: [invoke_shell] and [send] raise or
    not; [harvested] is the value of [output] when the collection and the
    cleanup are over, or the exception that leaves them. *)
Record shell_run := {
  invoke_shell : option exn;
  initial : initial_prompt;
  send : option exn;
  harvested : str + exn
}.

(** The [error_msg] of the handler that closes [_execute_with_shell]. *)
Definition shell_error_message (e : exn) : str :=
  py "Shell execution error: " ++ type_name_of e ++ py ": " ++ text_of e.

(** The exception raised when [initial_sample] is read without having
    been assigned; [message] is the text that the interpreter gives it. *)
Definition unbound_local (message : str) : exn :=
  OtherException (py "UnboundLocalError") message.

Definition shell_failure (events : list event) (e : exn) : execution :=
  {| channel_events := events ++ [LogError (shell_error_message e)];
     outcome := inl (false, [], shell_error_message e) |}.

(** [ChannelIO command true] stands for [shell.send(command + '\n')].  In
    the loop that waits for the initial prompt, [initial_sample] is
    assigned only when [recv_ready()] is true, and the statement after the
    [if] reads it before the [break]. *)
Definition execute_with_shell (unbound_message : str) (r : shell_run)
    (command hostname : str) : execution :=
  match invoke_shell r with
  | Some e => shell_failure [] e
  | None =>
      match initial r with
      | NoPrompt => shell_failure [] (unbound_local unbound_message)
      | PromptFails e => shell_failure [] e
      | PromptRead =>
          match send r with
          | Some e =>
              {| channel_events := [ChannelIO command true];
                 outcome :=
                   inl (false, [], py "Failed to send command: " ++ text_of e)
              |}
          | None =>
              match harvested r with
              | inr e => shell_failure [ChannelIO command true] e
              | inl output =>
                  {| channel_events := [ChannelIO command true];
                     outcome := inl (shell_result command output) |}
              end
          end
      end
  end.

End Shell.

(** A user name as the pattern has it: characters of the class, then
    possibly one newline. *)
Definition username_shape (u : str) : Prop :=
  exists core nl,
    u = core ++ nl /\ core <> [] /\ forallb username_char core = true
    /\ (nl = [] \/ nl = [newline]).

(** A device met for the first time: there is no file of known hosts yet,
    and the handshake is refused for the password. *)
Definition first_contact : transport :=
  {| load_system_host_keys := None;
     load_host_keys :=
       Some (FileNotFoundError (py "FileNotFoundError")
               (py "[Errno 2] No such file or directory"));
     transport_connect :=
       Some (AuthenticationException (py "AuthenticationException")
               (py "denied")) |}.

(** A channel that always has a full chunk and takes 102.5 ms to hand it
    over: with the sleep of 10 ms, 800 chunks take 90 s. *)
Definition slow_channel : channel :=
  {| recv_ready := fun _ => true; recv_chars := fun _ => recv_size;
     recv_cost := fun _ => 102500 |}.

(** The state of a loop entered at [e0] that has received nothing. *)
Definition untouched (e0 : Z) (h : harvest) : Prop :=
  output h = [] /\ chunk_count h = 0 /\ last_data_time h = e0.

(** * Properties *)

Example sanitize_plain : sanitize_filename (py "core-sw1.lab") = py "core-sw1.lab".
Proof. vm_compute. reflexivity. Qed.

Example sanitize_reserved : sanitize_filename (py "con") = py "host_con".
Proof. vm_compute. reflexivity. Qed.

Example sanitize_path : sanitize_filename (py "../etc/passwd") = py "_etc_passwd".
Proof. vm_compute. reflexivity. Qed.

Example parse_three :
  parse_command_list (py "'show ver', 'show route' ,,uptime'")
  = [py "show ver"; py "show route"; py "uptime"].
Proof. vm_compute. reflexivity. Qed.

(** ** Facts about the string primitives *)

Lemma len_nonneg {A} (l : list A) : 0 <= len l.
Proof. unfold len. lia. Qed.

Lemma len_app {A} (a b : list A) : len (a ++ b) = len a + len b.
Proof. unfold len. rewrite length_app. lia. Qed.

Lemma rstrip_by_snoc_true p s c :
  p c = true -> rstrip_by p (s ++ [c]) = rstrip_by p s.
Proof.
  intros Hp. unfold rstrip_by. rewrite rev_app_distr. simpl. now rewrite Hp.
Qed.

Lemma rstrip_by_snoc_false p s c :
  p c = false -> rstrip_by p (s ++ [c]) = s ++ [c].
Proof.
  intros Hp. unfold rstrip_by. rewrite rev_app_distr. simpl. rewrite Hp.
  simpl. now rewrite rev_involutive.
Qed.

Lemma split_nonempty sep s : split sep s <> [].
Proof.
  destruct s as [|c t]; simpl; [discriminate|].
  destruct (Ascii.eqb c sep); [discriminate|].
  destruct (split sep t); discriminate.
Qed.

Lemma split_no_sep sep s :
  forallb (fun c => negb (Ascii.eqb c sep)) s = true -> split sep s = [s].
Proof.
  induction s as [|c t IH]; simpl; [reflexivity|].
  intros H. apply andb_prop in H as [Hc Ht].
  apply negb_true_iff in Hc. rewrite Hc, (IH Ht). reflexivity.
Qed.

Lemma split_app_sep sep l rest :
  forallb (fun c => negb (Ascii.eqb c sep)) l = true ->
  split sep (l ++ sep :: rest) = l :: split sep rest.
Proof.
  induction l as [|c t IH]; simpl.
  - intros _. now rewrite Ascii.eqb_refl.
  - intros H. apply andb_prop in H as [Hc Ht].
    apply negb_true_iff in Hc. rewrite Hc, (IH Ht). reflexivity.
Qed.

Lemma split_join sep parts :
  parts <> [] ->
  Forall (fun p => forallb (fun c => negb (Ascii.eqb c sep)) p = true) parts ->
  split sep (join sep parts) = parts.
Proof.
  induction parts as [|p rest IH]; [congruence|].
  intros _ Hall. inversion Hall as [|? ? Hp Hrest]; subst.
  destruct rest as [|q rest'].
  - simpl. now apply split_no_sep.
  - change (join sep (p :: q :: rest')) with (p ++ sep :: join sep (q :: rest')).
    rewrite split_app_sep by assumption.
    rewrite IH; [reflexivity|discriminate|assumption].
Qed.

(** ** C7: the size of the worker pool *)

(** C7.  For a positive requested thread count and a positive host count,
    [validate_thread_count] returns
    [min(requested, 2*host_count, 50, host_count)]; 1000 threads requested
    for 5 hosts give a pool of 5. *)
Theorem validate_thread_count_formula (cpu_count requested host_count : Z) :
  0 < requested -> 0 < host_count ->
  validate_thread_count cpu_count requested host_count
  = Z.min requested (Z.min (2 * host_count) (Z.min 50 host_count))
  /\ validate_thread_count cpu_count 1000 5 = Z.min 1000 (Z.min 10 (Z.min 50 5))
  /\ validate_thread_count cpu_count 1000 5 = 5.
Proof.
  intros Hr Hh. unfold validate_thread_count.
  destruct (Z.leb_spec requested 0); [lia|].
  split; [lia|]. split; reflexivity.
Qed.

Lemma validate_thread_count_formula_witness :
  validate_thread_count 8 12 4 = Z.min 12 (Z.min (2 * 4) (Z.min 50 4)).
Proof.
  apply (validate_thread_count_formula 8 12 4); lia.
Defined.

(** ** C10: a host name with a trailing dot *)

Lemma label_char_not_dot c : label_char c = true -> Ascii.eqb c "." = false.
Proof.
  destruct (Ascii.eqb_spec c ".") as [->|]; [|reflexivity].
  vm_compute. discriminate.
Qed.

Lemma label_ok_no_dot l :
  label_ok l = true -> forallb (fun c => negb (Ascii.eqb c ".")) l = true.
Proof.
  unfold label_ok. destruct l as [|c t]; [discriminate|].
  intros H. repeat (apply andb_prop in H as [H ?]).
  apply forallb_forall. intros x Hx.
  apply negb_true_iff, label_char_not_dot.
  eapply forallb_forall; eauto.
Qed.

Lemma label_ok_last l :
  label_ok l = true -> exists s d, l = s ++ [d] /\ is_alnum d = true.
Proof.
  unfold label_ok. destruct l as [|c t]; [discriminate|].
  intros H. repeat (apply andb_prop in H as [H ?]).
  exists (removelast (c :: t)), (last (c :: t) c). split; [|assumption].
  apply app_removelast_last. discriminate.
Qed.

Lemma join_labels_last labels :
  labels <> [] -> Forall (fun l => label_ok l = true) labels ->
  exists s d, join "." labels = s ++ [d] /\ is_alnum d = true.
Proof.
  induction labels as [|l rest IH]; [congruence|].
  intros _ Hall. inversion Hall as [|? ? Hl Hrest]; subst.
  destruct rest as [|q rest'].
  - simpl. now apply label_ok_last.
  - destruct IH as (s & d & Hj & Hd); [discriminate|assumption|].
    exists (l ++ "."%char :: s), d. split; [|assumption].
    change (join "." (l :: q :: rest'))
      with (l ++ "."%char :: join "." (q :: rest')).
    rewrite Hj, <- app_assoc. reflexivity.
Qed.

Lemma labels_ok_join labels :
  labels <> [] -> Forall (fun l => label_ok l = true) labels ->
  labels_ok (join "." labels) = true.
Proof.
  intros Hne Hall. unfold labels_ok. rewrite split_join; [|assumption|].
  - apply forallb_forall. intros l Hl.
    rewrite List.Forall_forall in Hall. now apply Hall.
  - eapply Forall_impl; [|exact Hall]. apply label_ok_no_dot.
Qed.

Lemma validate_hostname_nonempty ip_address_parses (h : str) :
  h <> [] ->
  validate_hostname ip_address_parses h
  = if len h >? 253 then false
    else if ip_address_parses h then true
    else hostname_pattern_match (rstrip_by (Ascii.eqb ".") h).
Proof.
  destruct h; [congruence|]. intros _. unfold validate_hostname.
  destruct (len (a :: h) >? 253); reflexivity.
Qed.

(** C10 (as amended).  A valid label sequence followed by one dot is
    accepted whenever the whole string, dot included, has at most 253
    characters: the length is checked before the dot is stripped. *)
Theorem validate_hostname_trailing_dot ip_address_parses (s : str) :
  dns_label_sequence s ->
  len (s ++ py ".") <= 253 ->
  validate_hostname ip_address_parses (s ++ py ".") = true.
Proof.
  intros (labels & Hne & Hall & ->) Hlen.
  destruct (join_labels_last labels Hne Hall) as (s' & d & Hj & Hd).
  rewrite validate_hostname_nonempty by (destruct (join "." labels); discriminate).
  destruct (Z.gtb_spec (len (join "." labels ++ py ".")) 253); [lia|].
  destruct (ip_address_parses _); [reflexivity|].
  change (py ".") with ["."%char].
  rewrite rstrip_by_snoc_true by reflexivity.
  rewrite Hj, rstrip_by_snoc_false.
  - rewrite <- Hj. unfold hostname_pattern_match.
    now rewrite labels_ok_join.
  - destruct (Ascii.eqb_spec "." d) as [<-|]; [|reflexivity].
    vm_compute in Hd. discriminate.
Qed.

Lemma validate_hostname_trailing_dot_witness :
  validate_hostname (fun _ => false) (py "example.com.") = true.
Proof.
  apply (validate_hostname_trailing_dot (fun _ => false) (py "example.com")).
  - exists [py "example"; py "com"]. split; [discriminate|].
    split; [|reflexivity]. repeat constructor.
  - vm_compute. discriminate.
Defined.

(** C10, counterexample.  [long_name] is a valid label sequence, yet with
    its trailing dot it has 254 characters and is refused, whatever the IP
    parser says. *)
Lemma validate_hostname_trailing_dot_too_long :
  dns_label_sequence long_name
  /\ len long_name = 253
  /\ forall ip_address_parses,
       validate_hostname ip_address_parses (long_name ++ py ".") = false.
Proof.
  split; [|split].
  - exists [repeat "a"%char 63; repeat "a"%char 63; repeat "a"%char 63;
            repeat "a"%char 61].
    split; [discriminate|]. split; [|reflexivity].
    repeat constructor.
  - vm_compute. reflexivity.
  - intros ip. vm_compute. reflexivity.
Qed.

(** ** C5: sanitize_filename *)

Lemma lstrip_by_suffix p s : exists a, s = a ++ lstrip_by p s.
Proof.
  induction s as [|c t [a Ha]]; simpl.
  - now exists [].
  - destruct (p c).
    + exists (c :: a). simpl. now rewrite <- Ha.
    + now exists [].
Qed.

Lemma rstrip_by_prefix p s : exists r, s = rstrip_by p s ++ r.
Proof.
  unfold rstrip_by. destruct (lstrip_by_suffix p (rev s)) as [a Ha].
  exists (rev a). rewrite <- rev_app_distr, <- Ha. now rewrite rev_involutive.
Qed.

Lemma head_ok_lstrip p s : head_ok p (lstrip_by p s) = true.
Proof.
  induction s as [|c t IH]; simpl; [reflexivity|].
  destruct (p c) eqn:E; [assumption|]. simpl. now rewrite E.
Qed.

Lemma last_ok_rstrip p s : last_ok p (rstrip_by p s) = true.
Proof.
  unfold last_ok, rstrip_by. rewrite rev_involutive. apply head_ok_lstrip.
Qed.

Lemma lstrip_by_fixed p s : head_ok p s = true -> lstrip_by p s = s.
Proof.
  destruct s as [|c t]; simpl; [reflexivity|].
  intros H. apply negb_true_iff in H. now rewrite H.
Qed.

Lemma rstrip_by_fixed p s : last_ok p s = true -> rstrip_by p s = s.
Proof.
  unfold last_ok, rstrip_by. intros H.
  rewrite lstrip_by_fixed by assumption. apply rev_involutive.
Qed.

Lemma strip_by_fixed p s :
  head_ok p s = true -> last_ok p s = true -> strip_by p s = s.
Proof.
  intros Hh Hl. unfold strip_by.
  rewrite lstrip_by_fixed by assumption. now apply rstrip_by_fixed.
Qed.

Lemma head_ok_prefix p u r : head_ok p (u ++ r) = true -> head_ok p u = true.
Proof. destruct u; simpl; auto. Qed.

Lemma head_ok_strip p s : head_ok p (strip_by p s) = true.
Proof.
  unfold strip_by.
  destruct (rstrip_by_prefix p (lstrip_by p s)) as [r Hr].
  apply head_ok_prefix with r. rewrite <- Hr. apply head_ok_lstrip.
Qed.

Lemma last_ok_strip p s : last_ok p (strip_by p s) = true.
Proof. apply last_ok_rstrip. Qed.

Lemma len_lstrip p s : len (lstrip_by p s) <= len s.
Proof.
  destruct (lstrip_by_suffix p s) as [a Ha].
  rewrite Ha at 2. rewrite len_app. pose proof (len_nonneg a). lia.
Qed.

Lemma len_rstrip p s : len (rstrip_by p s) <= len s.
Proof.
  destruct (rstrip_by_prefix p s) as [r Hr].
  rewrite Hr at 2. rewrite len_app. pose proof (len_nonneg r). lia.
Qed.

Lemma len_strip p s : len (strip_by p s) <= len s.
Proof.
  unfold strip_by.
  pose proof (len_rstrip p (lstrip_by p s)). pose proof (len_lstrip p s). lia.
Qed.

Lemma forallb_lstrip q p s :
  forallb q s = true -> forallb q (lstrip_by p s) = true.
Proof.
  destruct (lstrip_by_suffix p s) as [a Ha]. intros H.
  rewrite Ha, forallb_app in H. now apply andb_prop in H as [_ H].
Qed.

Lemma forallb_rstrip q p s :
  forallb q s = true -> forallb q (rstrip_by p s) = true.
Proof.
  destruct (rstrip_by_prefix p s) as [r Hr]. intros H.
  rewrite Hr, forallb_app in H. now apply andb_prop in H as [H _].
Qed.

Lemma forallb_strip q p s :
  forallb q s = true -> forallb q (strip_by p s) = true.
Proof. intros H. now apply forallb_rstrip, forallb_lstrip. Qed.

Lemma forallb_slice q n s :
  forallb q s = true -> forallb q (slice_to n s) = true.
Proof.
  unfold slice_to. intros H.
  rewrite <- (firstn_skipn (Z.to_nat n) s), forallb_app in H.
  now apply andb_prop in H as [H _].
Qed.

Lemma head_ok_slice p n s :
  head_ok p s = true -> head_ok p (slice_to n s) = true.
Proof.
  unfold slice_to. intros H.
  rewrite <- (firstn_skipn (Z.to_nat n) s) in H.
  now apply head_ok_prefix in H.
Qed.

Lemma len_slice n s : 0 <= n -> len (slice_to n s) <= n.
Proof.
  unfold slice_to, len. intros Hn.
  pose proof (firstn_le_length (Z.to_nat n) s). lia.
Qed.

Lemma slice_nonempty n s : 0 < n -> s <> [] -> slice_to n s <> [].
Proof.
  unfold slice_to. intros Hn Hs.
  destruct s as [|c t]; [congruence|].
  destruct (Z.to_nat n) eqn:E; [lia|]. discriminate.
Qed.

Lemma replace_unsafe_safe c : filename_char (replace_unsafe c) = true.
Proof.
  unfold replace_unsafe. destruct (filename_char c) eqn:E; [assumption|].
  reflexivity.
Qed.

Lemma replace_unsafe_fixed s :
  forallb filename_char s = true -> map replace_unsafe s = s.
Proof.
  induction s as [|c t IH]; simpl; [reflexivity|].
  intros H. apply andb_prop in H as [Hc Ht].
  unfold replace_unsafe at 1. rewrite Hc. f_equal. now apply IH.
Qed.

Lemma len_upper s : len (upper s) = len s.
Proof. unfold len, upper. now rewrite length_map. Qed.

Lemma reserved_names_short u :
  existsb (str_eqb u) reserved_names = true -> len u <= 4.
Proof.
  intros H. apply existsb_exists in H as (r & Hin & Heq).
  unfold str_eqb in Heq. apply bool_decide_eq_true in Heq. subst u.
  revert r Hin. apply List.Forall_forall. vm_compute.
  repeat constructor; discriminate.
Qed.

Lemma sanitize_filename_steps c t :
  sanitize_filename (c :: t) = finish_name (before_reserved (c :: t)).
Proof. reflexivity. Qed.

(** A name on which every step of [sanitize_filename] is the identity. *)
Lemma sanitize_filename_fixed (s : str) :
  s <> [] ->
  forallb filename_char s = true ->
  head_ok dot_or_dash s = true ->
  last_ok dot_or_dash s = true ->
  len s <= 100 ->
  existsb (str_eqb (upper s)) reserved_names = false ->
  sanitize_filename s = s.
Proof.
  intros Hne Hall Hh Hl Hlen Hres.
  destruct s as [|c t]; [congruence|].
  rewrite sanitize_filename_steps. unfold finish_name, before_reserved.
  rewrite replace_unsafe_fixed by assumption.
  rewrite strip_by_fixed by assumption.
  cbv beta iota zeta.
  destruct (Z.gtb_spec (len (c :: t)) 100); [lia|].
  now rewrite Hres.
Qed.

Lemma before_reserved_cleaned x : cleaned (before_reserved x).
Proof.
  unfold before_reserved.
  set (s1 := strip_by dot_or_dash (map replace_unsafe x)).
  assert (Hc1 : forallb filename_char s1 = true).
  { apply forallb_strip, forallb_forall. intros c Hc.
    apply in_map_iff in Hc as (c0 & <- & _). apply replace_unsafe_safe. }
  assert (Hh1 : head_ok dot_or_dash s1 = true) by apply head_ok_strip.
  set (s3 := match s1 with [] => py "sanitized_host" | _ => s1 end).
  assert (H3 : s3 <> [] /\ forallb filename_char s3 = true
                /\ head_ok dot_or_dash s3 = true).
  { subst s3. destruct s1; [repeat split; discriminate|].
    repeat split; [discriminate|assumption|assumption]. }
  destruct H3 as (Hne & Hc & Hh).
  destruct (Z.gtb_spec (len s3) 100).
  - split.
    + apply slice_nonempty; [lia|assumption].
    + now apply forallb_slice.
    + now apply head_ok_slice.
    + apply len_slice. lia.
  - split; auto.
Qed.

Lemma last_ok_app_r p a b : b <> [] -> last_ok p (a ++ b) = last_ok p b.
Proof.
  unfold last_ok. intros Hb. rewrite rev_app_distr.
  destruct (rev b) eqn:E; [|reflexivity].
  apply (f_equal (@rev _)) in E. rewrite rev_involutive in E. now subst.
Qed.

Lemma finish_name_fixed s :
  cleaned s -> last_ok dot_or_dash (finish_name s) = true ->
  sanitize_filename (finish_name s) = finish_name s.
Proof.
  intros [Hne Hc Hh Hlen] Hl. unfold finish_name in *.
  destruct (existsb (str_eqb (upper s)) reserved_names) eqn:Er.
  - apply reserved_names_short in Er. rewrite len_upper in Er.
    apply sanitize_filename_fixed.
    + discriminate.
    + rewrite forallb_app. rewrite Hc. reflexivity.
    + reflexivity.
    + assumption.
    + rewrite len_app. change (len (py "host_")) with 5. lia.
    + destruct (existsb _ reserved_names) eqn:E; [|reflexivity].
      apply reserved_names_short in E.
      rewrite len_upper, len_app in E. change (len (py "host_")) with 5 in E.
      pose proof (len_nonneg s). lia.
  - now apply sanitize_filename_fixed.
Qed.

Lemma last_ok_before_reserved x :
  len x <= 100 -> last_ok dot_or_dash (before_reserved x) = true.
Proof.
  intros Hx. unfold before_reserved.
  set (s1 := strip_by dot_or_dash (map replace_unsafe x)).
  assert (Hl1 : last_ok dot_or_dash s1 = true) by apply last_ok_strip.
  assert (Hlen1 : len s1 <= 100).
  { pose proof (len_strip dot_or_dash (map replace_unsafe x)) as H.
    unfold len in H at 2. rewrite length_map in H. fold s1 in H.
    unfold len in Hx. lia. }
  destruct s1 as [|c t] eqn:E.
  - reflexivity.
  - destruct (Z.gtb_spec (len (c :: t)) 100); [lia|assumption].
Qed.

Lemma last_ok_finish_name s :
  s <> [] -> last_ok dot_or_dash s = true ->
  last_ok dot_or_dash (finish_name s) = true.
Proof.
  intros Hne H. unfold finish_name.
  destruct (existsb _ reserved_names); [|assumption].
  now rewrite last_ok_app_r.
Qed.

(** C5 (as amended).  [sanitize_filename] never returns the empty string,
    and sanitizing twice is the same as sanitizing once whenever the
    sanitized name does not end in a dot or a dash, which is the case for
    every input of at most 100 characters.  (The cap at 100 characters is
    applied after the trimming, so a longer name can be cut just after a
    dot or a dash.) *)
Theorem sanitize_filename_idempotent_unless_cut (x : str) :
  sanitize_filename x <> []
  /\ (ends_with_dot_or_dash (sanitize_filename x) = false ->
      sanitize_filename (sanitize_filename x) = sanitize_filename x)
  /\ (len x <= 100 ->
      sanitize_filename (sanitize_filename x) = sanitize_filename x).
Proof.
  destruct x as [|c t].
  - split; [discriminate|]. split; intros _; reflexivity.
  - rewrite sanitize_filename_steps.
    pose proof (before_reserved_cleaned (c :: t)) as Hcl.
    assert (Hfix : last_ok dot_or_dash (finish_name (before_reserved (c :: t)))
                   = true ->
                   sanitize_filename (finish_name (before_reserved (c :: t)))
                   = finish_name (before_reserved (c :: t)))
      by now apply finish_name_fixed.
    split; [|split].
    + unfold finish_name. destruct (existsb _ reserved_names);
        [discriminate|apply Hcl].
    + unfold ends_with_dot_or_dash. intros H.
      apply negb_false_iff in H. now apply Hfix.
    + intros Hlen. apply Hfix, last_ok_finish_name; [apply Hcl|].
      now apply last_ok_before_reserved.
Qed.

Lemma sanitize_filename_idempotent_unless_cut_witness :
  sanitize_filename (sanitize_filename (py "lab/core-sw1."))
  = sanitize_filename (py "lab/core-sw1.").
Proof.
  apply (sanitize_filename_idempotent_unless_cut (py "lab/core-sw1.")).
  vm_compute. discriminate.
Defined.

(** C5, counterexample.  The cap cuts [cut_name] after its dash; the second
    pass trims the dash that the first pass left. *)
Lemma sanitize_filename_not_idempotent :
  sanitize_filename cut_name = repeat "a"%char 99 ++ py "-"
  /\ sanitize_filename (sanitize_filename cut_name) = repeat "a"%char 99
  /\ sanitize_filename (sanitize_filename cut_name) <> sanitize_filename cut_name.
Proof.
  split; [|split].
  - vm_compute. reflexivity.
  - vm_compute. reflexivity.
  - vm_compute. intros H.
    apply (f_equal (@length ascii)) in H. vm_compute in H. discriminate.
Qed.

(** ** C6: parse_command_list *)

Lemma collect_commands_valid pieces :
  Forall (fun c => validate_command c = true) (collect_commands pieces).
Proof.
  induction pieces as [|cmd rest IH]; simpl; [constructor|].
  destruct (clean_command cmd) as [|c t] eqn:Ec; [assumption|].
  destruct (validate_command (c :: t)) eqn:Ev; [|assumption].
  now constructor.
Qed.

Lemma valid_command_entries_valid commands_str :
  Forall (fun c => validate_command c = true)
         (valid_command_entries commands_str).
Proof. apply collect_commands_valid. Qed.

Lemma parse_command_list_nonempty c t :
  parse_command_list (c :: t)
  = if len (valid_command_entries (c :: t)) >? max_commands
    then firstn (Z.to_nat max_commands) (valid_command_entries (c :: t))
    else valid_command_entries (c :: t).
Proof. reflexivity. Qed.

Lemma valid_command_entries_empty : valid_command_entries [] = [].
Proof. reflexivity. Qed.

(** The cap keeps a prefix of the valid entries. *)
Lemma parse_command_list_prefix commands_str :
  parse_command_list commands_str
  = firstn (Z.to_nat max_commands) (valid_command_entries commands_str).
Proof.
  destruct commands_str as [|c t]; [reflexivity|].
  rewrite parse_command_list_nonempty.
  destruct (Z.gtb_spec (len (valid_command_entries (c :: t))) max_commands)
    as [Hgt|Hle]; [reflexivity|].
  symmetry. apply firstn_all2. unfold len, max_commands in *. lia.
Qed.

(** C6.  When the input parses to 60 valid entries, [parse_command_list]
    returns exactly the first 50 of them, in order; whatever the input,
    it returns at most 50 commands and each of them passes
    [validate_command]. *)
Theorem parse_command_list_cap (commands_str : str) :
  (length (valid_command_entries commands_str) = 60%nat ->
     parse_command_list commands_str
     = firstn 50 (valid_command_entries commands_str)
     /\ length (parse_command_list commands_str) = 50%nat)
  /\ (length (parse_command_list commands_str) <= 50)%nat
  /\ Forall (fun c => validate_command c = true)
            (parse_command_list commands_str).
Proof.
  rewrite parse_command_list_prefix.
  change (Z.to_nat max_commands) with 50%nat.
  split; [|split].
  - intros H60. split; [reflexivity|].
    rewrite length_firstn, H60. reflexivity.
  - rewrite length_firstn. lia.
  - pose proof (valid_command_entries_valid commands_str) as Hall.
    rewrite <- (firstn_skipn 50 (valid_command_entries commands_str)) in Hall.
    now apply List.Forall_app in Hall as [Hall _].
Qed.

Lemma parse_command_list_cap_witness :
  parse_command_list sixty_commands = repeat (py "show version") 50.
Proof.
  destruct (parse_command_list_cap sixty_commands) as [H _].
  destruct H as [H _]; [vm_compute; reflexivity|].
  rewrite H. vm_compute. reflexivity.
Defined.

(** *** Inputs that parse to the commands they list *)

Lemma validate_command_nonempty c : validate_command c = true -> c <> [].
Proof. destruct c; [discriminate|discriminate]. Qed.

Lemma clean_command_plain c : plain_command c -> clean_command c = c.
Proof.
  intros (_ & _ & Hs1 & Hs2 & Hq1 & Hq2). unfold clean_command, strip.
  rewrite (strip_by_fixed is_space c) by assumption.
  rewrite (strip_by_fixed quote_char c) by assumption.
  now apply strip_by_fixed.
Qed.

Lemma collect_commands_plain cs :
  Forall plain_command cs -> collect_commands cs = cs.
Proof.
  induction 1 as [|c cs Hc _ IH]; simpl; [reflexivity|].
  rewrite (clean_command_plain c Hc), IH.
  destruct Hc as (Hv & _). rewrite Hv.
  destruct c; [discriminate|reflexivity].
Qed.

Lemma head_ok_join p sep c cs :
  c <> [] -> head_ok p c = true -> head_ok p (join sep (c :: cs)) = true.
Proof.
  intros Hne Hh. destruct c as [|x c]; [congruence|].
  destruct cs; assumption.
Qed.

Lemma last_ok_join p sep cs :
  cs <> [] -> Forall (fun c => c <> [] /\ last_ok p c = true) cs ->
  last_ok p (join sep cs) = true.
Proof.
  induction cs as [|c cs IH]; [congruence|].
  intros _ Hall. inversion Hall as [|? ? [Hne Hl] Hrest]; subst.
  destruct cs as [|d cs]; [assumption|].
  change (join sep (c :: d :: cs)) with (c ++ sep :: join sep (d :: cs)).
  change (sep :: join sep (d :: cs)) with ([sep] ++ join sep (d :: cs)).
  assert (Hj : join sep (d :: cs) <> []).
  { inversion Hrest as [|? ? [Hd _] _]; subst.
    destruct d; [congruence|]. destruct cs; discriminate. }
  rewrite app_assoc, last_ok_app_r by assumption.
  apply IH; [discriminate|assumption].
Qed.

(** A list of plain commands, joined by commas into at most 50000
    characters, parses to itself. *)
Lemma valid_command_entries_join cs :
  cs <> [] -> Forall plain_command cs -> len (join "," cs) <= 50000 ->
  valid_command_entries (join "," cs) = cs.
Proof.
  intros Hne Hall Hlen. unfold valid_command_entries.
  destruct (Z.gtb_spec (len (join "," cs)) 50000); [lia|].
  rewrite strip_by_fixed.
  - rewrite split_join; [now apply collect_commands_plain|assumption|].
    eapply Forall_impl; [|exact Hall]. intros c Hc. apply Hc.
  - destruct cs as [|c cs]; [congruence|].
    inversion Hall as [|? ? Hc _]; subst.
    apply head_ok_join; [|apply Hc].
    apply validate_command_nonempty, Hc.
  - apply last_ok_join; [assumption|].
    eapply Forall_impl; [|exact Hall]. intros c Hc.
    split; [apply validate_command_nonempty|]; apply Hc.
Qed.

(** Sixty plain commands in at most 50000 characters: the first fifty
    come back. *)
Lemma parse_command_list_join cs :
  length cs = 60%nat -> Forall plain_command cs ->
  len (join "," cs) <= 50000 ->
  parse_command_list (join "," cs) = firstn 50 cs.
Proof.
  intros H60 Hall Hlen.
  assert (Hne : cs <> []) by (destruct cs; [discriminate|discriminate]).
  rewrite parse_command_list_prefix, valid_command_entries_join by assumption.
  reflexivity.
Qed.

(** ** C3: success determination of the shell mode *)

Lemma starts_with_prefix p s :
  starts_with p s = true <-> exists b, s = p ++ b.
Proof.
  revert s. induction p as [|a p IH]; intros s; simpl.
  - split; [intros _; now exists s|reflexivity].
  - destruct s as [|c s].
    + split; [discriminate|]. intros [b Hb]. discriminate.
    + rewrite andb_true_iff, IH. split.
      * intros [Hac [b ->]]. apply Ascii.eqb_eq in Hac as ->. now exists b.
      * intros [b Hb]. injection Hb as -> ->.
        split; [apply Ascii.eqb_refl|now exists b].
Qed.

Lemma contains_occurs p s : contains p s = true <-> occurs p s.
Proof.
  unfold occurs. induction s as [|c t IH].
  - simpl. rewrite orb_false_r, starts_with_prefix. split.
    + intros [b Hb]. now exists [], b.
    + intros (a & b & H). symmetry in H.
      apply app_eq_nil in H as [-> H]. apply app_eq_nil in H as [-> ->].
      now exists [].
  - change (contains p (c :: t))
      with (starts_with p (c :: t) || contains p t).
    rewrite orb_true_iff, starts_with_prefix, IH. split.
    + intros [[b Hb]|(a & b & Hb)].
      * now exists [], b.
      * exists (c :: a), b. simpl. now rewrite Hb.
    + intros (a & b & H). destruct a as [|c' a].
      * left. now exists b.
      * right. injection H as _ ->. now exists a, b.
Qed.

Lemma existsb_contains_occurs patterns s :
  existsb (fun p => contains p s) patterns = true
  <-> exists p, In p patterns /\ occurs p s.
Proof.
  rewrite existsb_exists. split; intros (p & Hin & H); exists p;
    (split; [assumption|now apply contains_occurs]).
Qed.

(** C3 (as amended).  The command is judged successful exactly when the
    cleaned output is non-empty and either a cleanup indicator occurs
    somewhere in the lower-cased output (the error check is then skipped
    as a whole) or no error pattern occurs in it. *)
Theorem success_determination_rule (cleaned_output : str) :
  success_determination cleaned_output = true
  <-> cleaned_output <> []
      /\ ((exists c, In c shell_cleanup_indicators
                     /\ occurs c (lower cleaned_output))
          \/ forall p, In p error_patterns
                       -> ~ occurs p (lower cleaned_output)).
Proof.
  unfold success_determination.
  assert (Hlen : (len cleaned_output >? 0) = true <-> cleaned_output <> []).
  { destruct cleaned_output; [now split|].
    split; [discriminate|]. intros _. unfold len. simpl length.
    apply Z.gtb_lt. lia. }
  cbv zeta.
  pose proof (existsb_contains_occurs shell_cleanup_indicators
                (lower cleaned_output)) as Hc.
  pose proof (existsb_contains_occurs error_patterns
                (lower cleaned_output)) as He.
  destruct (existsb _ shell_cleanup_indicators);
    destruct (existsb _ error_patterns); cbn [negb];
    rewrite ?Hlen; split.
  - intros Hne. split; [assumption|]. left. now apply Hc.
  - tauto.
  - intros Hne. split; [assumption|]. left. now apply Hc.
  - tauto.
  - discriminate.
  - intros [_ [H|H]].
    + apply Hc in H. discriminate.
    + destruct He as [He _]. destruct (He eq_refl) as (p & Hin & Hp).
      now destruct (H p Hin).
  - intros Hne. split; [assumption|]. right. intros p Hin Hp.
    destruct He as [_ He]. discriminate He. eauto.
  - tauto.
Qed.

Example version_output_cleaned :
  shell_result (py "show version") version_output
  = (true, py "Junos: 21.4R1.12", []).
Proof. vm_compute. reflexivity. Qed.

(** C3, counterexample.  The error text [permission denied] is not part of
    any cleanup artifact, so the rule as specified fails the command; the
    code judges it successful, because a cleanup indicator occurs
    elsewhere in the output. *)
Lemma success_determination_ignores_real_error :
  cleaned_output_of denied_command denied_output = denied_with_artifact
  /\ occurs (py "permission denied") (lower denied_with_artifact)
  /\ In (py "permission denied") error_patterns
  /\ inside_artifact (lower denied_with_artifact) (py "permission denied") 0
     = false
  /\ success_as_specified denied_with_artifact = false
  /\ success_determination denied_with_artifact = true
  /\ shell_result denied_command denied_output
     = (true, denied_with_artifact, []).
Proof.
  split; [|split; [|split; [|split; [|split; [|split]]]]].
  - vm_compute. reflexivity.
  - exists [], (py ": unknown command: xit"). reflexivity.
  - vm_compute. tauto.
  - vm_compute. reflexivity.
  - vm_compute. reflexivity.
  - vm_compute. reflexivity.
  - vm_compute. reflexivity.
Qed.

(** ** C8: connect *)

Lemma connect_error_message_head s hostname username port e :
  hd_error (connect_error_message s hostname username port e)
  = Some (class_initial (classify e)).
Proof. destruct e; reflexivity. Qed.

Lemma connect_error_message_distinct s hostname username port e1 e2 :
  classify e1 <> classify e2 ->
  connect_error_message s hostname username port e1
  <> connect_error_message s hostname username port e2.
Proof.
  intros Hne Heq. apply (f_equal (@hd_error ascii)) in Heq.
  rewrite !connect_error_message_head in Heq.
  apply Hne. destruct (classify e1), (classify e2);
    solve [reflexivity | discriminate Heq].
Qed.

Lemma validation_message_distinct v1 v2 hostname username port :
  validation_message v1 hostname username port
  = validation_message v2 hostname username port -> v1 = v2.
Proof.
  intros H. apply (f_equal (fun m => nth_error m 8)) in H.
  destruct v1, v2; solve [reflexivity | discriminate H].
Qed.

Lemma connect_validation_sound ip hostname username password port v :
  connect_validation ip hostname username password port = Some v ->
  match v with
  | InvalidHostname => validate_hostname ip hostname = false
  | InvalidUsername =>
      validate_hostname ip hostname = true
      /\ validate_username username = false
  | InvalidPort =>
      validate_hostname ip hostname = true
      /\ validate_username username = true
      /\ validate_port port = false
  | EmptyPassword =>
      validate_hostname ip hostname = true
      /\ validate_username username = true
      /\ validate_port port = true /\ password = []
  end.
Proof.
  unfold connect_validation.
  destruct (validate_hostname ip hostname); simpl.
  2: { intros [= <-]. reflexivity. }
  destruct (validate_username username); simpl.
  2: { intros [= <-]. auto. }
  destruct (validate_port port); simpl.
  2: { intros [= <-]. auto. }
  destruct password; [|discriminate].
  intros [= <-]. auto.
Qed.

Lemma connect_validation_complete ip hostname username password port :
  validate_hostname ip hostname = false \/ validate_username username = false
  \/ validate_port port = false \/ password = [] ->
  exists v, connect_validation ip hostname username password port = Some v.
Proof.
  unfold connect_validation. intros H.
  destruct (validate_hostname ip hostname); simpl; [|eauto].
  destruct (validate_username username); simpl; [|eauto].
  destruct (validate_port port); simpl; [|eauto].
  destruct password; [eauto|].
  destruct H as [H|[H|[H|H]]]; discriminate.
Qed.

Lemma connect_attempt_handshakes t s hostname username password port :
  (length (List.filter is_handshake
             (fst (connect_attempt t s hostname username password port)))
   <= 1)%nat.
Proof.
  unfold connect_attempt.
  destruct (load_system_host_keys t); [simpl; lia|].
  destruct (load_host_keys t) as [[]|]; simpl; lia.
Qed.

(** C8.  With an invalid host name, user name or port, or an empty
    password, [connect] returns the boolean [False] after logging the
    message of the first failing check, and does nothing else: the
    session is unchanged, no client object is created and no handshake
    is started.  When the handshake raises, whether the file of known
    hosts was loaded or is missing, [connect] returns [False] and logs
    the message of the clause that catches the exception; messages of
    different clauses differ, as do the four validation messages.  No
    run of [connect] starts more than one handshake, and [True] is
    returned only when the checks pass and nothing raises. *)
Theorem connect_validates_then_classifies ip (t : transport) (s : session)
    (hostname username password : str) (port : Z) :
  (validate_hostname ip hostname = false \/ validate_username username = false
   \/ validate_port port = false \/ password = [] ->
   exists v,
     connect_validation ip hostname username password port = Some v
     /\ connect ip t s hostname username password port
        = (false, s, [LogError (validation_message v hostname username port)])
     /\ forallb (fun ev => negb (is_network_io ev))
          (snd (connect ip t s hostname username password port)) = true)
  /\ (forall e,
        connect_validation ip hostname username password port = None ->
        load_system_host_keys t = None ->
        load_host_keys t = None
        \/ (exists n m, load_host_keys t = Some (FileNotFoundError n m)) ->
        transport_connect t = Some e ->
        let s' := {| timeout := timeout s; client := Some SSHClient |} in
        connect ip t s hostname username password port
        = (false, s',
           [NewClient; LoadSystemHostKeys; LoadHostKeys;
            SetMissingHostKeyPolicy;
            TransportConnect hostname port username password (timeout s);
            LogError (connect_error_message s' hostname username port e)]))
  /\ (forall e1 e2,
        classify e1 <> classify e2 ->
        connect_error_message s hostname username port e1
        <> connect_error_message s hostname username port e2)
  /\ (forall v1 v2,
        v1 <> v2 ->
        validation_message v1 hostname username port
        <> validation_message v2 hostname username port)
  /\ (length (List.filter is_handshake
                (snd (connect ip t s hostname username password port)))
      <= 1)%nat
  /\ (fst (fst (connect ip t s hostname username password port)) = true <->
      connect_validation ip hostname username password port = None
      /\ snd (connect_attempt t
                {| timeout := timeout s; client := Some SSHClient |}
                hostname username password port) = None).
Proof.
  split; [|split; [|split; [|split; [|split]]]].
  - intros Hbad.
    destruct (connect_validation_complete ip _ _ _ _ Hbad) as [v Hv].
    exists v. unfold connect. rewrite Hv. auto.
  - intros e Hv Hsys Hkeys Hconn. unfold connect, connect_attempt.
    rewrite Hv, Hsys.
    destruct Hkeys as [Hkeys|(n & m & Hkeys)]; rewrite Hkeys; simpl;
      rewrite Hconn; reflexivity.
  - intros e1 e2. apply connect_error_message_distinct.
  - intros v1 v2 Hne Heq. apply Hne.
    now apply validation_message_distinct in Heq.
  - unfold connect.
    destruct (connect_validation ip hostname username password port);
      [simpl; lia|].
    pose proof (connect_attempt_handshakes t
      {| timeout := timeout s; client := Some SSHClient |}
      hostname username password port) as H.
    destruct (connect_attempt t _ hostname username password port)
      as [events [e|]]; simpl in *; [|assumption].
    rewrite List.filter_app, length_app. simpl. lia.
  - unfold connect.
    destruct (connect_validation ip hostname username password port) as [v|].
    + split; [discriminate|]. intros [H _]. discriminate.
    + destruct (connect_attempt t _ hostname username password port)
        as [events [e|]]; cbn [fst snd].
      * split; [discriminate|]. intros [_ H]. discriminate.
      * split; [auto|reflexivity].
Qed.

Lemma connect_validates_then_classifies_witness :
  connect (fun _ => false) refusing_transport idle_session
          (py "core sw1") (py "admin") (py "secret") 22
  = (false, idle_session, [LogError (py "Invalid hostname format: core sw1")])
  /\ connect (fun _ => false) first_contact idle_session
            (py "r1.lab") (py "admin") (py "secret") 22
     = (false, {| timeout := 30; client := Some SSHClient |},
        [NewClient; LoadSystemHostKeys; LoadHostKeys;
         SetMissingHostKeyPolicy;
         TransportConnect (py "r1.lab") 22 (py "admin") (py "secret") 30;
         LogError (py "Authentication failed for admin@r1.lab: denied")]).
Proof.
  split.
  - destruct (connect_validates_then_classifies (fun _ => false)
                refusing_transport idle_session
                (py "core sw1") (py "admin") (py "secret") 22) as [H _].
    destruct H as (v & Hv & Hc & _); [left; vm_compute; reflexivity|].
    rewrite Hc. vm_compute in Hv. injection Hv as <-. reflexivity.
  - destruct (connect_validates_then_classifies (fun _ => false)
                first_contact idle_session
                (py "r1.lab") (py "admin") (py "secret") 22)
      as (_ & H & _).
    apply (H (AuthenticationException (py "AuthenticationException")
                (py "denied"))).
    + vm_compute. reflexivity.
    + reflexivity.
    + right. eexists. eexists. reflexivity.
    + reflexivity.
Defined.

(** The value that [connect] returns is the same for a host name that is
    refused, for an empty password and for a handshake that times out:
    the boolean [False], which says nothing of the kind of the failure. *)
Lemma connect_returns_plain_false :
  fst (fst (connect (fun _ => false) refusing_transport idle_session
              (py "core sw1") (py "admin") (py "secret") 22)) = false
  /\ fst (fst (connect (fun _ => false) refusing_transport idle_session
                 (py "r1.lab") (py "admin") [] 22)) = false
  /\ fst (fst (connect (fun _ => false) refusing_transport idle_session
                 (py "r1.lab") (py "admin") (py "secret") 22)) = false
  /\ connect_validation (fun _ => false) (py "core sw1") (py "admin")
       (py "secret") 22 = Some InvalidHostname
  /\ connect_validation (fun _ => false) (py "r1.lab") (py "admin") [] 22
     = Some EmptyPassword
  /\ connect_validation (fun _ => false) (py "r1.lab") (py "admin")
       (py "secret") 22 = None.
Proof. vm_compute. repeat split. Qed.

(** ** C9: execute_command without a connection *)

(** C9.  When [client] is [None], [execute_command] returns
    [(False, "", "No active SSH connection")]; it logs that message and
    touches no channel, whatever the execution paths would do. *)
Theorem execute_command_without_connection
    (run : str -> bool -> str -> execution) (s : session)
    (command : str) (use_shell : bool) (hostname : str) :
  client s = None ->
  execute_command run s command use_shell hostname
  = ((false, [], py "No active SSH connection"),
     [LogError (py "No active SSH connection")])
  /\ forallb (fun ev => negb (is_network_io ev))
       (snd (execute_command run s command use_shell hostname)) = true.
Proof.
  intros Hc. unfold execute_command. rewrite Hc. split; reflexivity.
Qed.

Lemma execute_command_without_connection_witness :
  execute_command failing_run idle_session (py "show version") true (py "r1")
  = ((false, [], py "No active SSH connection"),
     [LogError (py "No active SSH connection")]).
Proof.
  apply (execute_command_without_connection failing_run idle_session
           (py "show version") true (py "r1")).
  reflexivity.
Defined.

(** ** C1: the counts of the report *)

Lemma record_result_count acc r :
  len (tally_successful (record_result acc r))
  + len (tally_failed (record_result acc r))
  = len (tally_successful acc) + len (tally_failed acc) + 1.
Proof.
  destruct r as [[hostname success] summary]. simpl.
  destruct success; rewrite len_app; unfold len; simpl; lia.
Qed.

Section Counts.

Variable run_ssh_command : nat -> str -> str -> task_outcome.
Variable run_multiple_ssh_commands : nat -> str -> list str -> task_outcome.

Let process :=
  process_completed run_ssh_command run_multiple_ssh_commands.

Lemma process_completed_count hosts commands order acc :
  Forall (fun task => (task < length hosts)%nat) order ->
  len (tally_successful (process hosts commands order acc))
  + len (tally_failed (process hosts commands order acc))
  = len (tally_successful acc) + len (tally_failed acc) + len order.
Proof.
  unfold process, process_completed. revert acc.
  induction order as [|task rest IH]; intros acc Hall.
  - unfold len. simpl. lia.
  - inversion Hall as [|? ? Hlt Hrest]; subst. simpl fold_left.
    destruct (lookup_lt_is_Some_2 hosts task Hlt) as [host Hhost].
    rewrite Hhost, IH by assumption.
    rewrite record_result_count. unfold len. simpl length. lia.
Qed.

(** C1.  Whatever the hosts, whatever each task does (success, failure or
    an exception) and in whatever order the tasks complete, the report
    has [total = successful + failed],
    [len(successful_hosts) + len(failed_hosts) = total], and [total] is the
    number of hosts submitted. *)
Theorem run_report_counts (hosts commands : list str)
    (completion_order : list nat) :
  Permutation completion_order (seq 0 (length hosts)) ->
  let report :=
    run_ssh_commands_multi_host run_ssh_command run_multiple_ssh_commands
      hosts commands completion_order in
  total report = successful report + failed report
  /\ len (successful_hosts report) + len (failed_hosts report) = total report
  /\ total report = len hosts.
Proof.
  intros Hperm report.
  assert (Hall : Forall (fun task => (task < length hosts)%nat)
                        completion_order).
  { apply List.Forall_forall. intros task Hin.
    apply (Permutation_in _ Hperm), in_seq in Hin. lia. }
  assert (Hlen : len completion_order = len hosts).
  { unfold len. rewrite (Permutation_length Hperm), length_seq. reflexivity. }
  pose proof (process_completed_count hosts commands completion_order
      {| tally_results := ∅; tally_successful := []; tally_failed := [] |}
      Hall) as Hcount.
  rewrite Hlen in Hcount. unfold len in Hcount at 3 4. simpl in Hcount.
  subst report. unfold run_ssh_commands_multi_host. simpl.
  unfold process in Hcount. repeat split; lia.
Qed.

End Counts.

Lemma run_report_counts_witness :
  let report :=
    run_ssh_commands_multi_host mixed_outcomes
      (fun _ _ _ => Returns true) three_hosts [py "show version"]
      [2; 0; 1]%nat in
  total report = successful report + failed report
  /\ len (successful_hosts report) + len (failed_hosts report) = total report
  /\ total report = len three_hosts.
Proof.
  apply (run_report_counts mixed_outcomes (fun _ _ _ => Returns true)
           three_hosts [py "show version"] [2; 0; 1]%nat).
  change (seq 0 (length three_hosts)) with [0; 1; 2]%nat.
  apply Permutation_sym, perm_trans with [0; 2; 1]%nat.
  - apply perm_skip, perm_swap.
  - apply perm_swap.
Defined.

Example three_hosts_report :
  let report :=
    run_ssh_commands_multi_host mixed_outcomes
      (fun _ _ _ => Returns true) three_hosts [py "show version"]
      [2; 0; 1]%nat in
  (total report, successful report, failed report) = (3, 1, 2)
  /\ successful_hosts report = [py "r1"]
  /\ failed_hosts report = [py "r3"; py "r2"]
  /\ results report !! py "r3" = Some (false, py "Error: boom").
Proof. vm_compute. repeat split; reflexivity. Qed.

(** ** Output harvester *)

Example silent_channel_exit :
  run 100 silent_channel (start 9100000)
  = Some (Silence,
          {| elapsed := 12100000; last_data_time := 9100000; output := [];
             chunk_count := 0; polls := 60 |}).
Proof. vm_compute. reflexivity. Qed.

Example truncated_marker_text :
  truncated_marker
  = [newline; newline]
    ++ py "[OUTPUT TRUNCATED - Size limit of 100MB reached]" ++ [newline].
Proof. vm_compute. reflexivity. Qed.

Example trickling_channel_exit :
  run 5 trickling_channel (start 89990000)
  = Some (HangDetected,
          {| elapsed := 90000001; last_data_time := 89990001;
             output :=
               [Received 10;
                Text ([newline; newline]
                      ++ py "[COMMAND TIMEOUT - Forced completion after 90s]"
                      ++ [newline])];
             chunk_count := 1; polls := 1 |}).
Proof. vm_compute. reflexivity. Qed.

(** *** Facts about the loop *)

Ltac loop_constants :=
  unfold no_data_timeout, max_total_wait, hard_timeout, max_output_size,
    max_drain_time, recv_size, data_sleep, idle_sleep in *.

Lemma output_len_snoc o p : output_len (o ++ [p]) = output_len o + piece_len p.
Proof. induction o as [|q o IH]; simpl; [lia|]. rewrite IH. lia. Qed.

Lemma received_len_snoc_received o n :
  received_len (o ++ [Received n]) = received_len o + n.
Proof.
  induction o as [|q o IH]; simpl; [lia|]. rewrite IH. destruct q; lia.
Qed.

Lemma received_len_snoc_text o t : received_len (o ++ [Text t]) = received_len o.
Proof.
  induction o as [|q o IH]; simpl; [lia|]. rewrite IH. reflexivity.
Qed.

Lemma run_more_fuel ch n c r :
  run n ch c = Some r -> forall m, (n <= m)%nat -> run m ch c = Some r.
Proof.
  revert c. induction n as [|n IH]; intros c Hrun m Hle; [discriminate|].
  destruct m as [|m]; [lia|]. simpl in *.
  destruct (step ch c) as [c'|r']; [|assumption].
  apply IH; [assumption|lia].
Qed.

Lemma reaches_trans ch a b c :
  reaches ch a b -> reaches ch b c -> reaches ch a c.
Proof.
  induction 1 as [|x y z Hstep _ IH]; [auto|].
  intros Hc. eapply reaches_next; eauto.
Qed.

Ltac div_lia := loop_constants; Z.div_mod_to_equations; lia.

Lemma turns_left_positive c : 1 <= turns_left c.
Proof.
  destruct c as [h|d k h]; unfold turns_left.
  - destruct (Z.leb_spec (elapsed h) hard_timeout); div_lia.
  - destruct (Z.ltb_spec (elapsed h - d) max_drain_time); div_lia.
Qed.

Lemma turns_left_start e0 :
  0 <= e0 -> turns_left (start e0) <= Z.of_nat enough_fuel.
Proof.
  intros He0. unfold enough_fuel, turns_left, start. simpl elapsed.
  rewrite Z2Nat.id by (vm_compute; discriminate).
  destruct (Z.leb_spec e0 hard_timeout); div_lia.
Qed.

Section Harvest.

Variable ch : channel.

(** A receive takes time: at least a microsecond. *)
Hypothesis receive_takes_time : forall k, 1 <= recv_cost ch k.

Lemma step_decreases c c' :
  step ch c = inl c' -> turns_left c' < turns_left c.
Proof.
  destruct c as [h|d k h]; unfold step.
  - destruct (Z.ltb_spec (elapsed h) max_total_wait); [|discriminate].
    destruct (Z.gtb_spec (elapsed h) hard_timeout); [discriminate|].
    pose proof (receive_takes_time (polls h)) as Hcost.
    destruct (recv_ready ch (polls h)).
    + destruct (output_len _ >? max_output_size); intros [= <-];
        unfold turns_left; simpl elapsed.
      * rewrite Z.sub_diag.
        destruct (Z.leb_spec (elapsed h) hard_timeout); [|lia].
        simpl. div_lia.
      * destruct (Z.leb_spec (elapsed h) hard_timeout); [|lia].
        destruct (Z.leb_spec (elapsed h + recv_cost ch (polls h) + data_sleep)
                    hard_timeout); div_lia.
    + destruct (elapsed h - last_data_time h >=? no_data_timeout);
        [discriminate|].
      intros [= <-]. unfold turns_left, after_sleep. simpl elapsed.
      destruct (Z.leb_spec (elapsed h) hard_timeout); [|lia].
      destruct (Z.leb_spec (elapsed h + idle_sleep) hard_timeout); div_lia.
  - destruct (Z.ltb_spec (elapsed h - d) max_drain_time); [|discriminate].
    pose proof (receive_takes_time (polls h)) as Hcost.
    destruct (recv_ready ch (polls h)).
    + intros [= <-]. unfold turns_left. simpl elapsed.
      destruct (Z.ltb_spec (elapsed h + recv_cost ch (polls h) - d)
                  max_drain_time);
        destruct (Z.ltb_spec (elapsed h - d) max_drain_time); lia.
    + destruct (elapsed h - last_data_time h >=? no_data_timeout);
        [discriminate|].
      intros [= <-]. unfold turns_left, after_sleep. simpl elapsed.
      destruct (Z.ltb_spec (elapsed h + idle_sleep - d) max_drain_time);
        destruct (Z.ltb_spec (elapsed h - d) max_drain_time);
        loop_constants; lia.
Qed.

(** The loop ends: fuel for [turns_left] turns is enough. *)
Lemma run_terminates n c :
  turns_left c <= Z.of_nat n -> exists r, run n ch c = Some r.
Proof.
  revert c. induction n as [|n IH]; intros c Hle.
  - pose proof (turns_left_positive c). lia.
  - simpl. destruct (step ch c) as [c'|r] eqn:Hstep; [|eauto].
    apply IH. apply step_decreases in Hstep. lia.
Qed.

End Harvest.

(** *** C2: the collection loop ends, and on time *)

Section Ceiling.

Variable ch : channel.
Variable R : Z.

(** A receive takes at least a microsecond and at most [R]; a receive and
    the short sleep after it fit in the 30 s between the hang threshold and
    [max_total_wait]. *)
Hypothesis receive_cost : forall k, 1 <= recv_cost ch k <= R.
Hypothesis receive_short : R + data_sleep < max_total_wait - hard_timeout.

Lemma step_on_time c c' :
  on_time R c -> step ch c = inl c' -> on_time R c'.
Proof.
  destruct c as [h|d k h]; unfold step, on_time.
  - intros Hlt.
    destruct (Z.ltb_spec (elapsed h) max_total_wait); [|discriminate].
    destruct (Z.gtb_spec (elapsed h) hard_timeout); [discriminate|].
    pose proof (receive_cost (polls h)) as Hcost.
    destruct (recv_ready ch (polls h)).
    + destruct (output_len _ >? max_output_size); intros [= <-];
        simpl elapsed; simpl output.
      * repeat split; [loop_constants; lia..|]. now eexists.
      * loop_constants; lia.
    + destruct (elapsed h - last_data_time h >=? no_data_timeout);
        [discriminate|].
      intros [= <-]. unfold after_sleep. simpl elapsed. loop_constants; lia.
  - intros (Hd & He & Hm).
    destruct (Z.ltb_spec (elapsed h - d) max_drain_time); [|discriminate].
    pose proof (receive_cost (polls h)) as Hcost.
    destruct (recv_ready ch (polls h)).
    + intros [= <-]. simpl elapsed. simpl output.
      repeat split; [assumption|loop_constants; lia|assumption].
    + destruct (elapsed h - last_data_time h >=? no_data_timeout);
        [discriminate|].
      intros [= <-]. unfold after_sleep. simpl elapsed. simpl output.
      repeat split; [assumption|loop_constants; lia|assumption].
Qed.

Lemma reaches_on_time c c' : on_time R c -> reaches ch c c' -> on_time R c'.
Proof.
  intros Hc Hreach. induction Hreach as [|x y z Hstep _ IH]; [assumption|].
  apply IH. eapply step_on_time; eauto.
Qed.

Lemma run_reaches n c r h :
  run n ch c = Some (r, h) ->
  exists c', reaches ch c c' /\ step ch c' = inr (r, h).
Proof.
  revert c. induction n as [|n IH]; intros c; [discriminate|].
  simpl. destruct (step ch c) as [c1|[r1 h1]] eqn:Hstep.
  - intros Hrun. destruct (IH c1 Hrun) as (c' & Hreach & Hexit).
    exists c'. split; [|assumption]. eapply reaches_next; eauto.
  - intros [= <- <-]. exists c. split; [apply reaches_here|assumption].
Qed.

Lemma step_ended e0 c r h :
  on_time R c -> reaches ch (start e0) c -> step ch c = inr (r, h) ->
  ended ch R e0 r h
  /\ elapsed h < max_total_wait + 2 * R + idle_sleep.
Proof.
  pose proof (receive_cost 0%nat) as HR.
  destruct c as [h0|d k h0]; unfold step, on_time.
  - intros Hlt _.
    destruct (Z.ltb_spec (elapsed h0) max_total_wait); [|lia].
    destruct (Z.gtb_spec (elapsed h0) hard_timeout).
    + intros [= <- <-]. cbn [ended elapsed output].
      split; [|loop_constants; lia].
      split; [lia|]. now eexists.
    + destruct (recv_ready ch (polls h0)) eqn:Hready.
      * destruct (output_len _ >? max_output_size); discriminate.
      * destruct (Z.geb_spec (elapsed h0 - last_data_time h0)
                    no_data_timeout); [|discriminate].
        intros [= <- <-]. cbn [ended].
        split; [|loop_constants; lia]. auto.
  - intros (Hd & He & Hm) Hreach.
    destruct (Z.ltb_spec (elapsed h0 - d) max_drain_time).
    + destruct (recv_ready ch (polls h0)) eqn:Hready; [discriminate|].
      destruct (Z.geb_spec (elapsed h0 - last_data_time h0) no_data_timeout);
        [|discriminate].
      intros [= <- <-]. cbn [ended].
      split; [|loop_constants; lia].
      exists d, k. auto 10.
    + intros [= <- <-]. cbn [ended].
      split; [|loop_constants; lia].
      exists d, k. repeat split; (assumption || lia).
Qed.

Lemma late_entry e0 :
  max_total_wait <= e0 ->
  step ch (start e0) = inr (TotalWaitReached, harvest_of (start e0)).
Proof.
  intros Hlate. unfold step, start. cbn [elapsed harvest_of].
  destruct (Z.ltb_spec e0 max_total_wait); [lia|reflexivity].
Qed.

(** C2.  Whatever the channel answers, the collection loop ends:
    [enough_fuel] turns, or more, give its result.  Entered before
    [max_total_wait], it ends on silence (a poll without data, 3 s or more
    after the last data, and not after the 90 s of the hang threshold),
    or at the head of the loop once more than 90 s have passed, before
    [max_total_wait], the time-out marker then closing the output, or
    from the drain loop, which was entered after the truncation marker
    not later than a receive after the hang threshold and ends on
    silence or once 30 s of draining are over; in every case the clock
    shows less than [max_total_wait] plus two receives and a sleep.
    Entered at [max_total_wait] or later, the loop ends at once and
    appends nothing.  A poll without data 3 s after the last data always
    ends the loop. *)
Theorem collection_loop_terminates (e0 : Z) :
  0 <= e0 ->
  (exists r h,
      (forall fuel, (enough_fuel <= fuel)%nat ->
                    run fuel ch (start e0) = Some (r, h))
      /\ ended ch R e0 r h
      /\ (e0 < max_total_wait ->
          r <> TotalWaitReached
          /\ elapsed h < max_total_wait + 2 * R + idle_sleep))
  /\ (forall h,
        reaches ch (start e0) (Collecting h) ->
        recv_ready ch (polls h) = false ->
        no_data_timeout <= elapsed h - last_data_time h ->
        exists r h',
          step ch (Collecting h) = inr (r, h')
          /\ (r = Silence \/ r = HangDetected)).
Proof.
  intros He0.
  destruct (Z.lt_ge_cases e0 max_total_wait) as [Hearly|Hlate].
  - assert (Hstart : on_time R (start e0)) by (simpl; lia).
    split.
    + destruct (run_terminates ch (fun k => proj1 (receive_cost k))
                  enough_fuel (start e0)) as [[r h] Hrun].
      { apply turns_left_start. lia. }
      exists r, h. split; [|].
      * intros fuel Hfuel. eapply run_more_fuel; eauto.
      * destruct (run_reaches _ _ _ _ Hrun) as (c' & Hreach & Hexit).
        pose proof (reaches_on_time _ _ Hstart Hreach) as Hc'.
        destruct (step_ended e0 c' r h Hc' Hreach Hexit) as [Hend Hbound].
        split; [exact Hend|]. intros _. split; [|exact Hbound].
        intros ->. destruct Hend as [Hle _]. lia.
    + intros h Hreach Hready Hsilent.
      pose proof (reaches_on_time _ _ Hstart Hreach) as Hlt. simpl in Hlt.
      unfold step.
      destruct (Z.ltb_spec (elapsed h) max_total_wait); [|lia].
      destruct (elapsed h >? hard_timeout); [eauto|].
      rewrite Hready.
      destruct (Z.geb_spec (elapsed h - last_data_time h) no_data_timeout);
        [eauto|lia].
  - pose proof (late_entry e0 Hlate) as Hstep.
    split.
    + exists TotalWaitReached, (harvest_of (start e0)).
      split; [|split; [split; [assumption|reflexivity]|lia]].
      intros fuel Hfuel. apply (run_more_fuel ch 1);
        [cbn [run]; rewrite Hstep; reflexivity|].
      assert (1 <= enough_fuel)%nat; [|lia].
      unfold enough_fuel. loop_constants. apply Nat2Z.inj_le.
      rewrite Z2Nat.id by (vm_compute; discriminate). vm_compute. discriminate.
    + intros h Hreach Hready Hsilent. exfalso.
      inversion Hreach as [c Hc|c c' c'' Hnext _ Hc1 Hc2].
      * subst. cbn [elapsed last_data_time] in Hsilent.
        loop_constants. lia.
      * rewrite Hstep in Hnext. discriminate.
Qed.

End Ceiling.

Lemma collection_loop_terminates_witness :
  exists r h,
    (forall fuel, (enough_fuel <= fuel)%nat ->
                  run fuel flooding_channel (start 0) = Some (r, h))
    /\ ended flooding_channel 50000 0 r h
    /\ (0 < max_total_wait ->
        r <> TotalWaitReached
        /\ elapsed h < max_total_wait + 2 * 50000 + idle_sleep).
Proof.
  apply (collection_loop_terminates flooding_channel 50000).
  - intros k. simpl. lia.
  - vm_compute. reflexivity.
  - lia.
Defined.

(** With chunks that take 102.5 ms each, the head of the loop is reached
    at exactly 90 s after 800 chunks; the chunk received then crosses the
    size limit, and the drain loop, entered at 90.1025 s, ends when its
    30 s are over, at 120.135 s: after [max_total_wait].  And a loop
    entered after [max_total_wait] ends without any marker. *)
Lemma collection_loop_ends_after_ceiling :
  (exists h,
      run 1200 slow_channel (start 0) = Some (DrainTimeout, h)
      /\ elapsed h = 120135000
      /\ max_total_wait < elapsed h)
  /\ (exists h,
         run 1 silent_channel (start 125000000) = Some (TotalWaitReached, h)
         /\ output h = []
         /\ max_total_wait < elapsed h).
Proof.
  split.
  - destruct (run 1200 slow_channel (start 0))
      as [[r h]|] eqn:Hrun; [|vm_compute in Hrun; discriminate].
    assert (Hvals : (r, elapsed h) = (DrainTimeout, 120135000)).
    { apply (f_equal (fun x => match x with
                               | Some (r, h) => (r, elapsed h)
                               | None => (Silence, 0)
                               end)) in Hrun.
      rewrite <- Hrun. vm_compute. reflexivity. }
    injection Hvals as -> Hel.
    exists h. rewrite Hel. repeat split; reflexivity.
  - eexists. split; [vm_compute; reflexivity|]. split; reflexivity.
Qed.

(** *** C4: what the buffer retains *)

Section Buffer.

Variable ch : channel.

(** [shell.recv(131072)] returns at most 131072 characters. *)
Hypothesis chunk_size : forall k, 0 <= recv_chars ch k <= recv_size.

Lemma step_buffer_ok c c' :
  buffer_ok c -> step ch c = inl c' -> buffer_ok c'.
Proof.
  destruct c as [h|d k h]; unfold step, buffer_ok.
  - intros [Heq Hle].
    destruct (elapsed h <? max_total_wait); [|discriminate].
    destruct (elapsed h >? hard_timeout); [discriminate|].
    pose proof (chunk_size (polls h)) as Hchunk.
    destruct (recv_ready ch (polls h)).
    + destruct (Z.gtb_spec
        (output_len (output h ++ [Received (recv_chars ch (polls h))]))
        max_output_size) as [Hover|Hfits]; intros [= <-]; simpl output.
      * rewrite received_len_snoc_text, received_len_snoc_received.
        split; [lia|]. now eexists.
      * rewrite output_len_snoc in *. rewrite received_len_snoc_received.
        simpl piece_len in *. lia.
    + destruct (elapsed h - last_data_time h >=? no_data_timeout);
        [discriminate|].
      intros [= <-]. simpl. auto.
  - intros [Hle Hm].
    destruct (elapsed h - d <? max_drain_time); [|discriminate].
    destruct (recv_ready ch (polls h)).
    + intros [= <-]. simpl. auto.
    + destruct (elapsed h - last_data_time h >=? no_data_timeout);
        [discriminate|].
      intros [= <-]. simpl. auto.
Qed.

Lemma reaches_buffer_ok c c' : buffer_ok c -> reaches ch c c' -> buffer_ok c'.
Proof.
  intros Hc Hreach. induction Hreach as [|x y z Hstep _ IH]; [assumption|].
  apply IH. eapply step_buffer_ok; eauto.
Qed.

Lemma buffer_ok_bound c :
  buffer_ok c ->
  received_len (output (harvest_of c)) <= max_output_size + recv_size.
Proof.
  destruct c; simpl; intros [H1 H2]; loop_constants; lia.
Qed.

Lemma step_exit_output c r h :
  step ch c = inr (r, h) ->
  received_len (output h) = received_len (output (harvest_of c)).
Proof.
  destruct c as [h0|d k h0]; unfold step; simpl harvest_of.
  - destruct (elapsed h0 <? max_total_wait); [|now intros [= <- <-]].
    destruct (elapsed h0 >? hard_timeout).
    + intros [= <- <-]. simpl. apply received_len_snoc_text.
    + destruct (recv_ready ch (polls h0)).
      * destruct (output_len _ >? max_output_size); discriminate.
      * destruct (elapsed h0 - last_data_time h0 >=? no_data_timeout);
          [now intros [= <- <-]|discriminate].
  - destruct (elapsed h0 - d <? max_drain_time); [|now intros [= <- <-]].
    destruct (recv_ready ch (polls h0)); [discriminate|].
    destruct (elapsed h0 - last_data_time h0 >=? no_data_timeout);
      [now intros [= <- <-]|discriminate].
Qed.

(** In the drain loop nothing is added to the buffer. *)
Lemma draining_discards d k h c' :
  reaches ch (Draining d k h) c' ->
  exists k' h', c' = Draining d k' h' /\ output h' = output h.
Proof.
  intros Hreach. remember (Draining d k h) as c eqn:Ec.
  revert d k h Ec.
  induction Hreach as [|x y z Hstep _ IH]; intros d k h ->; [eauto|].
  unfold step in Hstep.
  destruct (elapsed h - d <? max_drain_time); [|discriminate].
  destruct (recv_ready ch (polls h)).
  - injection Hstep as <-. edestruct IH as (k' & h' & -> & Ho); eauto.
  - destruct (elapsed h - last_data_time h >=? no_data_timeout);
      [discriminate|].
    injection Hstep as <-. edestruct IH as (k' & h' & -> & Ho); eauto.
Qed.

Lemma draining_exit d k h r h' :
  step ch (Draining d k h) = inr (r, h') ->
  h' = h
  /\ ((r = DrainSilence /\ recv_ready ch (polls h) = false
       /\ no_data_timeout <= elapsed h - last_data_time h)
      \/ (r = DrainTimeout /\ max_drain_time <= elapsed h - d)).
Proof.
  unfold step.
  destruct (Z.ltb_spec (elapsed h - d) max_drain_time).
  - destruct (recv_ready ch (polls h)); [discriminate|].
    destruct (Z.geb_spec (elapsed h - last_data_time h) no_data_timeout);
      [|discriminate].
    intros [= <- <-]. auto.
  - intros [= <- <-]. auto.
Qed.

(** C4 (as amended).  From the start of the loop on, at every turn and at
    the exit, the channel data retained in the buffer is at most
    [max_output_size] plus one receive of 131072 characters: the chunk that
    crosses the limit is appended whole before the size is tested, and only
    the truncation marker follows it.  At the head of the collection loop
    the data is within [max_output_size].  Once the drain loop is entered
    the buffer no longer changes: what is received is discarded, until a
    poll finds no data 3 s or more after the last data, or until 30 s of
    draining have passed. *)
Theorem buffer_bounded_then_drained (e0 : Z) :
  (forall c, reaches ch (start e0) c ->
             received_len (output (harvest_of c))
             <= max_output_size + recv_size)
  /\ (forall h, reaches ch (start e0) (Collecting h) ->
                output_len (output h) <= max_output_size)
  /\ (forall c r h, reaches ch (start e0) c -> step ch c = inr (r, h) ->
                    received_len (output h) <= max_output_size + recv_size)
  /\ (forall d k h c',
        reaches ch (start e0) (Draining d k h) ->
        reaches ch (Draining d k h) c' ->
        exists k' h', c' = Draining d k' h' /\ output h' = output h)
  /\ (forall d k h r h',
        reaches ch (start e0) (Draining d k h) ->
        step ch (Draining d k h) = inr (r, h') ->
        output h' = output h
        /\ ((r = DrainSilence /\ recv_ready ch (polls h) = false
             /\ no_data_timeout <= elapsed h - last_data_time h)
            \/ (r = DrainTimeout /\ max_drain_time <= elapsed h - d))).
Proof.
  assert (Hstart : buffer_ok (start e0))
    by (simpl; loop_constants; lia).
  split; [|split; [|split; [|split]]].
  - intros c Hreach. apply buffer_ok_bound. eapply reaches_buffer_ok; eauto.
  - intros h Hreach.
    pose proof (reaches_buffer_ok _ _ Hstart Hreach) as [Heq Hle].
    lia.
  - intros c r h Hreach Hstep. rewrite (step_exit_output _ _ _ Hstep).
    apply buffer_ok_bound. eapply reaches_buffer_ok; eauto.
  - intros d k h c' _ Hdrain. now apply draining_discards with k.
  - intros d k h r h' _ Hstep.
    destruct (draining_exit _ _ _ _ _ Hstep) as [-> Hwhy]. auto.
Qed.

End Buffer.

Lemma buffer_bounded_then_drained_witness :
  received_len
    (output (harvest_of
       (Collecting {| elapsed := 60000; last_data_time := 50000;
                      output := [Received recv_size];
                      chunk_count := 1; polls := 1 |})))
  <= max_output_size + recv_size.
Proof.
  apply (buffer_bounded_then_drained flooding_channel) with (e0 := 0).
  - intros k. simpl. unfold recv_size. lia.
  - eapply reaches_next; [reflexivity|apply reaches_here].
Defined.

(** C4, counterexample.  On the channel that always has a full chunk, the
    801st chunk takes the buffer from 104857600 characters, the limit, to
    104988672; the marker is appended, 30 s of draining follow and the
    loop ends with more than [max_output_size] in the buffer. *)
Lemma buffer_exceeds_max_output_size :
  exists h,
    run 1500 flooding_channel (start 0) = Some (DrainTimeout, h)
    /\ received_len (output h) = 104988672
    /\ output_len (output h) = 104988723
    /\ max_output_size < received_len (output h)
    /\ max_output_size < output_len (output h).
Proof.
  destruct (run 1500 flooding_channel (start 0))
    as [[r h]|] eqn:Hrun; [|vm_compute in Hrun; discriminate].
  assert (Hvals : (r, received_len (output h), output_len (output h))
                  = (DrainTimeout, 104988672, 104988723)).
  { apply (f_equal (fun x => match x with
                             | Some (r, h) =>
                                 (r, received_len (output h),
                                  output_len (output h))
                             | None => (Silence, 0, 0)
                             end)) in Hrun.
    rewrite <- Hrun. vm_compute. reflexivity. }
  injection Hvals as -> Hrecv Hout.
  exists h. rewrite Hrecv, Hout. repeat split; reflexivity.
Qed.

(** * Further properties *)

(** ** The validator *)

Lemma lstrip_by_split p s :
  exists a, s = a ++ lstrip_by p s /\ forallb p a = true.
Proof.
  induction s as [|c t (a & Ha & Hp)]; simpl.
  - now exists [].
  - destruct (p c) eqn:E.
    + exists (c :: a). simpl. rewrite E, Hp. split; [now rewrite <- Ha|reflexivity].
    + now exists [].
Qed.

Lemma rstrip_by_split p s :
  exists r, s = rstrip_by p s ++ r /\ forallb p r = true.
Proof.
  unfold rstrip_by. destruct (lstrip_by_split p (rev s)) as (a & Ha & Hp).
  exists (rev a). split.
  - rewrite <- rev_app_distr, <- Ha. now rewrite rev_involutive.
  - apply forallb_forall. intros x Hx. apply in_rev in Hx.
    eapply forallb_forall in Hp; eauto.
Qed.

Lemma forallb_split_pieces q sep s :
  forallb (forallb q) (split sep s) = true -> q sep = true ->
  forallb q s = true.
Proof.
  intros H Hsep. induction s as [|c t IH]; [reflexivity|].
  simpl in H. destruct (Ascii.eqb_spec c sep) as [->|Hne].
  - simpl in *. rewrite Hsep. now apply IH.
  - pose proof (split_nonempty sep t) as Hsp.
    destruct (split sep t) as [|h r] eqn:E; [congruence|].
    simpl in H. apply andb_prop in H as [H1 H2].
    apply andb_prop in H1 as [Hc Hh].
    simpl. rewrite Hc. apply IH. simpl. now rewrite Hh, H2.
Qed.

Lemma split_pieces_no_sep sep s :
  forallb (forallb (fun c => negb (Ascii.eqb c sep))) (split sep s) = true.
Proof.
  induction s as [|c t IH]; [reflexivity|].
  simpl. destruct (Ascii.eqb_spec c sep) as [->|Hne]; [exact IH|].
  pose proof (split_nonempty sep t) as Hsp.
  destruct (split sep t) as [|h r]; [congruence|].
  simpl in *. apply andb_prop in IH as [Hh Hr].
  rewrite Hh, Hr. destruct (Ascii.eqb_spec c sep); [congruence|reflexivity].
Qed.

Lemma label_ok_chars l : label_ok l = true -> forallb hostname_char l = true.
Proof.
  unfold label_ok. destruct l as [|c t]; [discriminate|].
  intros H. repeat (apply andb_prop in H as [H ?]).
  apply forallb_forall. intros x Hx.
  assert (Hl : label_char x = true) by (eapply forallb_forall; eauto).
  unfold hostname_char, label_char in *. now rewrite Hl.
Qed.

Lemma labels_ok_chars s :
  labels_ok s = true -> s <> [] /\ forallb hostname_char s = true.
Proof.
  unfold labels_ok. intros H. split.
  - intros ->. discriminate H.
  - apply forallb_split_pieces with "."%char; [|reflexivity].
    apply forallb_forall. intros l Hl. apply label_ok_chars.
    eapply forallb_forall in H; eauto.
Qed.

(** X1.  [validate_hostname] refuses the empty string and every string of
    more than 253 characters, even an IP literal.  A name that it accepts
    without the IP parser has at most 253 characters and is made of
    letters, digits, dashes and dots, possibly followed by one newline
    (which [$] tolerates) and then by trailing dots only. *)
Theorem validate_hostname_shape ip_address_parses (h : str) :
  (h = [] \/ 253 < len h -> validate_hostname ip_address_parses h = false)
  /\ (validate_hostname ip_address_parses h = true ->
      ip_address_parses h = false ->
      len h <= 253
      /\ exists core nl dots,
           h = core ++ nl ++ dots
           /\ core <> [] /\ forallb hostname_char core = true
           /\ (nl = [] \/ nl = [newline])
           /\ forallb (Ascii.eqb ".") dots = true).
Proof.
  split.
  - intros [->|Hlong]; [reflexivity|].
    destruct h as [|c t]; [reflexivity|].
    rewrite validate_hostname_nonempty by discriminate.
    destruct (Z.gtb_spec (len (c :: t)) 253); [reflexivity|lia].
  - intros Hok Hip.
    destruct h as [|c t]; [discriminate|].
    rewrite validate_hostname_nonempty in Hok by discriminate.
    destruct (Z.gtb_spec (len (c :: t)) 253); [discriminate|].
    rewrite Hip in Hok. split; [assumption|].
    destruct (rstrip_by_split (Ascii.eqb ".") (c :: t)) as (dots & Hh & Hd).
    unfold hostname_pattern_match in Hok.
    apply orb_prop in Hok as [Hok|Hok].
    + apply labels_ok_chars in Hok as [Hne Hc].
      exists (rstrip_by (Ascii.eqb ".") (c :: t)), [], dots.
      split; [exact Hh|]. auto.
    + destruct (rev (rstrip_by (Ascii.eqb ".") (c :: t))) as [|x r] eqn:Er;
        [discriminate|].
      apply andb_prop in Hok as [Hx Hok]. apply Ascii.eqb_eq in Hx as ->.
      apply labels_ok_chars in Hok as [Hne Hc].
      exists (rev r), [newline], dots.
      apply (f_equal (@rev _)) in Er. rewrite rev_involutive in Er.
      simpl in Er. rewrite Er, <- app_assoc in Hh.
      split; [exact Hh|]. auto.
Qed.

Lemma validate_hostname_shape_witness :
  exists core nl dots,
    py "example.com" ++ [newline] = core ++ nl ++ dots
    /\ core <> [] /\ forallb hostname_char core = true
    /\ (nl = [] \/ nl = [newline])
    /\ forallb (Ascii.eqb ".") dots = true.
Proof.
  apply (validate_hostname_shape (fun _ => false)
           (py "example.com" ++ [newline])); reflexivity.
Defined.

(** X2.  With at least one host and one processor, the pool has at least
    one worker and never more workers than hosts; for a positive request
    it has no more workers than requested and no more than 50.  Without a
    positive request the pool is [min(hosts, cpu_count)], which the cap of
    50 does not bound. *)
Theorem validate_thread_count_bounds (cpu_count requested hosts : Z) :
  1 <= hosts -> 1 <= cpu_count ->
  1 <= validate_thread_count cpu_count requested hosts <= hosts
  /\ (0 < requested ->
      validate_thread_count cpu_count requested hosts <= Z.min requested 50)
  /\ (requested <= 0 ->
      validate_thread_count cpu_count requested hosts = Z.min hosts cpu_count).
Proof.
  intros Hh Hc. unfold validate_thread_count.
  destruct (Z.leb_spec requested 0); repeat split; lia.
Qed.

Lemma validate_thread_count_bounds_witness :
  1 <= validate_thread_count 64 0 100 <= 100
  /\ (0 < 0 -> validate_thread_count 64 0 100 <= Z.min 0 50)
  /\ (0 <= 0 -> validate_thread_count 64 0 100 = Z.min 100 64).
Proof.
  apply (validate_thread_count_bounds 64 0 100); lia.
Defined.

Lemma filename_char_not_separator c :
  filename_char c = true ->
  c <> "/"%char /\ c <> "\"%char /\ c <> nul /\ c <> " "%char.
Proof.
  intros H. repeat split; intros ->; vm_compute in H; discriminate.
Qed.

Lemma finish_name_not_reserved s :
  existsb (str_eqb (upper (finish_name s))) reserved_names = false.
Proof.
  unfold finish_name.
  destruct (existsb (str_eqb (upper s)) reserved_names) eqn:E; [|assumption].
  destruct (existsb (str_eqb (upper (py "host_" ++ s))) reserved_names)
    eqn:E'; [|reflexivity].
  apply reserved_names_short in E'.
  rewrite len_upper, len_app in E'. change (len (py "host_")) with 5 in E'.
  pose proof (len_nonneg s). lia.
Qed.

(** X3.  Whatever the input, the name that [sanitize_filename] returns
    has at most 100 characters, each of them a word character, a dash or
    a dot (so no slash, backslash, NUL or blank), does not begin with a
    dot or a dash, and is not a reserved device name in any letter
    case. *)
Theorem sanitize_filename_safe (x : str) :
  len (sanitize_filename x) <= 100
  /\ forallb filename_char (sanitize_filename x) = true
  /\ (forall c, In c (sanitize_filename x) ->
        c <> "/"%char /\ c <> "\"%char /\ c <> nul /\ c <> " "%char)
  /\ head_ok dot_or_dash (sanitize_filename x) = true
  /\ existsb (str_eqb (upper (sanitize_filename x))) reserved_names = false.
Proof.
  assert (Hmain : len (sanitize_filename x) <= 100
                  /\ forallb filename_char (sanitize_filename x) = true
                  /\ head_ok dot_or_dash (sanitize_filename x) = true
                  /\ existsb (str_eqb (upper (sanitize_filename x)))
                       reserved_names = false).
  { destruct x as [|c t]; [repeat split; vm_compute; congruence|].
    rewrite sanitize_filename_steps.
    destruct (before_reserved_cleaned (c :: t)) as [Hne Hc Hh Hlen].
    split; [|split; [|split]].
    - unfold finish_name.
      destruct (existsb _ reserved_names) eqn:E; [|assumption].
      apply reserved_names_short in E. rewrite len_upper in E.
      rewrite len_app. change (len (py "host_")) with 5. lia.
    - unfold finish_name. destruct (existsb _ reserved_names); [|assumption].
      rewrite forallb_app. rewrite Hc. reflexivity.
    - unfold finish_name. destruct (existsb _ reserved_names);
        [reflexivity|assumption].
    - apply finish_name_not_reserved. }
  destruct Hmain as (H1 & H2 & H3 & H4).
  repeat split; try assumption;
    eapply forallb_forall in H2; eauto;
    apply filename_char_not_separator in H2; apply H2.
Qed.

Lemma strip_trimmed_without sep s :
  forallb (fun c => negb (Ascii.eqb c sep)) s = true ->
  trimmed_without sep (strip s).
Proof.
  intros H. unfold trimmed_without, strip.
  split; [apply head_ok_strip|]. split; [apply last_ok_strip|].
  now apply forallb_strip.
Qed.

Lemma clean_command_trimmed sep cmd :
  forallb (fun c => negb (Ascii.eqb c sep)) cmd = true ->
  trimmed_without sep (clean_command cmd).
Proof.
  intros H. unfold clean_command.
  apply strip_trimmed_without. unfold strip. now apply forallb_strip, forallb_strip.
Qed.

Lemma collect_commands_origin pieces c :
  In c (collect_commands pieces) ->
  exists cmd, In cmd pieces /\ c = clean_command cmd
              /\ validate_command c = true.
Proof.
  induction pieces as [|cmd rest IH]; simpl; [tauto|].
  destruct (clean_command cmd) as [|x t] eqn:Ec.
  - intros H. destruct (IH H) as (p & Hp & Hq). eauto.
  - destruct (validate_command (x :: t)) eqn:Ev.
    + intros [<-|H].
      * exists cmd. auto.
      * destruct (IH H) as (p & Hp & Hq). eauto.
    + intros H. destruct (IH H) as (p & Hp & Hq). eauto.
Qed.

Lemma validate_command_true c :
  validate_command c = true ->
  c <> [] /\ len c <= 1000 /\ ~ In nul c.
Proof.
  unfold validate_command. destruct c as [|x t]; [discriminate|].
  destruct (Z.gtb_spec (len (x :: t)) 1000); [discriminate|].
  destruct (existsb (Ascii.eqb nul) (x :: t)) eqn:E; [discriminate|].
  intros _. split; [discriminate|]. split; [assumption|].
  intros Hin. assert (existsb (Ascii.eqb nul) (x :: t) = true); [|congruence].
  apply existsb_exists. exists nul. split; [assumption|apply Ascii.eqb_refl].
Qed.

(** X4.  Every command that [parse_command_list] returns is non-empty, has
    at most 1000 characters, contains neither a NUL nor a comma, and has
    no blank at either end. *)
Theorem parse_command_list_entries (commands_str c : str) :
  In c (parse_command_list commands_str) ->
  c <> [] /\ len c <= 1000 /\ ~ In nul c /\ trimmed_without "," c.
Proof.
  rewrite parse_command_list_prefix. intros Hin.
  assert (Hin' : In c (valid_command_entries commands_str)).
  { rewrite <- (firstn_skipn (Z.to_nat max_commands)
                  (valid_command_entries commands_str)).
    apply in_or_app. now left. }
  unfold valid_command_entries in Hin'.
  apply collect_commands_origin in Hin' as (cmd & Hcmd & -> & Hv).
  destruct (validate_command_true _ Hv) as (H1 & H2 & H3).
  split; [assumption|]. split; [assumption|]. split; [assumption|].
  apply clean_command_trimmed.
  eapply forallb_forall in Hcmd; try apply split_pieces_no_sep. exact Hcmd.
Qed.

Lemma parse_command_list_entries_witness :
  py "show route" <> [] /\ len (py "show route") <= 1000
  /\ ~ In nul (py "show route") /\ trimmed_without "," (py "show route").
Proof.
  apply (parse_command_list_entries (py "'show ver', show route ,")).
  vm_compute. tauto.
Defined.

(** X5.  A non-empty list of plain commands (valid, without a comma, with
    neither blanks nor quotes at the ends), written with commas between
    them in at most 50000 characters, is read back as its first 50
    commands; up to 50 commands are read back unchanged. *)
Theorem parse_command_list_round_trip (cs : list str) :
  cs <> [] -> Forall plain_command cs -> len (join "," cs) <= 50000 ->
  parse_command_list (join "," cs) = firstn 50 cs
  /\ ((length cs <= 50)%nat -> parse_command_list (join "," cs) = cs).
Proof.
  intros Hne Hall Hlen.
  assert (H : parse_command_list (join "," cs) = firstn 50 cs).
  { rewrite parse_command_list_prefix, valid_command_entries_join
      by assumption. reflexivity. }
  split; [assumption|]. intros Hle. rewrite H. now apply firstn_all2.
Qed.

Lemma parse_command_list_round_trip_witness :
  parse_command_list (py "show version,show ip route")
  = [py "show version"; py "show ip route"].
Proof.
  apply (parse_command_list_round_trip [py "show version"; py "show ip route"]).
  - discriminate.
  - repeat constructor.
  - vm_compute. discriminate.
  - simpl. lia.
Defined.

(** ** parse_host_list *)

Lemma collect_hosts_origin ip pieces h :
  In h (collect_hosts ip pieces) ->
  exists piece, In piece pieces /\ h = strip piece
                /\ validate_hostname ip h = true.
Proof.
  induction pieces as [|piece rest IH]; simpl; [tauto|].
  destruct (strip piece) as [|x t] eqn:Es.
  - intros H. destruct (IH H) as (p & Hp & Hq). eauto.
  - destruct (validate_hostname ip (x :: t)) eqn:Ev.
    + intros [<-|H].
      * exists piece. auto.
      * destruct (IH H) as (p & Hp & Hq). eauto.
    + intros H. destruct (IH H) as (p & Hp & Hq). eauto.
Qed.

Lemma parse_host_list_prefix ip hosts_str :
  parse_host_list ip hosts_str
  = firstn (Z.to_nat max_hosts) (valid_host_entries ip hosts_str).
Proof.
  destruct hosts_str as [|c t]; [reflexivity|].
  unfold parse_host_list.
  destruct (Z.gtb_spec (len (valid_host_entries ip (c :: t))) max_hosts)
    as [Hgt|Hle]; [reflexivity|].
  symmetry. apply firstn_all2. unfold len, max_hosts in *. lia.
Qed.

(** X6.  [parse_host_list] returns at most 100 hosts, the first 100 of
    the valid entries in their order; each of them passes
    [validate_hostname], has no blank at either end and no comma. *)
Theorem parse_host_list_bounds ip (hosts_str : str) :
  (length (parse_host_list ip hosts_str) <= 100)%nat
  /\ parse_host_list ip hosts_str
     = firstn 100 (valid_host_entries ip hosts_str)
  /\ forall h, In h (parse_host_list ip hosts_str) ->
       validate_hostname ip h = true /\ trimmed_without "," h.
Proof.
  rewrite parse_host_list_prefix. change (Z.to_nat max_hosts) with 100%nat.
  split; [rewrite length_firstn; lia|]. split; [reflexivity|].
  intros h Hin.
  assert (Hin' : In h (valid_host_entries ip hosts_str)).
  { rewrite <- (firstn_skipn 100 (valid_host_entries ip hosts_str)).
    apply in_or_app. now left. }
  unfold valid_host_entries in Hin'.
  apply collect_hosts_origin in Hin' as (piece & Hp & -> & Hv).
  split; [assumption|]. apply strip_trimmed_without.
  eapply forallb_forall in Hp; try apply split_pieces_no_sep. exact Hp.
Qed.

Lemma collect_hosts_plain ip hs :
  Forall (fun h => validate_hostname ip h = true /\ trimmed_without "," h) hs ->
  collect_hosts ip hs = hs.
Proof.
  induction 1 as [|h hs [Hv (Hh & Hl & _)] _ IH]; simpl; [reflexivity|].
  unfold strip. rewrite (strip_by_fixed is_space h) by assumption.
  rewrite Hv, IH. destruct h; [discriminate|reflexivity].
Qed.

(** X7.  A non-empty list of hosts that pass [validate_hostname] and have
    neither blanks at the ends nor a comma, written with commas between
    them in at most 10000 characters, is read back as its first 100
    hosts. *)
Theorem parse_host_list_round_trip ip (hs : list str) :
  hs <> [] ->
  Forall (fun h => validate_hostname ip h = true /\ trimmed_without "," h) hs ->
  len (join "," hs) <= 10000 ->
  parse_host_list ip (join "," hs) = firstn 100 hs.
Proof.
  intros Hne Hall Hlen.
  rewrite parse_host_list_prefix. change (Z.to_nat max_hosts) with 100%nat.
  unfold valid_host_entries.
  destruct (Z.gtb_spec (len (join "," hs)) 10000); [lia|].
  rewrite split_join; [now rewrite collect_hosts_plain|assumption|].
  eapply Forall_impl; [|exact Hall]. intros h (_ & _ & _ & Hc). exact Hc.
Qed.

Lemma parse_host_list_round_trip_witness :
  parse_host_list (fun _ => false) (py "r1.lab,r2.lab")
  = [py "r1.lab"; py "r2.lab"].
Proof.
  apply (parse_host_list_round_trip (fun _ => false) [py "r1.lab"; py "r2.lab"]).
  - discriminate.
  - repeat constructor.
  - vm_compute. discriminate.
Defined.

(** ** load_commands_from_csv *)

Lemma commands_from_rows_cons cell others rest :
  commands_from_rows ((cell :: others) :: rest)
  = if starts_with (py "#") (strip cell)
       || match strip cell with [] => true | _ => false end
    then commands_from_rows rest
    else if validate_command (strip cell)
         then strip cell :: commands_from_rows rest
         else commands_from_rows rest.
Proof. reflexivity. Qed.

Lemma commands_from_rows_origin rows c :
  In c (commands_from_rows rows) ->
  validate_command c = true
  /\ starts_with (py "#") c = false
  /\ exists cell others, In (cell :: others) rows /\ c = strip cell.
Proof.
  induction rows as [|row rest IH]; [intros []|].
  assert (Hrest : In c (commands_from_rows rest) ->
                  validate_command c = true
                  /\ starts_with (py "#") c = false
                  /\ exists cell others,
                       In (cell :: others) (row :: rest) /\ c = strip cell).
  { intros H. destruct (IH H) as (H1 & H2 & cell & others & H3 & H4).
    split; [assumption|]. split; [assumption|].
    exists cell, others. split; [now right|assumption]. }
  destruct row as [|cell others]; [exact Hrest|].
  rewrite commands_from_rows_cons.
  destruct (starts_with (py "#") (strip cell)) eqn:Eh; [exact Hrest|].
  cbn [orb].
  destruct (strip cell) as [|x t] eqn:Es; [exact Hrest|].
  destruct (validate_command (x :: t)) eqn:Ev; [|exact Hrest].
  intros [<-|H]; [|now apply Hrest].
  split; [assumption|]. split; [assumption|].
  exists cell, others. split; [now left|now rewrite Es].
Qed.

Lemma load_commands_from_csv_prefix rows :
  load_commands_from_csv (Rows rows)
  = firstn (Z.to_nat max_commands) (commands_from_rows rows).
Proof.
  unfold load_commands_from_csv.
  destruct (Z.gtb_spec (len (commands_from_rows rows)) max_commands)
    as [Hgt|Hle]; [reflexivity|].
  symmetry. apply firstn_all2. unfold len, max_commands in *. lia.
Qed.

(** X8.  Whatever the file holds, [load_commands_from_csv] returns at most
    50 commands; each of them passes [validate_command], has no blank at
    either end, does not begin with [#], and is the stripped first cell
    of a row of the file. *)
Theorem load_commands_from_csv_bounds (file : csv_file) :
  (length (load_commands_from_csv file) <= 50)%nat
  /\ forall c, In c (load_commands_from_csv file) ->
       validate_command c = true
       /\ head_ok is_space c = true /\ last_ok is_space c = true
       /\ starts_with (py "#") c = false
       /\ exists rows cell others,
            file = Rows rows /\ In (cell :: others) rows /\ c = strip cell.
Proof.
  destruct file as [| |rows]; [split; [simpl; lia|intros c []]..|].
  rewrite load_commands_from_csv_prefix.
  change (Z.to_nat max_commands) with 50%nat.
  split; [rewrite length_firstn; lia|].
  intros c Hin.
  assert (Hin' : In c (commands_from_rows rows)).
  { rewrite <- (firstn_skipn 50 (commands_from_rows rows)).
    apply in_or_app. now left. }
  apply commands_from_rows_origin in Hin'
    as (Hv & Hh & cell & others & Hrow & ->).
  split; [assumption|]. split; [apply head_ok_strip|].
  split; [apply last_ok_strip|]. split; [assumption|].
  exists rows, cell, others. auto.
Qed.

Lemma commands_from_rows_first_column rows :
  commands_from_rows (map (firstn 1) rows) = commands_from_rows rows.
Proof.
  induction rows as [|row rest IH]; simpl; [reflexivity|].
  destruct row as [|cell others]; simpl; rewrite IH; reflexivity.
Qed.

(** X9.  Only the first column of the file counts: cutting every row down
    to its first cell does not change what [load_commands_from_csv]
    returns. *)
Theorem load_commands_from_csv_first_column (rows : list (list str)) :
  load_commands_from_csv (Rows (map (firstn 1) rows))
  = load_commands_from_csv (Rows rows).
Proof.
  unfold load_commands_from_csv.
  now rewrite commands_from_rows_first_column.
Qed.

(** ** Per-host log *)

Lemma replace_crlf_unfold c d t :
  replace_crlf (c :: d :: t)
  = if Ascii.eqb c carriage_return && Ascii.eqb d newline
    then newline :: replace_crlf t
    else c :: replace_crlf (d :: t).
Proof. reflexivity. Qed.

(** The replacement brings in no character but the newline of a pair it
    replaces, which was there. *)
Lemma replace_crlf_chars_upto n s x :
  (length s <= n)%nat -> In x (replace_crlf s) -> In x s.
Proof.
  revert s. induction n as [|n IH]; intros s Hn.
  - destruct s; [intros []|simpl in Hn; lia].
  - destruct s as [|c [|d t]]; [intros []|auto|].
    rewrite replace_crlf_unfold.
    destruct (Ascii.eqb_spec c carriage_return) as [->|Hc];
      [destruct (Ascii.eqb_spec d newline) as [->|Hd]|]; cbn [andb].
    + intros [<-|H]; [right; now left|].
      right; right. apply IH; [simpl in Hn; lia|assumption].
    + intros [<-|H]; [now left|]. right. apply IH; [simpl in *; lia|assumption].
    + intros [<-|H]; [now left|]. right. apply IH; [simpl in *; lia|assumption].
Qed.

Lemma replace_crlf_chars s x : In x (replace_crlf s) -> In x s.
Proof. apply replace_crlf_chars_upto with (length s). lia. Qed.

Lemma replace_crlf_without_cr s :
  ~ In carriage_return s -> replace_crlf s = s.
Proof.
  induction s as [|c rest IH]; [reflexivity|].
  intros Hcr. destruct rest as [|d t]; [reflexivity|].
  rewrite replace_crlf_unfold.
  destruct (Ascii.eqb_spec c carriage_return) as [->|Hc].
  - exfalso. apply Hcr. now left.
  - cbn [andb]. f_equal. apply IH. intros H. apply Hcr. now right.
Qed.

Lemma remove_char_spec c s x : In x (remove_char c s) <-> In x s /\ x <> c.
Proof.
  unfold remove_char. rewrite filter_In, negb_true_iff.
  split; intros [H1 H2]; split; try assumption.
  - intros ->. now rewrite Ascii.eqb_refl in H2.
  - now apply Ascii.eqb_neq.
Qed.

Lemma safe_message_no_nul message : ~ In nul (safe_message_of message).
Proof.
  unfold safe_message_of. intros H. apply replace_crlf_chars in H.
  apply remove_char_spec in H as [_ H]. now apply H.
Qed.

Lemma ascii_replace_nul message :
  In nul (ascii_replace message) <-> In nul message.
Proof.
  unfold ascii_replace. rewrite in_map_iff. split.
  - intros (c & Hc & Hin). destruct (code c <? 128)%N.
    + now subst c.
    + discriminate Hc.
  - intros Hin. exists nul. split; [reflexivity|assumption].
Qed.

Lemma ascii_replace_ascii message :
  forallb (fun c => (code c <? 128)%N) (ascii_replace message) = true.
Proof.
  unfold ascii_replace. induction message as [|c t IH]; [reflexivity|].
  cbn [map forallb]. rewrite IH, andb_true_r.
  destruct (code c <? 128)%N eqn:E; [exact E|reflexivity].
Qed.

(** X10.  [write_to_host_log] only appends: whatever the outcome of the
    writes, the content that the file had is a prefix of its new content,
    and an empty message changes nothing.  When the first write
    succeeds, what is appended is one line without any NUL; if the
    message has no carriage return it is the message without its NULs.
    When the first write raises [UnicodeEncodeError] and the write of
    the fall-back succeeds, what is appended is the message as it was
    given, its NULs kept, with [?] for every character that is not
    ASCII.  In every other case the file is left as it was. *)
Theorem write_to_host_log_appends (host_log_file : str)
    (first second : write_outcome) (content message : str) :
  (exists added,
      fst (write_to_host_log host_log_file first second content message)
      = content ++ added)
  /\ write_to_host_log host_log_file first second content [] = (content, [])
  /\ (message <> [] ->
      (write_to_host_log host_log_file Written second content message
       = (content ++ safe_message_of message ++ [newline], [])
       /\ ~ In nul (safe_message_of message)
       /\ (~ In carriage_return message ->
           safe_message_of message = remove_char nul message))
      /\ (forall e,
            fst (write_to_host_log host_log_file (WriteUnicodeEncodeError e)
                   Written content message)
            = content ++ ascii_replace message ++ [newline]
            /\ (In nul (ascii_replace message) <-> In nul message)
            /\ forallb (fun c => (code c <? 128)%N) (ascii_replace message)
               = true)
      /\ (first <> Written ->
          (forall e, first = WriteUnicodeEncodeError e -> second <> Written) ->
          fst (write_to_host_log host_log_file first second content message)
          = content)).
Proof.
  split; [|split].
  - destruct message as [|c t]; [exists []; simpl; now rewrite app_nil_r|].
    destruct first; simpl; try (exists []; now rewrite app_nil_r).
    + eexists. reflexivity.
    + destruct second; simpl; try (exists []; now rewrite app_nil_r).
      eexists. reflexivity.
  - reflexivity.
  - intros Hne. destruct message as [|c t]; [congruence|].
    split; [|split].
    + split; [reflexivity|]. split; [apply safe_message_no_nul|].
      intros Hcr. unfold safe_message_of. apply replace_crlf_without_cr.
      intros H. apply remove_char_spec in H as [H _]. now apply Hcr.
    + intros e. split; [reflexivity|].
      split; [apply ascii_replace_nul|apply ascii_replace_ascii].
    + intros Hfirst Hsecond.
      destruct first as [|e|e|e]; [congruence|reflexivity| |reflexivity].
      specialize (Hsecond e eq_refl).
      destruct second; [congruence|reflexivity..].
Qed.

Lemma write_to_host_log_appends_witness :
  (write_to_host_log (py "r1.log") Written Written (py "old")
     (py "a" ++ [nul] ++ py "b")
   = (py "old" ++ safe_message_of (py "a" ++ [nul] ++ py "b") ++ [newline],
      [])
   /\ ~ In nul (safe_message_of (py "a" ++ [nul] ++ py "b"))
   /\ (~ In carriage_return (py "a" ++ [nul] ++ py "b") ->
       safe_message_of (py "a" ++ [nul] ++ py "b")
       = remove_char nul (py "a" ++ [nul] ++ py "b")))
  /\ (forall e,
        fst (write_to_host_log (py "r1.log") (WriteUnicodeEncodeError e)
               Written (py "old") (py "a" ++ [nul] ++ py "b"))
        = py "old" ++ ascii_replace (py "a" ++ [nul] ++ py "b") ++ [newline]
        /\ (In nul (ascii_replace (py "a" ++ [nul] ++ py "b"))
            <-> In nul (py "a" ++ [nul] ++ py "b"))
        /\ forallb (fun c => (code c <? 128)%N)
             (ascii_replace (py "a" ++ [nul] ++ py "b")) = true).
Proof.
  destruct (write_to_host_log_appends (py "r1.log") Written Written
              (py "old") (py "a" ++ [nul] ++ py "b")) as (_ & _ & H).
  destruct H as (H1 & H2 & _); [discriminate|].
  exact (conj H1 H2).
Defined.

(** X11.  Whatever the host name, and for a time stamp made of word
    characters, the log file lies directly in the log directory: its path
    is the directory, a slash and a file name without slash or backslash
    that begins with [ssh_output_]. *)
Theorem host_log_file_in_log_dir (makedirs_ok : bool)
    (timestamp hostname : str) :
  forallb filename_char timestamp = true ->
  exists name,
    host_log_file makedirs_ok timestamp hostname
    = (if makedirs_ok then py "per-host-logs" else py ".") ++ py "/" ++ name
    /\ starts_with (py "ssh_output_") name = true
    /\ forallb filename_char name = true
    /\ ~ In "/"%char name /\ ~ In "\"%char name.
Proof.
  intros Hts.
  destruct (sanitize_filename_safe hostname) as (_ & Hchars & _).
  set (name := py "ssh_output_"
               ++ (if makedirs_ok then sanitize_filename hostname
                   else py "fallback_" ++ sanitize_filename hostname)
               ++ py "_" ++ timestamp ++ py ".log").
  assert (Hname : forallb filename_char name = true).
  { subst name. rewrite !forallb_app.
    destruct makedirs_ok; rewrite ?forallb_app, Hchars, Hts; reflexivity. }
  exists name. split; [|split; [reflexivity|split; [assumption|]]].
  - unfold host_log_file. fold name. destruct makedirs_ok; reflexivity.
  - split; intros Hin; eapply forallb_forall in Hname; eauto;
      vm_compute in Hname; discriminate.
Qed.

Lemma host_log_file_in_log_dir_witness :
  exists name,
    host_log_file true (py "20250109_101500") (py "../../etc/passwd")
    = py "per-host-logs" ++ py "/" ++ name
    /\ starts_with (py "ssh_output_") name = true
    /\ forallb filename_char name = true
    /\ ~ In "/"%char name /\ ~ In "\"%char name.
Proof.
  apply (host_log_file_in_log_dir true (py "20250109_101500")
           (py "../../etc/passwd")).
  reflexivity.
Defined.

(** ** Session: disconnect and the direct mode *)

(** X12.  [disconnect] closes the client if there is one and leaves the
    session without a client; a second [disconnect] does nothing, and
    [execute_command] on the session then answers that there is no
    active connection, without touching a channel. *)
Theorem disconnect_idempotent (s : session)
    (run : str -> bool -> str -> execution)
    (command : str) (use_shell : bool) (hostname : str) :
  let s' := fst (disconnect s) in
  client s' = None
  /\ timeout s' = timeout s
  /\ snd (disconnect s)
     = match client s with Some _ => [CloseClient] | None => [] end
  /\ disconnect s' = (s', [])
  /\ execute_command run s' command use_shell hostname
     = ((false, [], py "No active SSH connection"),
        [LogError (py "No active SSH connection")]).
Proof.
  unfold disconnect. destruct s as [tm [c|]]; simpl; repeat split.
Qed.

(** X13.  After [connect], the session holds a client exactly when the
    validation passed or it held one before, whether or not the
    handshake succeeded: after a failed handshake [execute_command] does
    not report a missing connection but goes to the channel, and
    [disconnect] closes the client that was left. *)
Theorem connect_leaves_client ip (t : transport) (s : session)
    (hostname username password : str) (port : Z)
    (run : str -> bool -> str -> execution)
    (command : str) (use_shell : bool) (host : str) :
  let s' := snd (fst (connect ip t s hostname username password port)) in
  (connect_validation ip hostname username password port = None ->
     client s' = Some SSHClient
     /\ snd (disconnect s') = [CloseClient]
     /\ snd (execute_command run s' command use_shell host)
        = channel_events (run command use_shell host)
          ++ match outcome (run command use_shell host) with
             | inl _ => []
             | inr e => [LogError (execution_error_message s' e)]
             end)
  /\ (connect_validation ip hostname username password port <> None ->
      s' = s).
Proof.
  unfold connect.
  destruct (connect_validation ip hostname username password port) as [v|].
  - split; [discriminate|reflexivity].
  - split; [|congruence]. intros _.
    destruct (connect_attempt t _ hostname username password port)
      as [events [e|]]; simpl; (split; [reflexivity|]);
      (split; [reflexivity|]);
      unfold execute_command; simpl;
      destruct (outcome (run command use_shell host)) as [r|[]];
      rewrite ?app_nil_r; reflexivity.
Qed.

Lemma connect_leaves_client_witness :
  client (snd (fst (connect (fun _ => false) refusing_transport idle_session
                      (py "r1.lab") (py "admin") (py "secret") 22)))
  = Some SSHClient.
Proof.
  apply (connect_leaves_client (fun _ => false) refusing_transport
           idle_session (py "r1.lab") (py "admin") (py "secret") 22
           failing_run (py "show version") true (py "r1.lab")).
  reflexivity.
Defined.

(** X14.  In direct mode on a connected session, [execute_command] returns
    the streams of the attempt that completes, with success exactly when
    its exit status is 0; the attempt without a pseudo-terminal is made
    only when the first one raises.  When both raise, the triple is
    [(False, "", message)] with the message of the second exception
    only, and in no case are there more than two attempts. *)
Theorem execute_command_direct (s : session) (command hostname : str)
    (with_pty without_pty : exec_attempt) :
  client s <> None ->
  let r := execute_command
             (fun c _ _ => execute_direct c with_pty without_pty)
             s command false hostname in
  fst r
  = match with_pty, without_pty with
    | Completed status out err, _ => (status =? 0, out, err)
    | Failed _, Completed status out err => (status =? 0, out, err)
    | Failed _, Failed e2 => (false, [], execution_error_message s e2)
    end
  /\ length (List.filter is_channel_io (snd r))
     = (match with_pty with Completed _ _ _ => 1 | Failed _ => 2 end)%nat.
Proof.
  intros Hc. unfold execute_command.
  destruct (client s); [|congruence].
  destruct with_pty as [st out err|e1]; [split; reflexivity|].
  destruct without_pty as [st out err|e2]; [split; reflexivity|].
  destruct e2; split; reflexivity.
Qed.

Lemma execute_command_direct_witness :
  fst (execute_command
         (fun c _ _ => execute_direct c (Failed (socket_timeout (py "TimeoutError") []))
                         (Completed 0 (py "ok") []))
         {| timeout := 30; client := Some SSHClient |}
         (py "uptime") false (py "r1"))
  = (true, py "ok", []).
Proof.
  apply (execute_command_direct {| timeout := 30; client := Some SSHClient |}
           (py "uptime") (py "r1") (Failed (socket_timeout (py "TimeoutError") []))
           (Completed 0 (py "ok") [])).
  discriminate.
Defined.

(** ** One host *)

Section HostRunFacts.

Import HostRun.

Variable ip_address_parses : str -> bool.
Variable t : transport.
Variable attempt : Z -> str -> bool -> str -> command_run.
Variable pause_interrupted : Z -> bool.

Lemma run_commands_result s hostname use_shell total commands :
  forall i overall_success,
    fst (run_commands attempt pause_interrupted s hostname use_shell total i
           commands overall_success)
    = overall_success
      && every_command
           (command_passes attempt pause_interrupted s hostname use_shell
              total) i commands.
Proof.
  induction commands as [|command rest IH]; intros i overall_success.
  - simpl. now rewrite andb_true_r.
  - simpl. unfold command_passes at 1.
    destruct (attempt i command use_shell hostname) as [x|events].
    + destruct (execute_command _ s command use_shell hostname)
        as [[[success stdout] stderr] evs]. cbn [fst].
      destruct ((i <? total) && pause_interrupted i).
      * cbn [fst negb]. now rewrite andb_false_r, andb_false_r.
      * specialize (IH (i + 1) (overall_success && success)).
        destruct (run_commands _ _ s hostname use_shell total (i + 1) rest _)
          as [result later].
        cbn [fst negb] in *. rewrite IH, andb_true_r.
        now rewrite andb_assoc.
    + cbn [fst]. now rewrite andb_false_r.
Qed.

(** X15.  [run_multiple_ssh_commands] returns [True] exactly when
    [connect] returned [True] and, for every command, [execute_command]
    returned with success and no [KeyboardInterrupt] reached the loop,
    neither out of [execute_command] nor in the pause that follows.  (A
    Ctrl+C that the shell mode catches while it collects the output is
    not such an interrupt: the call returns, and counts by its result.)
    With no command at all the function returns what [connect]
    returned. *)
Theorem run_multiple_ssh_commands_result (makedirs : option str)
    (hostname username password : str) (commands : list str)
    (port timeout_ : Z) (use_shell : bool) :
  let c :=
    connect ip_address_parses t {| timeout := timeout_; client := None |}
      hostname username password port in
  let result :=
    fst (run_multiple_ssh_commands ip_address_parses t attempt
           pause_interrupted makedirs hostname username password commands
           port timeout_ use_shell) in
  result
  = fst (fst c)
    && every_command
         (command_passes attempt pause_interrupted (snd (fst c)) hostname
            use_shell (len commands)) 1 commands
  /\ (commands = [] -> result = fst (fst c)).
Proof.
  intros c result.
  assert (H : result
              = fst (fst c)
                && every_command
                     (command_passes attempt pause_interrupted (snd (fst c))
                        hostname use_shell (len commands)) 1 commands).
  { subst result c. unfold run_multiple_ssh_commands.
    destruct (connect _ t _ hostname username password port)
      as [[connected runner] events].
    cbn [fst snd]. destruct connected; [|reflexivity].
    pose proof (run_commands_result runner hostname use_shell (len commands)
                  commands 1 true) as Hr.
    destruct (run_commands _ _ runner hostname use_shell (len commands) 1
                commands true) as [overall body].
    cbn [fst andb] in *. exact Hr. }
  split; [exact H|].
  intros ->. rewrite H. simpl. now rewrite andb_true_r.
Qed.

Lemma headers_of_app a b : headers_of (a ++ b) = headers_of a ++ headers_of b.
Proof. apply flat_map_app. Qed.

Lemma pauses_of_app a b : pauses_of (a ++ b) = pauses_of a ++ pauses_of b.
Proof. apply flat_map_app. Qed.

Lemma headers_of_events events : headers_of (map Did events) = [].
Proof. induction events; [reflexivity|assumption]. Qed.

Lemma pauses_of_events events : pauses_of (map Did events) = [].
Proof. induction events; [reflexivity|assumption]. Qed.

Lemma headers_of_labelled label text :
  (forall i total command, label <> CommandHeader i total command) ->
  headers_of (labelled label text) = [].
Proof.
  intros Hl. destruct text; [reflexivity|].
  destruct label; try reflexivity. exfalso. eapply Hl. reflexivity.
Qed.

Lemma pauses_of_labelled label text : pauses_of (labelled label text) = [].
Proof. now destruct text. Qed.

Lemma run_commands_cons s hostname use_shell total i command rest
    overall_success :
  run_commands attempt pause_interrupted s hostname use_shell total i
    (command :: rest) overall_success
  = let head :=
      [HostLog Separator; HostLog (CommandHeader i total command);
       HostLog SeparatorLine] in
    let interrupted := [HostLog (CommandInterrupted i (total - i))] in
    match attempt i command use_shell hostname with
    | Interrupted events => (false, head ++ map Did events ++ interrupted)
    | Ran x =>
        let '(success, stdout, stderr, events) :=
          execute_command (fun _ _ _ => x) s command use_shell hostname in
        let done :=
          head ++ map Did events
          ++ labelled OutputLabel stdout ++ labelled ErrorsLabel stderr
          ++ [HostLog (if success then CommandOk i else CommandFailed i)] in
        let pause := if i <? total then [Pause 500000] else [] in
        if (i <? total) && pause_interrupted i
        then (false, done ++ pause ++ interrupted)
        else
          let (result, later) :=
            run_commands attempt pause_interrupted s hostname use_shell total
              (i + 1) rest (overall_success && success) in
          (result, done ++ pause ++ later)
    end.
Proof. reflexivity. Qed.

Lemma run_commands_headers s hostname use_shell total commands :
  forall i overall_success,
    headers_of (snd (run_commands attempt pause_interrupted s hostname
                       use_shell total i commands overall_success))
    = command_headers total i
        (until_interrupted
           (command_interrupted attempt pause_interrupted hostname use_shell
              total) i commands).
Proof.
  induction commands as [|command rest IH]; intros i overall_success;
    [reflexivity|].
  rewrite run_commands_cons. cbn [until_interrupted].
  unfold command_interrupted at 1. cbv zeta.
  destruct (attempt i command use_shell hostname) as [x|events].
  - destruct (execute_command _ s command use_shell hostname)
      as [[[success stdout] stderr] evs].
    destruct ((i <? total) && pause_interrupted i).
    + cbn [snd]. rewrite !headers_of_app, headers_of_events,
        !headers_of_labelled by discriminate.
      destruct success, (i <? total); reflexivity.
    + specialize (IH (i + 1) (overall_success && success)).
      destruct (run_commands _ _ s hostname use_shell total (i + 1) rest _)
        as [result later].
      cbn [snd] in *.
      rewrite !headers_of_app, headers_of_events,
        !headers_of_labelled by discriminate.
      rewrite IH. destruct success, (i <? total); reflexivity.
  - cbn [snd]. rewrite !headers_of_app, headers_of_events. reflexivity.
Qed.

Lemma until_interrupted_none stop commands :
  forall i,
    every_command (fun i command => negb (stop i command)) i commands = true ->
    until_interrupted stop i commands = commands.
Proof.
  induction commands as [|command rest IH]; intros i H; [reflexivity|].
  simpl in *. apply andb_prop in H as [Hc Hr].
  apply negb_true_iff in Hc. rewrite Hc. f_equal. now apply IH.
Qed.


Lemma run_commands_pauses s hostname use_shell total commands :
  forall i overall_success,
    total = i + len commands - 1 ->
    every_command
      (fun i command =>
         negb (command_interrupted attempt pause_interrupted hostname
                 use_shell total i command)) i commands = true ->
    pauses_of (snd (run_commands attempt pause_interrupted s hostname
                      use_shell total i commands overall_success))
    = repeat 500000 (pred (length commands)).
Proof.
  induction commands as [|command rest IH]; intros i overall_success Ht Hall;
    [reflexivity|].
  rewrite run_commands_cons. cbn [every_command] in Hall.
  apply andb_prop in Hall as [Hc Hrest]. apply negb_true_iff in Hc.
  unfold command_interrupted in Hc. cbv zeta.
  destruct (attempt i command use_shell hostname) as [x|events];
    [|discriminate].
  destruct (execute_command _ s command use_shell hostname)
    as [[[success stdout] stderr] evs].
  rewrite Hc.
  destruct rest as [|next rest'].
  - assert (Hlast : (i <? total) = false).
    { apply Z.ltb_ge. unfold len in Ht. simpl in Ht. lia. }
    rewrite Hlast. cbn [run_commands snd].
    rewrite !pauses_of_app, pauses_of_events, !pauses_of_labelled.
    destruct success; reflexivity.
  - assert (Hmore : (i <? total) = true).
    { apply Z.ltb_lt. unfold len in Ht. simpl length in Ht. lia. }
    specialize (IH (i + 1) (overall_success && success)).
    destruct (run_commands _ _ s hostname use_shell total (i + 1)
                (next :: rest') _) as [result later].
    cbn [snd] in *.
    rewrite !pauses_of_app, pauses_of_events, !pauses_of_labelled.
    rewrite Hmore, IH; [destruct success; reflexivity| |exact Hrest].
    unfold len in *. simpl length in *. lia.
Qed.

(** X16.  Once connected, [run_multiple_ssh_commands] runs the commands
    in order up to the first one at which a [KeyboardInterrupt] reaches
    the loop, out of [execute_command] or in the pause that follows, and
    no further; a command for which [execute_command] returns, with
    failure or with success, does not stop the ones after it.  When no
    [KeyboardInterrupt] reaches the loop, every command is run, under its
    number, and there is a pause of half a second between two commands,
    none after the last. *)
Theorem run_multiple_ssh_commands_runs_every_command (makedirs : option str)
    (hostname username password : str) (commands : list str)
    (port timeout_ : Z) (use_shell : bool) :
  let c :=
    connect ip_address_parses t {| timeout := timeout_; client := None |}
      hostname username password port in
  let trace :=
    snd (run_multiple_ssh_commands ip_address_parses t attempt
           pause_interrupted makedirs hostname username password commands
           port timeout_ use_shell) in
  let stop :=
    command_interrupted attempt pause_interrupted hostname use_shell
      (len commands) in
  fst (fst c) = true ->
  headers_of trace
  = command_headers (len commands) 1 (until_interrupted stop 1 commands)
  /\ (every_command (fun i command => negb (stop i command)) 1 commands
      = true ->
      headers_of trace = command_headers (len commands) 1 commands
      /\ pauses_of trace = repeat 500000 (pred (length commands))).
Proof.
  intros c trace stop Hc.
  subst trace c. unfold run_multiple_ssh_commands.
  destruct (connect _ t _ hostname username password port)
    as [[connected runner] events].
  cbn [fst snd] in Hc. subst connected.
  pose proof (run_commands_headers runner hostname use_shell (len commands)
                commands 1 true) as Hh.
  pose proof (run_commands_pauses runner hostname use_shell (len commands)
                commands 1 true) as Hp.
  destruct (run_commands _ _ runner hostname use_shell (len commands) 1
              commands true) as [overall body].
  cbn [fst snd] in *.
  assert (Hheaders :
            headers_of
              ((open_host_log makedirs
                ++ [HostLog (SessionHeader hostname (len commands))])
               ++ map Did events
               ++ ([HostLog (ExecutingSequentially (len commands))] ++ body
                   ++ [HostLog Separator;
                       HostLog (if overall then AllCommandsOk
                                else SomeCommandsFailed)])
               ++ snd (disconnect runner)
               ++ [HostLog (SessionFooter overall)])
            = headers_of body).
  { rewrite !headers_of_app, headers_of_events.
    assert (Ho : headers_of (open_host_log makedirs) = [])
      by now destruct makedirs.
    assert (Hd : headers_of (snd (disconnect runner)) = [])
      by now destruct runner as [tm [cl|]].
    rewrite Ho, Hd. destruct overall; simpl; now rewrite !app_nil_r. }
  rewrite Hheaders. split; [exact Hh|].
  intros Hall. split.
  - rewrite Hh. unfold stop. now rewrite until_interrupted_none.
  - rewrite !pauses_of_app, pauses_of_events.
    rewrite Hp by (try lia; exact Hall).
    assert (Ho : pauses_of (open_host_log makedirs) = [])
      by now destruct makedirs.
    assert (Hd : pauses_of (snd (disconnect runner)) = [])
      by now destruct runner as [tm [cl|]].
    rewrite Ho, Hd. destruct overall; simpl; now rewrite !app_nil_r.
Qed.

Lemma quiet_events events : forallb quiet (map Did events) = true.
Proof. induction events; [reflexivity|assumption]. Qed.

Lemma quiet_labelled label text :
  is_footer (HostLog label) = false ->
  forallb quiet (labelled label text) = true.
Proof.
  intros Hl. destruct text; [reflexivity|].
  simpl. unfold quiet at 1. simpl is_close. now rewrite Hl.
Qed.

Lemma quiet_run_commands s hostname use_shell total commands :
  forall i overall_success,
    forallb quiet
      (snd (run_commands attempt pause_interrupted s hostname use_shell
              total i commands overall_success)) = true.
Proof.
  induction commands as [|command rest IH]; intros i overall_success;
    [reflexivity|].
  rewrite run_commands_cons. cbv zeta.
  destruct (attempt i command use_shell hostname) as [x|events].
  - destruct (execute_command _ s command use_shell hostname)
      as [[[success stdout] stderr] evs].
    destruct ((i <? total) && pause_interrupted i).
    + cbn [snd]. rewrite !forallb_app, quiet_events,
        !quiet_labelled by reflexivity.
      destruct success, (i <? total); reflexivity.
    + specialize (IH (i + 1) (overall_success && success)).
      destruct (run_commands _ _ s hostname use_shell total (i + 1) rest _)
        as [result later].
      cbn [snd] in *.
      rewrite !forallb_app, quiet_events, !quiet_labelled, IH by reflexivity.
      destruct success, (i <? total); reflexivity.
  - cbn [snd]. rewrite !forallb_app, quiet_events. reflexivity.
Qed.

(** X17.  Both [run_multiple_ssh_commands] and [run_ssh_command] end in
    the same way whatever happened before: the client is closed, if the
    validation in [connect] let one be made, and then the footer is
    written, and neither happens earlier.  The footer of
    [run_ssh_command] says SUCCESS exactly when [True] is returned; the
    footer of [run_multiple_ssh_commands] says SUCCESS when [True] is
    returned and also when [connect] returned [False]. *)
Theorem host_run_closes_then_writes_footer (makedirs : option str)
    (hostname username password : str) (commands : list str)
    (command : str) (port timeout_ : Z) (use_shell : bool) :
  let c :=
    connect ip_address_parses t {| timeout := timeout_; client := None |}
      hostname username password port in
  let closing :=
    match connect_validation ip_address_parses hostname username password
            port with
    | None => [CloseClient]
    | Some _ => []
    end in
  let multiple :=
    run_multiple_ssh_commands ip_address_parses t attempt pause_interrupted
      makedirs hostname username password commands port timeout_ use_shell in
  let single :=
    run_ssh_command ip_address_parses t attempt makedirs hostname username
      password command port timeout_ use_shell in
  (exists front,
      snd multiple
      = front ++ closing
        ++ [HostLog (SessionFooter (fst multiple || negb (fst (fst c))))]
      /\ forallb quiet front = true)
  /\ (exists front,
         snd single
         = front ++ closing
           ++ [HostLog (SingleFooter
                          match fst single with
                          | Some true => true
                          | _ => false
                          end)]
         /\ forallb quiet front = true).
Proof.
  intros c closing multiple single.
  assert (Hclose : snd (disconnect (snd (fst c))) = closing).
  { subst c closing. unfold connect.
    destruct (connect_validation _ hostname username password port);
      [reflexivity|].
    destruct (connect_attempt t _ hostname username password port)
      as [events [e|]]; reflexivity. }
  subst multiple single. unfold run_multiple_ssh_commands, run_ssh_command.
  subst c.
  destruct (connect _ t _ hostname username password port)
    as [[connected runner] events].
  cbn [fst snd] in *. rewrite Hclose. split.
  - destruct connected.
    + pose proof (quiet_run_commands runner hostname use_shell (len commands)
                    commands 1 true) as Hq.
      destruct (run_commands _ _ runner hostname use_shell (len commands) 1
                  commands true) as [overall body].
      cbn [fst snd negb] in *. rewrite orb_false_r.
      eexists. rewrite !app_assoc. split; [reflexivity|].
      rewrite !forallb_app, quiet_events, Hq.
      destruct makedirs, overall; reflexivity.
    + cbn [fst snd negb]. rewrite orb_true_r.
      eexists. rewrite !app_assoc. split; [reflexivity|].
      rewrite !forallb_app, quiet_events. destruct makedirs; reflexivity.
  - destruct connected.
    + destruct (attempt 1 command use_shell hostname) as [x|evs].
      * destruct (execute_command _ runner command use_shell hostname)
          as [[[success stdout] stderr] evs].
        cbn [fst snd].
        exists ((open_host_log makedirs
                 ++ [HostLog (SingleHeader hostname command)])
                ++ map Did events
                ++ map Did evs
                ++ [HostLog Separator; HostLog CommandOutputLabel;
                    HostLog SeparatorLine]
                ++ labelled StdoutLabel stdout ++ labelled StderrLabel stderr
                ++ match stdout, stderr with
                   | [], [] => [HostLog NoOutputReturned]
                   | _, _ => []
                   end
                ++ [HostLog SeparatorLine;
                    HostLog (if success then SingleOk else SingleFailed)]).
        split.
        -- rewrite <- !app_assoc. now destruct success.
        -- rewrite !forallb_app, !quiet_events, !quiet_labelled by reflexivity.
           destruct makedirs, success, stdout, stderr; reflexivity.
      * cbn [fst snd]. eexists. rewrite !app_assoc. split; [reflexivity|].
        rewrite !forallb_app, !quiet_events. destruct makedirs; reflexivity.
    + cbn [fst snd]. eexists. rewrite !app_assoc. split; [reflexivity|].
      rewrite !forallb_app, quiet_events. destruct makedirs; reflexivity.
Qed.

End HostRunFacts.

Lemma run_multiple_ssh_commands_runs_every_command_witness :
  HostRun.headers_of
    (snd (HostRun.run_multiple_ssh_commands (fun _ => false)
            accepting_transport failing_attempt (fun _ => false) None
            (py "r1.lab") (py "admin") (py "secret") two_commands 22 30 true))
  = [CommandHeader 1 2 (py "show version");
     CommandHeader 2 2 (py "show users")]
  /\ HostRun.pauses_of
       (snd (HostRun.run_multiple_ssh_commands (fun _ => false)
               accepting_transport failing_attempt (fun _ => false) None
               (py "r1.lab") (py "admin") (py "secret") two_commands 22 30
               true))
     = [500000].
Proof.
  destruct (run_multiple_ssh_commands_runs_every_command (fun _ => false)
              accepting_transport failing_attempt (fun _ => false) None
              (py "r1.lab") (py "admin") (py "secret") two_commands 22 30
              true eq_refl) as [_ H].
  exact (H eq_refl).
Defined.

(** ** Host orchestrator: who is listed where *)

Section Partition.

Variable run_ssh_command : nat -> str -> str -> task_outcome.
Variable run_multiple_ssh_commands : nat -> str -> list str -> task_outcome.

Let on_host :=
  run_ssh_command_on_host run_ssh_command run_multiple_ssh_commands.

Let report :=
  run_ssh_commands_multi_host run_ssh_command run_multiple_ssh_commands.

(** The triples handed back, in the order of completion. *)
Let completed (hosts commands : list str) (order : list nat)
  : list (str * bool * str) :=
  omap (fun task => (fun host => on_host task host commands) <$> hosts !! task)
       order.

Lemma run_ssh_command_on_host_name task hostname commands :
  fst (fst (on_host task hostname commands)) = hostname.
Proof.
  unfold on_host, run_ssh_command_on_host.
  destruct commands as [|command [|]];
    [destruct (run_multiple_ssh_commands _ _ _)
    |destruct (run_ssh_command _ _ _)
    |destruct (run_multiple_ssh_commands _ _ _)]; reflexivity.
Qed.

Lemma process_completed_fold hosts commands order acc :
  process_completed run_ssh_command run_multiple_ssh_commands hosts commands
    order acc
  = fold_left record_result (completed hosts commands order) acc.
Proof.
  unfold process_completed. revert acc.
  induction order as [|task rest IH]; intros acc; [reflexivity|].
  cbn [fold_left]. rewrite IH. unfold completed. cbn [omap list_omap].
  destruct (hosts !! task); reflexivity.
Qed.

Lemma fold_record_successful rs acc :
  tally_successful (fold_left record_result rs acc)
  = tally_successful acc
    ++ map (fun r => fst (fst r)) (List.filter (fun r => snd (fst r)) rs).
Proof.
  revert acc. induction rs as [|[[h s] m] rs IH]; intros acc.
  - simpl. now rewrite app_nil_r.
  - cbn [fold_left]. rewrite IH. destruct s; simpl; [|reflexivity].
    now rewrite <- app_assoc.
Qed.

Lemma fold_record_failed rs acc :
  tally_failed (fold_left record_result rs acc)
  = tally_failed acc
    ++ map (fun r => fst (fst r))
         (List.filter (fun r => negb (snd (fst r))) rs).
Proof.
  revert acc. induction rs as [|[[h s] m] rs IH]; intros acc.
  - simpl. now rewrite app_nil_r.
  - cbn [fold_left]. rewrite IH. destruct s; simpl; [reflexivity|].
    now rewrite <- app_assoc.
Qed.

Lemma fold_record_results_origin rs acc h v :
  tally_results (fold_left record_result rs acc) !! h = Some v ->
  In (h, fst v, snd v) rs \/ tally_results acc !! h = Some v.
Proof.
  revert acc. induction rs as [|[[h' s] m] rs IH]; intros acc H; [now right|].
  cbn [fold_left] in H. apply IH in H as [H|H]; [left; now right|].
  simpl in H. destruct (decide (h' = h)) as [->|Hne].
  - rewrite lookup_insert_eq in H. injection H as <-. left. now left.
  - rewrite lookup_insert_ne in H by assumption. now right.
Qed.

Lemma fold_record_results_entry rs acc h s m :
  In (h, s, m) rs ->
  is_Some (tally_results (fold_left record_result rs acc) !! h).
Proof.
  assert (Hkeep : forall rs acc,
             is_Some (tally_results acc !! h) ->
             is_Some (tally_results (fold_left record_result rs acc) !! h)).
  { clear. induction rs as [|[[h' s'] m'] rs IH]; intros acc H; [exact H|].
    cbn [fold_left]. apply IH. simpl.
    destruct (decide (h' = h)) as [->|Hne].
    - rewrite lookup_insert_eq. eauto.
    - now rewrite lookup_insert_ne. }
  revert acc. induction rs as [|r rs IH]; intros acc Hin; [destruct Hin|].
  destruct Hin as [->|Hin]; cbn [fold_left]; [|now apply IH].
  apply Hkeep. simpl. rewrite lookup_insert_eq. eauto.
Qed.

Lemma completed_all hosts commands :
  map (fun r => fst (fst r)) (completed hosts commands (seq 0 (length hosts)))
  = hosts.
Proof.
  unfold completed.
  assert (H : forall front back,
             map (fun r => fst (fst r))
               (omap (fun task =>
                        (fun host => on_host task host commands)
                          <$> (front ++ back) !! task)
                     (seq (length front) (length back)))
             = back).
  { intros front back. revert front.
    induction back as [|h back IH]; intros front; [reflexivity|].
    cbn [length seq omap list_omap].
    rewrite list_lookup_middle by reflexivity. cbn [fmap option_fmap option_map].
    cbn [map]. rewrite run_ssh_command_on_host_name. f_equal.
    specialize (IH (front ++ [h])).
    rewrite <- app_assoc, length_app in IH. cbn [app length] in IH.
    rewrite Nat.add_1_r in IH. exact IH. }
  exact (H [] hosts).
Qed.

Lemma completed_origin hosts commands order r :
  In r (completed hosts commands order) <->
  exists task, In task order /\ hosts !! task = Some (fst (fst r))
               /\ r = on_host task (fst (fst r)) commands.
Proof.
  unfold completed. rewrite <- !list_elem_of_In, list_elem_of_omap.
  split.
  - intros (task & Hin & Hr). exists task.
    destruct (hosts !! task) as [host|] eqn:E; [|discriminate].
    injection Hr as <-. rewrite run_ssh_command_on_host_name.
    rewrite <- list_elem_of_In. auto.
  - intros (task & Hin & Hh & Hr). exists task.
    rewrite list_elem_of_In. split; [exact Hin|].
    rewrite Hh. cbn. now rewrite <- Hr.
Qed.

(** X18.  When every task completes, the two lists of the report share
    out the hosts: together they are the hosts submitted, in some order,
    and [results] has an entry for each host and for nothing else.  If no
    host is listed twice, the entry of a host is what its task handed
    back, and the host is in [successful_hosts] when that says success
    and in [failed_hosts] otherwise, never in both. *)
Theorem run_report_partition (hosts commands : list str)
    (completion_order : list nat) :
  Permutation completion_order (seq 0 (length hosts)) ->
  let r := report hosts commands completion_order in
  Permutation (successful_hosts r ++ failed_hosts r) hosts
  /\ (forall host, is_Some (results r !! host) <-> In host hosts)
  /\ (NoDup hosts ->
      forall task host,
        hosts !! task = Some host ->
        let done := on_host task host commands in
        results r !! host = Some (snd (fst done), snd done)
        /\ (In host (successful_hosts r) <-> snd (fst done) = true)
        /\ (In host (failed_hosts r) <-> snd (fst done) = false)).
Proof.
  intros Hperm r.
  set (rs := completed hosts commands completion_order).
  assert (Hrs : Permutation rs
                  (completed hosts commands (seq 0 (length hosts)))).
  { unfold rs, completed. now rewrite Hperm. }
  assert (Hnames : Permutation (map (fun r => fst (fst r)) rs) hosts).
  { rewrite Hrs. now rewrite completed_all. }
  assert (Hs : successful_hosts r
               = map (fun r => fst (fst r))
                   (List.filter (fun r => snd (fst r)) rs)).
  { unfold r, report, run_ssh_commands_multi_host. cbn [successful_hosts].
    now rewrite process_completed_fold, fold_record_successful. }
  assert (Hf : failed_hosts r
               = map (fun r => fst (fst r))
                   (List.filter (fun r => negb (snd (fst r))) rs)).
  { unfold r, report, run_ssh_commands_multi_host. cbn [failed_hosts].
    now rewrite process_completed_fold, fold_record_failed. }
  assert (Hres : results r
                 = tally_results
                     (fold_left record_result rs
                        {| tally_results := ∅; tally_successful := [];
                           tally_failed := [] |})).
  { unfold r, report, run_ssh_commands_multi_host. cbn [results].
    now rewrite process_completed_fold. }
  assert (Hin : forall x, In x rs <->
                  exists task, hosts !! task = Some (fst (fst x))
                               /\ x = on_host task (fst (fst x)) commands).
  { intros x. unfold rs. rewrite completed_origin. split.
    - intros (task & _ & H). eauto.
    - intros (task & Hh & Hx). exists task. split; [|auto].
      apply Permutation_in with (seq 0 (length hosts));
        [now apply Permutation_sym|].
      apply in_seq. apply lookup_lt_Some in Hh. lia. }
  split; [|split].
  - rewrite Hs, Hf, <- Hnames, <- map_app. apply Permutation_map.
    clear. induction rs as [|[[h s] m] rs IH]; [constructor|].
    destruct s; simpl.
    + now constructor.
    + apply Permutation_sym, Permutation_cons_app. now apply Permutation_sym.
  - intros host. rewrite Hres. split.
    + intros [v Hv]. apply fold_record_results_origin in Hv as [Hv|Hv].
      * apply Permutation_in with (map (fun r => fst (fst r)) rs);
          [assumption|].
        apply in_map_iff. eexists. split; [|exact Hv]. reflexivity.
      * cbn [tally_results] in Hv. rewrite lookup_empty in Hv. discriminate.
    + intros Hh. apply Permutation_in with (l' := map (fun r => fst (fst r)) rs)
        in Hh; [|now apply Permutation_sym].
      apply in_map_iff in Hh as ([[h s] m] & <- & Hx).
      eapply fold_record_results_entry. exact Hx.
  - intros Hnd task host Hhost done.
    assert (Hdone : In done rs).
    { apply Hin. exists task. unfold done.
      rewrite run_ssh_command_on_host_name. auto. }
    assert (Hname : fst (fst done) = host)
      by apply run_ssh_command_on_host_name.
    assert (Huniq : forall x, In x rs -> fst (fst x) = host -> x = done).
    { intros x Hx Hxh. apply Hin in Hx as (task' & Hh' & Hx).
      rewrite Hxh in Hh', Hx.
      assert (Hsame : task' = task)
        by exact (NoDup_lookup hosts task' task host
                    (proj2 (NoDup_ListNoDup hosts) Hnd) Hh' Hhost).
      rewrite Hsame in Hx. exact Hx. }
    split; [|split].
    + destruct (fold_record_results_entry rs
                  {| tally_results := ∅; tally_successful := [];
                     tally_failed := [] |} host (snd (fst done)) (snd done))
        as [v Hv].
      { rewrite <- Hname. now destruct done as [[? ?] ?]. }
      rewrite Hres, Hv. f_equal.
      apply fold_record_results_origin in Hv as [Hv|Hv].
      * apply Huniq in Hv; [|reflexivity]. rewrite <- Hv. now destruct v.
      * cbn [tally_results] in Hv. rewrite lookup_empty in Hv. discriminate.
    + rewrite Hs, in_map_iff. split.
      * intros (x & Hxh & Hx). apply filter_In in Hx as [Hx Hok].
        now rewrite <- (Huniq x Hx Hxh).
      * intros Hok. exists done. split; [exact Hname|].
        apply filter_In. auto.
    + rewrite Hf, in_map_iff. split.
      * intros (x & Hxh & Hx). apply filter_In in Hx as [Hx Hok].
        apply negb_true_iff in Hok. now rewrite <- (Huniq x Hx Hxh).
      * intros Hok. exists done. split; [exact Hname|].
        apply filter_In. split; [assumption|]. now apply negb_true_iff.
Qed.

End Partition.

Lemma run_report_partition_witness :
  Permutation
    (successful_hosts
       (run_ssh_commands_multi_host mixed_outcomes
          (fun task hostname commands => mixed_outcomes task hostname [])
          three_hosts [py "show version"] [2; 0; 1]%nat)
     ++ failed_hosts
          (run_ssh_commands_multi_host mixed_outcomes
             (fun task hostname commands => mixed_outcomes task hostname [])
             three_hosts [py "show version"] [2; 0; 1]%nat))
    three_hosts.
Proof.
  apply (run_report_partition mixed_outcomes
           (fun task hostname commands => mixed_outcomes task hostname [])
           three_hosts [py "show version"] [2; 0; 1]%nat).
  apply Permutation_sym.
  apply (perm_trans (l' := [0; 2; 1]%nat)); repeat constructor.
Defined.

(** ** Cleaning of the harvested output *)

(** What a match leaves is the end of what it was given. *)
Lemma m_suffix r :
  forall s k rest,
    (forall s' rest', k s' = Some rest' -> suffix rest' s') ->
    m r s k = Some rest -> suffix rest s.
Proof.
  induction r as [|p|a IHa b IHb|a IHa]; intros s k rest Hk; cbn [m].
  - apply Hk.
  - destruct s as [|c t]; [discriminate|].
    destruct (p c); [|discriminate].
    intros H. apply Hk in H. now apply suffix_cons_r.
  - apply IHa. intros s' rest'. now apply IHb.
  - revert rest. generalize (length s) at 1. intros n. revert s.
    induction n as [|n IHn]; intros s rest.
    + apply Hk.
    + match goal with
      | |- context [m a s ?k'] => destruct (m a s k') as [rest'|] eqn:E
      end.
      * intros [= <-]. revert E. apply IHa. intros s' rest''.
        destruct (length s' <? length s)%nat; [|discriminate].
        apply IHn.
      * apply Hk.
Qed.

Lemma match_at_suffix p s rest : match_at p s = Some rest -> suffix rest s.
Proof.
  unfold match_at. apply m_suffix. intros s' rest'.
  destruct (to_end p).
  - unfold at_end. destruct s' as [|c [|d t]]; try discriminate.
    + now intros [= <-].
    + destruct (Ascii.eqb c newline); [now intros [= <-]|discriminate].
  - now intros [= <-].
Qed.

Lemma re_sub_from_sublist fuel p :
  forall s, sublist (re_sub_from fuel p s) s.
Proof.
  induction fuel as [|fuel IH]; intros s; [reflexivity|].
  destruct s as [|c t]; [reflexivity|]. cbn [re_sub_from].
  destruct (match_at p (c :: t)) as [rest|] eqn:E;
    [|now apply sublist_skip].
  destruct (length rest <? length (c :: t))%nat; [|now apply sublist_skip].
  apply match_at_suffix in E as [k ->]. apply sublist_inserts_l, IH.
Qed.

Lemma re_sub_sublist p s : sublist (re_sub p s) s.
Proof. apply re_sub_from_sublist. Qed.

Lemma remove_char_sublist c s : sublist (remove_char c s) s.
Proof.
  induction s as [|x s IH]; [reflexivity|].
  unfold remove_char in *. simpl.
  destruct (negb (Ascii.eqb x c)); [now apply sublist_skip|].
  now apply sublist_cons.
Qed.

Lemma strip_by_sublist p s : sublist (strip_by p s) s.
Proof.
  unfold strip_by.
  destruct (lstrip_by_suffix p s) as [a Ha].
  destruct (rstrip_by_prefix p (lstrip_by p s)) as [r Hr].
  rewrite Ha at 2. rewrite Hr at 2.
  apply sublist_inserts_l, sublist_inserts_r. reflexivity.
Qed.

Lemma sublist_In {A} (l k : list A) x : sublist l k -> In x l -> In x k.
Proof.
  intros Hs Hin. apply list_elem_of_In. apply list_elem_of_In in Hin.
  eapply elem_of_sublist; eauto.
Qed.

Lemma clean_line_of_sublist (line : str) :
  sublist (clean_line_of line) line.
Proof.
  unfold clean_line_of. cbv zeta.
  etransitivity; [apply strip_by_sublist|].
  do 2 (etransitivity; [apply remove_char_sublist|]).
  do 3 (etransitivity; [apply re_sub_sublist|]). apply re_sub_sublist.
Qed.

Lemma strip_remove_char c d s :
  ~ In c (strip (remove_char d (remove_char c s))).
Proof.
  intros H. apply (sublist_In _ _ _ (strip_by_sublist _ _)) in H.
  apply (sublist_In _ _ _ (remove_char_sublist _ _)) in H.
  apply remove_char_spec in H as [_ H]. now apply H.
Qed.

Lemma strip_remove_char_outer c s : ~ In c (strip (remove_char c s)).
Proof.
  intros H. apply (sublist_In _ _ _ (strip_by_sublist _ _)) in H.
  apply remove_char_spec in H as [_ H]. now apply H.
Qed.

(** X19.  The cleaning of a line only removes characters: what is left
    is a subsequence of the line; it holds no carriage return and no
    backspace, and no blank at either end. *)
Theorem clean_line_of_only_removes (line : str) :
  sublist (clean_line_of line) line
  /\ ~ In carriage_return (clean_line_of line)
  /\ ~ In backspace (clean_line_of line)
  /\ head_ok is_space (clean_line_of line) = true
  /\ last_ok is_space (clean_line_of line) = true.
Proof.
  split; [apply clean_line_of_sublist|].
  unfold clean_line_of. cbv zeta.
  split; [apply strip_remove_char|].
  split; [apply strip_remove_char_outer|].
  split; [apply head_ok_strip|apply last_ok_strip].
Qed.

Lemma split_pieces_without sep s piece :
  In piece (split sep s) -> ~ In sep piece.
Proof.
  intros Hin Hsep.
  pose proof (split_pieces_no_sep sep s) as H.
  rewrite forallb_forall in H. specialize (H _ Hin).
  rewrite forallb_forall in H. specialize (H _ Hsep).
  now rewrite Ascii.eqb_refl in H.
Qed.

Lemma clean_lines_kept command lines :
  forall command_found,
    (forall l, In l lines -> ~ In newline l) ->
    Forall kept_line (clean_lines command command_found lines)
    /\ sublist (clean_lines command command_found lines)
         (map (fun l => clean_line_of (strip l)) lines).
Proof.
  induction lines as [|original_line rest IH]; intros command_found Hnl.
  - split; [constructor|reflexivity].
  - assert (Hrest : forall l, In l rest -> ~ In newline l)
      by (intros l Hl; apply Hnl; now right).
    assert (Hskip : forall found,
               Forall kept_line (clean_lines command found rest)
               /\ sublist (clean_lines command found rest)
                    (map (fun l => clean_line_of (strip l))
                       (original_line :: rest))).
    { intros found. destruct (IH found Hrest) as [Hk Hs].
      split; [exact Hk|]. now apply sublist_cons. }
    cbn [clean_lines]. cbv zeta.
    destruct (strip original_line) as [|c line] eqn:Eline; [apply Hskip|].
    destruct (negb command_found && contains (strip command) (c :: line));
      [apply Hskip|].
    destruct (existsb _ shell_artifacts); [apply Hskip|].
    destruct (existsb _ shell_prompt_patterns); [apply Hskip|].
    destruct (clean_line_of (c :: line)) as [|d clean] eqn:Eclean;
      [apply Hskip|].
    destruct (existsb _ vyos_artifacts); [apply Hskip|].
    destruct (IH command_found Hrest) as [Hk Hs].
    pose proof (clean_line_of_sublist (c :: line)) as Hsub.
    assert (Hcr : ~ In carriage_return (clean_line_of (c :: line)))
      by apply strip_remove_char.
    assert (Hbs : ~ In backspace (clean_line_of (c :: line)))
      by apply strip_remove_char_outer.
    assert (Hh : head_ok is_space (clean_line_of (c :: line)) = true)
      by apply head_ok_strip.
    assert (Hl : last_ok is_space (clean_line_of (c :: line)) = true)
      by apply last_ok_strip.
    rewrite Eclean in *. split.
    + constructor; [|exact Hk].
      split; [discriminate|]. split; [exact Hh|]. split; [exact Hl|].
      split; [|split; assumption].
      intros Hin. apply (sublist_In _ _ _ Hsub) in Hin.
      rewrite <- Eline in Hin.
      apply (sublist_In _ _ _ (strip_by_sublist _ _)) in Hin.
      apply (Hnl original_line); [now left|exact Hin].
    + cbn [map]. rewrite Eline, Eclean. now apply sublist_skip.
Qed.

(** X20.  The cleaned output is the kept lines joined by newlines, the
    last [strip] changing nothing.  Each kept line is the cleaning of a
    line of the harvested text, in the same order; none is empty, none
    has a blank at either end, a carriage return or a backspace; and
    splitting the cleaned output at its newlines gives the kept lines
    back.  The third component of the result is always empty, and
    success is reported only with a non-empty output. *)
Theorem cleaned_output_of_lines (command output : str) :
  let kept := clean_lines command false (split newline output) in
  cleaned_output_of command output = join newline kept
  /\ Forall kept_line kept
  /\ sublist kept
       (map (fun l => clean_line_of (strip l)) (split newline output))
  /\ (kept = [] -> cleaned_output_of command output = [])
  /\ (kept <> [] ->
      split newline (cleaned_output_of command output) = kept)
  /\ snd (shell_result command output) = []
  /\ (fst (fst (shell_result command output)) = true ->
      snd (fst (shell_result command output)) <> []).
Proof.
  intros kept.
  destruct (clean_lines_kept command (split newline output) false) as [Hk Hs].
  { intros l. apply split_pieces_without. }
  fold kept in Hk, Hs.
  assert (Hjoin : cleaned_output_of command output = join newline kept).
  { unfold cleaned_output_of. fold kept. unfold strip.
    destruct kept as [|l ls] eqn:E; [reflexivity|].
    apply strip_by_fixed.
    - inversion Hk as [|? ? (Hne & Hh & _) _]; subst.
      now apply head_ok_join.
    - apply last_ok_join; [discriminate|].
      eapply List.Forall_impl; [|exact Hk].
      intros x (Hne & _ & Hl & _). auto. }
  split; [exact Hjoin|]. split; [exact Hk|]. split; [exact Hs|].
  split; [|split; [|split]].
  - intros Hnil. now rewrite Hjoin, Hnil.
  - intros Hne. rewrite Hjoin. apply split_join; [exact Hne|].
    eapply List.Forall_impl; [|exact Hk].
    intros x (_ & _ & _ & Hnl & _). apply forallb_forall.
    intros c Hc. apply negb_true_iff, Ascii.eqb_neq. intros ->. auto.
  - reflexivity.
  - unfold shell_result. cbn [fst snd]. unfold success_determination.
    destruct (cleaned_output_of command output); [|discriminate].
    cbv zeta. intros H. exfalso. revert H. vm_compute. discriminate.
Qed.

(** ** Output harvester: a silent device, and what the buffer keeps *)

Section Silent.

Variable ch : channel.

Hypothesis never_ready : forall k, recv_ready ch k = false.

Lemma silent_step e0 h c' :
  untouched e0 h -> step ch (Collecting h) = inl c' ->
  exists h', c' = Collecting h' /\ untouched e0 h'.
Proof.
  intros (Ho & Hc & Hl). unfold step. rewrite never_ready.
  destruct (elapsed h <? max_total_wait); [|discriminate].
  destruct (elapsed h >? hard_timeout); [discriminate|].
  destruct (elapsed h - last_data_time h >=? no_data_timeout);
    [discriminate|].
  intros [= <-]. eexists. split; [reflexivity|].
  unfold untouched, after_sleep. cbn. auto.
Qed.

Lemma silent_reaches e0 c c' :
  (exists h, c = Collecting h /\ untouched e0 h) -> reaches ch c c' ->
  exists h', c' = Collecting h' /\ untouched e0 h'.
Proof.
  intros Hc Hreach. induction Hreach as [c|c c1 c2 Hstep _ IH]; [exact Hc|].
  apply IH. destruct Hc as (h & -> & Hu). eapply silent_step; eauto.
Qed.

(** Without data, what a receive costs is not looked at. *)
Lemma silent_run_cost n c :
  run n ch c
  = run n {| recv_ready := recv_ready ch; recv_chars := recv_chars ch;
             recv_cost := fun _ => 1 |} c.
Proof.
  revert c. induction n as [|n IH]; intros c; [reflexivity|].
  cbn [run].
  assert (Hstep : step ch c
                  = step {| recv_ready := recv_ready ch;
                            recv_chars := recv_chars ch;
                            recv_cost := fun _ => 1 |} c).
  { destruct c as [h|d k h]; unfold step; cbn [recv_ready];
      rewrite never_ready; reflexivity. }
  rewrite <- Hstep. destruct (step ch c) as [c'|r]; [apply IH|reflexivity].
Qed.

(** X21.  A device that never has anything to read.  The loop ends; it
    never enters the drain loop and never counts a chunk, and the buffer
    stays empty as long as the loop goes on.  If the loop ends by
    silence, the buffer is empty and the clock shows 3 s or more since
    the loop was entered; if it ends on the hang threshold, the buffer
    holds the time-out marker and nothing else.  From an empty buffer the
    result is a failure with an empty output, whatever the command. *)
Theorem silent_device_fails (e0 : Z) (command : str) :
  (forall c,
      reaches ch (start e0) c ->
      exists h, c = Collecting h /\ untouched e0 h)
  /\ (forall c r h,
        reaches ch (start e0) c -> step ch c = inr (r, h) ->
        chunk_count h = 0
        /\ match r with
           | Silence => output h = [] /\ no_data_timeout <= elapsed h - e0
           | HangDetected =>
               output h = [Text (timeout_marker (elapsed h))]
               /\ hard_timeout < elapsed h
           | TotalWaitReached => output h = []
           | DrainSilence | DrainTimeout => False
           end)
  /\ (0 <= e0 -> exists r h, run enough_fuel ch (start e0) = Some (r, h))
  /\ shell_result command [] = (false, [], []).
Proof.
  assert (Hstart : exists h, start e0 = Collecting h /\ untouched e0 h).
  { eexists. split; [reflexivity|]. unfold untouched. cbn. auto. }
  split; [|split; [|split]].
  - intros c Hreach. eapply silent_reaches; eauto.
  - intros c r h Hreach.
    destruct (silent_reaches e0 _ _ Hstart Hreach)
      as (h0 & -> & Ho & Hc & Hl).
    unfold step. rewrite never_ready.
    destruct (elapsed h0 <? max_total_wait);
      [|intros [= <- <-]; auto].
    destruct (Z.gtb_spec (elapsed h0) hard_timeout).
    + intros [= <- <-]. cbn [chunk_count output elapsed]. rewrite Ho. auto.
    + destruct (Z.geb_spec (elapsed h0 - last_data_time h0) no_data_timeout);
        [|discriminate].
      intros [= <- <-]. rewrite <- Hl. auto.
  - intros He0. rewrite silent_run_cost.
    destruct (run_terminates
                {| recv_ready := recv_ready ch; recv_chars := recv_chars ch;
                   recv_cost := fun _ => 1 |}
                (fun _ => Z.le_refl 1) enough_fuel (start e0))
      as [[r h] Hrun]; [now apply turns_left_start|].
    eauto.
  - reflexivity.
Qed.

End Silent.

Lemma silent_device_fails_witness :
  (forall c,
      reaches silent_channel (start 0) c ->
      exists h, c = Collecting h /\ untouched 0 h)
  /\ (forall c r h,
        reaches silent_channel (start 0) c ->
        step silent_channel c = inr (r, h) ->
        chunk_count h = 0
        /\ match r with
           | Silence => output h = [] /\ no_data_timeout <= elapsed h - 0
           | HangDetected =>
               output h = [Text (timeout_marker (elapsed h))]
               /\ hard_timeout < elapsed h
           | TotalWaitReached => output h = []
           | DrainSilence | DrainTimeout => False
           end)
  /\ (0 <= 0 ->
      exists r h, run enough_fuel silent_channel (start 0) = Some (r, h))
  /\ shell_result (py "show version") [] = (false, [], []).
Proof.
  exact (silent_device_fails silent_channel (fun _ => eq_refl) 0
           (py "show version")).
Defined.

Section Growth.

Variable ch : channel.

(** A receive does not turn the clock back. *)
Hypothesis receive_cost : forall k, 0 <= recv_cost ch k.

Lemma chunks_in_snoc o p :
  chunks_in (o ++ [p])
  = chunks_in o + (if is_received p then 1 else 0).
Proof.
  unfold chunks_in, len. rewrite List.filter_app, length_app. simpl.
  destruct (is_received p); simpl; lia.
Qed.

Lemma step_counted e0 c c' :
  counted e0 (harvest_of c) -> step ch c = inl c' ->
  counted e0 (harvest_of c')
  /\ prefix (output (harvest_of c)) (output (harvest_of c'))
  /\ elapsed (harvest_of c) <= elapsed (harvest_of c')
  /\ (polls (harvest_of c) <= polls (harvest_of c'))%nat.
Proof.
  unfold counted.
  destruct c as [h|d k h]; cbn [harvest_of]; intros (Hc & Ht) Hstep;
    unfold step in Hstep; pose proof (receive_cost (polls h)) as Hcost.
  - destruct (elapsed h <? max_total_wait); [|discriminate].
    destruct (elapsed h >? hard_timeout); [discriminate|].
    destruct (recv_ready ch (polls h)).
    + destruct (output_len _ >? max_output_size);
        injection Hstep as <-; cbn [harvest_of elapsed last_data_time output
                                      chunk_count polls].
      * rewrite !chunks_in_snoc. cbn [is_received].
        repeat split; try (loop_constants; lia).
        rewrite <- app_assoc. now apply prefix_app_r.
      * rewrite !chunks_in_snoc. cbn [is_received].
        repeat split; try (loop_constants; lia).
        now apply prefix_app_r.
    + destruct (elapsed h - last_data_time h >=? no_data_timeout);
        [discriminate|].
      injection Hstep as <-. unfold after_sleep.
      cbn [harvest_of elapsed last_data_time output chunk_count polls].
      repeat split; try (loop_constants; lia). reflexivity.
  - destruct (elapsed h - d <? max_drain_time); [|discriminate].
    destruct (recv_ready ch (polls h)).
    + injection Hstep as <-.
      cbn [harvest_of elapsed last_data_time output chunk_count polls].
      repeat split; try (loop_constants; lia). reflexivity.
    + destruct (elapsed h - last_data_time h >=? no_data_timeout);
        [discriminate|].
      injection Hstep as <-. unfold after_sleep.
      cbn [harvest_of elapsed last_data_time output chunk_count polls].
      repeat split; try (loop_constants; lia). reflexivity.
Qed.

Lemma reaches_counted e0 c c' :
  counted e0 (harvest_of c) -> reaches ch c c' ->
  counted e0 (harvest_of c')
  /\ prefix (output (harvest_of c)) (output (harvest_of c'))
  /\ elapsed (harvest_of c) <= elapsed (harvest_of c')
  /\ (polls (harvest_of c) <= polls (harvest_of c'))%nat.
Proof.
  intros Hc Hreach. induction Hreach as [c|c c' c'' Hstep _ IH].
  - repeat split; try apply Hc; try lia. reflexivity.
  - destruct (step_counted e0 c c' Hc Hstep) as (Hc' & Hp & He & Hn).
    destruct (IH Hc') as (Hc'' & Hp' & He' & Hn').
    split; [exact Hc''|]. split; [now transitivity (output (harvest_of c'))|].
    split; lia.
Qed.

Lemma exit_counted e0 c r h :
  counted e0 (harvest_of c) -> step ch c = inr (r, h) ->
  counted e0 h
  /\ prefix (output (harvest_of c)) (output h)
  /\ elapsed h = elapsed (harvest_of c)
  /\ chunk_count h = chunk_count (harvest_of c).
Proof.
  unfold counted.
  destruct c as [h0|d k h0]; cbn [harvest_of]; intros (Hc & Ht) Hstep;
    unfold step in Hstep.
  - destruct (elapsed h0 <? max_total_wait);
      [|injection Hstep as <- <-; repeat split; try lia; reflexivity].
    destruct (elapsed h0 >? hard_timeout).
    + injection Hstep as <- <-.
      cbn [elapsed last_data_time output chunk_count polls].
      rewrite chunks_in_snoc. cbn [is_received].
      repeat split; try lia. now apply prefix_app_r.
    + destruct (recv_ready ch (polls h0)).
      * destruct (output_len _ >? max_output_size); discriminate.
      * destruct (elapsed h0 - last_data_time h0 >=? no_data_timeout);
          [|discriminate].
        injection Hstep as <- <-. repeat split; try lia; reflexivity.
  - destruct (elapsed h0 - d <? max_drain_time);
      [|injection Hstep as <- <-; repeat split; try lia; reflexivity].
    destruct (recv_ready ch (polls h0)); [discriminate|].
    destruct (elapsed h0 - last_data_time h0 >=? no_data_timeout);
      [|discriminate].
    injection Hstep as <- <-. repeat split; try lia; reflexivity.
Qed.

(** X22.  The buffer only grows: from one turn of the loop to any later
    one, and to the end of the loop, what it held is still there, at its
    head.  All along, [chunk_count] is the number of chunks of the
    channel in the buffer (the chunks that the drain loop discards are
    not counted), the clock does not go back, and the last data is not
    older than the entry into the loop. *)
Theorem buffer_only_grows (e0 : Z) (c : config) :
  reaches ch (start e0) c ->
  let h := harvest_of c in
  chunk_count h = chunks_in (output h)
  /\ e0 <= last_data_time h <= elapsed h
  /\ (forall c',
        reaches ch c c' ->
        prefix (output h) (output (harvest_of c'))
        /\ elapsed h <= elapsed (harvest_of c')
        /\ (polls h <= polls (harvest_of c'))%nat)
  /\ (forall r h',
        step ch c = inr (r, h') ->
        prefix (output h) (output h')
        /\ chunk_count h' = chunks_in (output h')
        /\ chunk_count h' = chunk_count h
        /\ elapsed h' = elapsed h).
Proof.
  intros Hreach h.
  assert (Hstart : counted e0 (harvest_of (start e0))).
  { unfold counted, start. cbn. unfold chunks_in, len. simpl. lia. }
  destruct (reaches_counted e0 _ _ Hstart Hreach) as (Hc & _).
  fold h in Hc. destruct Hc as [Hcount Htime].
  split; [exact Hcount|]. split; [exact Htime|]. split.
  - intros c' Hc'.
    destruct (reaches_counted e0 c c' (conj Hcount Htime) Hc')
      as (_ & Hp & He & Hn). auto.
  - intros r h' Hexit.
    destruct (exit_counted e0 c r h' (conj Hcount Htime) Hexit)
      as ((Hc' & _) & Hp & He & Hn).
    auto.
Qed.

End Growth.

Lemma buffer_only_grows_witness :
  let h := harvest_of (start 0) in
  chunk_count h = chunks_in (output h)
  /\ 0 <= last_data_time h <= elapsed h
  /\ (forall c',
        reaches trickling_channel (start 0) c' ->
        prefix (output h) (output (harvest_of c'))
        /\ elapsed h <= elapsed (harvest_of c')
        /\ (polls h <= polls (harvest_of c'))%nat)
  /\ (forall r h',
        step trickling_channel (start 0) = inr (r, h') ->
        prefix (output h) (output h')
        /\ chunk_count h' = chunks_in (output h')
        /\ chunk_count h' = chunk_count h
        /\ elapsed h' = elapsed h).
Proof.
  exact (buffer_only_grows trickling_channel (fun _ => Z.le_0_1) 0 (start 0)
           (reaches_here _ _)).
Defined.

(** ** Configuration from the .env file *)

Lemma parse_host_list_valid ip hosts_str :
  (length (parse_host_list ip hosts_str) <= 100)%nat
  /\ Forall (fun h => validate_hostname ip h = true)
       (parse_host_list ip hosts_str).
Proof.
  rewrite parse_host_list_prefix. change (Z.to_nat max_hosts) with 100%nat.
  split; [rewrite length_firstn; lia|].
  apply List.Forall_forall. intros h Hin.
  assert (Hin' : In h (valid_host_entries ip hosts_str)).
  { rewrite <- (firstn_skipn 100 (valid_host_entries ip hosts_str)).
    apply in_or_app. now left. }
  unfold valid_host_entries in Hin'.
  now apply collect_hosts_origin in Hin' as (piece & _ & _ & Hv).
Qed.

Lemma parse_command_list_valid commands_str :
  (length (parse_command_list commands_str) <= 50)%nat
  /\ Forall (fun c => validate_command c = true)
       (parse_command_list commands_str).
Proof.
  rewrite parse_command_list_prefix.
  change (Z.to_nat max_commands) with 50%nat.
  split; [rewrite length_firstn; lia|].
  apply List.Forall_forall. intros c Hin.
  assert (Hin' : In c (valid_command_entries commands_str)).
  { rewrite <- (firstn_skipn 50 (valid_command_entries commands_str)).
    apply in_or_app. now left. }
  pose proof (valid_command_entries_valid commands_str) as Hall.
  rewrite List.Forall_forall in Hall. now apply Hall.
Qed.

Lemma empty_validated ip : EnvFile.validated ip EnvFile.empty.
Proof.
  unfold EnvFile.validated. simpl.
  repeat split; try lia; try constructor. discriminate.
Qed.

Lemma assign_validated ip cfg line :
  EnvFile.validated ip cfg -> EnvFile.validated ip (EnvFile.assign ip cfg line).
Proof.
  intros Hcfg. unfold EnvFile.assign. cbv zeta.
  destruct (strip line) as [|c l]; [exact Hcfg|].
  destruct (starts_with (py "#") (c :: l)); [exact Hcfg|].
  destruct (negb (contains (py "=") (c :: l))); [exact Hcfg|].
  destruct (EnvFile.split_once "=" (c :: l)) as [k v].
  destruct Hcfg as (Hh & Hhv & Hu & Hc & Hcv).
  destruct (str_eqb (strip k) (py "SSH_HOST")).
  { destruct (parse_host_list_valid ip (EnvFile.unquote (strip v))).
    unfold EnvFile.validated. cbn. auto. }
  destruct (str_eqb (strip k) (py "SSH_USER")).
  { destruct (validate_username (EnvFile.unquote (strip v))) eqn:Ev;
      unfold EnvFile.validated; cbn; repeat split; auto.
    now intros u [= <-]. }
  destruct (str_eqb (strip k) (py "SSH_PASSWORD")).
  { unfold EnvFile.validated. cbn. auto. }
  destruct (str_eqb (strip k) (py "SSH_COMMANDS")).
  { destruct (parse_command_list_valid (EnvFile.unquote (strip v))).
    unfold EnvFile.validated. cbn. auto. }
  unfold EnvFile.validated. auto.
Qed.

Lemma fold_assign_validated ip lines :
  forall cfg,
    EnvFile.validated ip cfg ->
    EnvFile.validated ip (fold_left (EnvFile.assign ip) lines cfg).
Proof.
  induction lines as [|line rest IH]; intros cfg Hcfg; [exact Hcfg|].
  cbn [fold_left]. now apply IH, assign_validated.
Qed.

Lemma from_environment_validated ip getenv :
  EnvFile.validated ip (EnvFile.from_environment ip getenv).
Proof.
  unfold EnvFile.from_environment, EnvFile.validated.
  cbn [EnvFile.hosts EnvFile.username EnvFile.commands].
  split; [|split; [|split; [|split]]].
  - destruct (getenv (py "SSH_HOST")) as [[|c t]|]; try (simpl; lia).
    apply parse_host_list_valid.
  - destruct (getenv (py "SSH_HOST")) as [[|c t]|]; try constructor.
    apply parse_host_list_valid.
  - intros u. destruct (getenv (py "SSH_USER")) as [[|c t]|];
      try discriminate.
    destruct (validate_username (c :: t)) eqn:Ev; [|discriminate].
    now intros [= <-].
  - destruct (getenv (py "SSH_COMMANDS")) as [[|c t]|]; try (simpl; lia).
    apply parse_command_list_valid.
  - destruct (getenv (py "SSH_COMMANDS")) as [[|c t]|]; try constructor.
    apply parse_command_list_valid.
Qed.

(** X23.  Whatever the path, the file and the way it is read,
    [load_ssh_config_from_env] returns a configuration with at most 100
    hosts, each of which passes [validate_hostname], a user name that
    passes [validate_username] if there is one, and at most 50 commands,
    each of which passes [validate_command].  A path that is empty,
    absolute or holds [..] or a backslash, a file that is missing or
    larger than 1 MiB give the empty configuration. *)
Theorem load_ssh_config_from_env_validated ip (env_file : str)
    (file : EnvFile.file_state) (r : EnvFile.reader) :
  let cfg := EnvFile.load_ssh_config_from_env ip env_file file r in
  EnvFile.validated ip cfg
  /\ (EnvFile.bad_path env_file = true -> cfg = EnvFile.empty)
  /\ (file = EnvFile.Absent -> cfg = EnvFile.empty)
  /\ (forall file_size,
        file = EnvFile.Size file_size -> 1024 * 1024 < file_size ->
        cfg = EnvFile.empty).
Proof.
  intros cfg. subst cfg. unfold EnvFile.load_ssh_config_from_env.
  split; [|split; [|split]].
  - destruct (EnvFile.bad_path env_file); [apply empty_validated|].
    destruct file as [| |file_size]; try apply empty_validated.
    destruct (file_size >? 1024 * 1024); [apply empty_validated|].
    destruct r as [[getenv|]|lines]; [|apply empty_validated|].
    + apply from_environment_validated.
    + unfold EnvFile.read_lines. apply fold_assign_validated, empty_validated.
  - now intros ->.
  - intros ->. now destruct (EnvFile.bad_path env_file).
  - intros file_size -> Hbig. destruct (EnvFile.bad_path env_file);
      [reflexivity|].
    destruct (Z.gtb_spec file_size (1024 * 1024)); [reflexivity|lia].
Qed.

Lemma assign_passed_over ip cfg line :
  EnvFile.passed_over line = true -> EnvFile.assign ip cfg line = cfg.
Proof.
  unfold EnvFile.passed_over, EnvFile.assign. cbv zeta.
  destruct (strip line) as [|c l]; [reflexivity|]. now intros ->.
Qed.

Lemma fold_assign_filter ip lines :
  forall cfg,
    fold_left (EnvFile.assign ip) lines cfg
    = fold_left (EnvFile.assign ip)
        (List.filter (fun l => negb (EnvFile.passed_over l)) lines) cfg.
Proof.
  induction lines as [|line rest IH]; intros cfg; [reflexivity|].
  cbn [fold_left List.filter].
  destruct (EnvFile.passed_over line) eqn:E; cbn [negb fold_left].
  - now rewrite assign_passed_over.
  - apply IH.
Qed.

(** X24.  The line-by-line reader looks at the first 1000 lines only,
    blank lines and comments counting among them: what follows the
    1000th line never matters, and a file that begins with 1000 blank or
    comment lines gives the empty configuration whatever follows.
    Within the first 1000 lines, blank lines and comments can be taken
    out without changing the result. *)
Theorem read_lines_first_thousand ip (front back : list str) :
  length front = 1000%nat ->
  EnvFile.read_lines ip (front ++ back) = EnvFile.read_lines ip front
  /\ (forallb EnvFile.passed_over front = true ->
      EnvFile.read_lines ip (front ++ back) = EnvFile.empty)
  /\ (forall lines,
        (length lines <= 1000)%nat ->
        EnvFile.read_lines ip lines
        = EnvFile.read_lines ip
            (List.filter (fun l => negb (EnvFile.passed_over l)) lines)).
Proof.
  intros Hlen.
  assert (Hfront : firstn 1000 (front ++ back) = front).
  { rewrite <- Hlen. rewrite firstn_app, Nat.sub_diag, firstn_all. simpl.
    now rewrite app_nil_r. }
  unfold EnvFile.read_lines. rewrite Hfront.
  split; [|split].
  - rewrite <- Hlen. now rewrite firstn_all.
  - intros Hall. rewrite fold_assign_filter.
    replace (List.filter (fun l => negb (EnvFile.passed_over l)) front)
      with (@nil str); [reflexivity|].
    clear -Hall. induction front as [|l front IH]; [reflexivity|].
    simpl in *. apply andb_prop in Hall as [Hl Hrest]. rewrite Hl. simpl.
    now apply IH.
  - intros lines Hle.
    rewrite (firstn_all2 lines) by lia.
    rewrite firstn_all2.
    + apply fold_assign_filter.
    + pose proof (List.filter_length_le
                    (fun l => negb (EnvFile.passed_over l)) lines). lia.
Qed.

Lemma read_lines_first_thousand_witness :
  EnvFile.read_lines (fun _ => false)
    (repeat (py "# comment") 1000 ++ [py "SSH_PASSWORD=secret"])
  = EnvFile.read_lines (fun _ => false) (repeat (py "# comment") 1000).
Proof.
  destruct (read_lines_first_thousand (fun _ => false)
              (repeat (py "# comment") 1000) [py "SSH_PASSWORD=secret"]
              (repeat_length (py "# comment") 1000)) as [H _].
  exact H.
Defined.

(** ** The application *)

Lemma keep_valid_Some valid items kept :
  App.keep_valid valid items = Some kept ->
  kept = List.filter valid items
  /\ Forall (fun x => valid x = true) kept.
Proof.
  unfold App.keep_valid. cbv zeta.
  assert (Hf : Forall (fun x => valid x = true) (List.filter valid items)).
  { apply List.Forall_forall. intros x Hx. now apply filter_In in Hx. }
  destruct (List.filter (fun x => negb (valid x)) items) as [|bad rest] eqn:E.
  - intros [= <-].
    assert (Hall : Forall (fun x => valid x = true) items).
    { apply List.Forall_forall. intros x Hx.
      destruct (valid x) eqn:Ev; [reflexivity|].
      assert (Hin : In x (List.filter (fun x => negb (valid x)) items)).
      { apply filter_In. split; [assumption|]. now rewrite Ev. }
      rewrite E in Hin. destruct Hin. }
    split; [|exact Hall].
    clear -Hall. induction Hall as [|x l Hx _ IH]; [reflexivity|].
    simpl. rewrite Hx. now f_equal.
  - destruct (List.filter valid items) as [|good more]; [discriminate|].
    intros [= <-]. auto.
Qed.

Lemma truthy_text s : App.truthy s = true -> App.text s <> [].
Proof. destruct s as [[|c t]|]; simpl; congruence. Qed.

Lemma run_application_launch ip cpu_count a loaded getpass csv input l :
  App.run_application ip cpu_count a loaded getpass csv input = App.Launch l ->
  exists final_hosts final_username final_password candidates,
    App.launch_hosts l = final_hosts
    /\ App.launch_username l = App.text final_username
    /\ App.launch_password l = App.text final_password
    /\ App.launch_port l = App.port a
    /\ App.launch_timeout l = App.timeout a
    /\ final_hosts <> []
    /\ Forall (fun h => validate_hostname ip h = true) final_hosts
    /\ App.truthy final_username = true
    /\ validate_username (App.text final_username) = true
    /\ App.truthy final_password = true
    /\ App.launch_commands l <> []
    /\ App.choose_commands a (negb (App.no_env a))
         (if negb (App.no_env a) then loaded else EnvFile.empty) csv input
       = Some candidates
    /\ App.launch_commands l = List.filter validate_command candidates
    /\ Forall (fun c => validate_command c = true) (App.launch_commands l).
Proof.
  unfold App.run_application. cbv zeta.
  destruct (App.interactive a); [discriminate|].
  set (env_config := if negb (App.no_env a) then loaded else EnvFile.empty).
  set (final_hosts := if App.truthy (App.hostname a)
                      then [App.text (App.hostname a)]
                      else EnvFile.hosts env_config).
  set (final_username := if App.truthy (App.username a) then App.username a
                         else EnvFile.username env_config).
  match goal with
  | |- match ?p with _ => _ end = _ -> _ =>
      destruct p as [final_password|]; [|discriminate]
  end.
  destruct (App.keep_valid (validate_hostname ip) final_hosts)
    as [hosts|] eqn:Eh; [|discriminate].
  apply keep_valid_Some in Eh as [_ Hhosts].
  destruct (App.truthy final_username
            && negb (validate_username (App.text final_username))) eqn:Eu;
    [discriminate|].
  destruct (App.nonempty hosts && App.truthy final_username
            && App.truthy final_password) eqn:Eall; [|discriminate].
  cbn [negb].
  apply andb_prop in Eall as [Eall Hpw]. apply andb_prop in Eall as [Hne Hu].
  rewrite Hu in Eu. cbn [andb] in Eu. apply negb_false_iff in Eu.
  assert (Hhne : hosts <> []) by (destruct hosts; [discriminate|discriminate]).
  destruct (App.choose_commands a (negb (App.no_env a)) env_config csv input)
    as [candidates|] eqn:Ec; [|discriminate].
  destruct (App.keep_valid validate_command candidates)
    as [commands|] eqn:Ek; [|discriminate].
  apply keep_valid_Some in Ek as [Hk Hvalid].
  destruct commands as [|c1 cs]; [discriminate|].
  intros Hl. exists hosts, final_username, final_password, candidates.
  destruct hosts as [|h1 [|h2 hs]]; [congruence| |].
  - destruct cs as [|c2 cs]; injection Hl as <-; cbn;
      repeat (split; [first [reflexivity|assumption|discriminate]|]);
      assumption.
  - injection Hl as <-. cbn.
    repeat (split; [first [reflexivity|assumption|discriminate]|]).
    assumption.
Qed.

(** X25.  Whatever the arguments, the .env file, the CSV file and what
    is typed, a call that [run_application] makes has at least one host
    and every host passes [validate_hostname]; the user name passes
    [validate_username]; the password is not empty; there is at least one
    command and every command passes [validate_command]; the port and the
    timeout are those of the arguments.  So, with a port that
    [validate_port] accepts, the validation at the head of [connect]
    passes for every host of the call. *)
Theorem run_application_launch_validated ip (cpu_count : Z) (a : App.args)
    (loaded : EnvFile.config) (getpass : str) (csv : csv_file) (input : str)
    (l : App.launch) :
  validate_port (App.port a) = true ->
  App.run_application ip cpu_count a loaded getpass csv input = App.Launch l ->
  App.launch_hosts l <> []
  /\ Forall (fun h => validate_hostname ip h = true) (App.launch_hosts l)
  /\ validate_username (App.launch_username l) = true
  /\ App.launch_password l <> []
  /\ App.launch_commands l <> []
  /\ Forall (fun c => validate_command c = true) (App.launch_commands l)
  /\ App.launch_port l = App.port a
  /\ App.launch_timeout l = App.timeout a
  /\ Forall (fun h =>
               connect_validation ip h (App.launch_username l)
                 (App.launch_password l) (App.launch_port l) = None)
       (App.launch_hosts l).
Proof.
  intros Hport Hl.
  apply run_application_launch in Hl
    as (hosts & user & pw & candidates & -> & -> & -> & -> & -> & Hne & Hh
        & Hu & Huv & Hpw & Hc & _ & _ & Hcv).
  apply truthy_text in Hpw.
  repeat (split; [assumption || reflexivity|]).
  eapply List.Forall_impl; [|exact Hh].
  intros h Hv. unfold connect_validation.
  rewrite Hv, Huv, Hport. cbn [negb].
  destruct (App.text pw); [congruence|reflexivity].
Qed.

Lemma run_application_launch_validated_witness :
  App.launch_hosts
    (App.RunSshCommand (py "r1.lab") (py "admin") (py "secret")
       (py "show version") 22 30 true) <> []
  /\ Forall (fun h => validate_hostname (fun _ => false) h = true)
       (App.launch_hosts
          (App.RunSshCommand (py "r1.lab") (py "admin") (py "secret")
             (py "show version") 22 30 true)).
Proof.
  destruct (run_application_launch_validated (fun _ => false) 4
              App.one_host_one_command EnvFile.empty (py "secret") NoSuchFile
              [] (App.RunSshCommand (py "r1.lab") (py "admin") (py "secret")
                    (py "show version") 22 30 true) eq_refl eq_refl)
    as (H1 & H2 & _).
  exact (conj H1 H2).
Defined.

Lemma choose_commands_candidates a loaded csv input :
  App.choose_commands a (negb (App.no_env a))
    (if negb (App.no_env a) then loaded else EnvFile.empty) csv input
  = Some (command_candidates a loaded csv).
Proof.
  unfold App.choose_commands, command_candidates. cbv zeta.
  destruct (App.truthy (App.command a)); [reflexivity|].
  destruct (App.no_env a); cbn [negb andb].
  - now destruct (load_commands_from_csv csv).
  - destruct (App.nonempty (EnvFile.commands loaded)); [reflexivity|].
    now destruct (load_commands_from_csv csv).
Qed.

(** X26.  [run_application] never asks for a command: what is typed at
    the prompt of its fourth branch has no effect, the branch being out
    of reach.  The password given on the command line has no effect
    either.  The commands of a call are the valid ones among those of the
    command line if there is one, else of the .env file if it is read and
    has some, else of SSH_COMMANDS.CSV. *)
Theorem run_application_command_source ip (cpu_count : Z) (a : App.args)
    (loaded : EnvFile.config) (getpass : str) (csv : csv_file)
    (input : str) :
  (forall input',
      App.run_application ip cpu_count a loaded getpass csv input'
      = App.run_application ip cpu_count a loaded getpass csv input)
  /\ (forall password,
         App.run_application ip cpu_count (with_password a password) loaded
           getpass csv input
         = App.run_application ip cpu_count a loaded getpass csv input)
  /\ (forall l,
         App.run_application ip cpu_count a loaded getpass csv input
         = App.Launch l ->
         App.launch_commands l
         = List.filter validate_command (command_candidates a loaded csv)).
Proof.
  split; [|split].
  - intros input'. unfold App.run_application. cbv zeta.
    now rewrite !choose_commands_candidates.
  - intros password. reflexivity.
  - intros l Hl.
    apply run_application_launch in Hl
      as (hosts & user & pw & candidates & _ & _ & _ & _ & _ & _ & _ & _ & _
          & _ & _ & Hc & Hf & _).
    rewrite choose_commands_candidates in Hc. injection Hc as <-. exact Hf.
Qed.

Lemma ask_Some valid answers value rest :
  App.ask valid answers = Some (value, rest) ->
  valid value = true /\ value <> []
  /\ (exists answer, In answer answers /\ value = strip answer)
  /\ incl rest answers.
Proof.
  induction answers as [|answer more IH]; [discriminate|].
  cbn [App.ask].
  assert (Hlater : App.ask valid more = Some (value, rest) ->
                   valid value = true /\ value <> []
                   /\ (exists x, In x (answer :: more) /\ value = strip x)
                   /\ incl rest (answer :: more)).
  { intros H. destruct (IH H) as (Hv & Hne & (x & Hx & Hs) & Hi).
    split; [assumption|]. split; [assumption|].
    split; [exists x; split; [now right|assumption]|].
    now apply incl_tl. }
  destruct (strip answer) as [|c t] eqn:Ea; [exact Hlater|].
  destruct (valid (c :: t)) eqn:Ev; [|exact Hlater].
  intros [= <- <-]. split; [assumption|]. split; [discriminate|].
  split; [exists answer; split; [now left|now symmetry]|].
  apply incl_tl, incl_refl.
Qed.

Lemma ask_number_Some int default valid answers n rest :
  valid default = true ->
  App.ask_number int default valid answers = Some (n, rest) ->
  valid n = true /\ incl rest answers.
Proof.
  intros Hd. induction answers as [|answer more IH]; [discriminate|].
  cbn [App.ask_number].
  assert (Hlater : App.ask_number int default valid more = Some (n, rest) ->
                   valid n = true /\ incl rest (answer :: more)).
  { intros H. destruct (IH H) as [Hv Hi]. split; [assumption|].
    now apply incl_tl. }
  destruct (strip answer) as [|c t].
  - intros [= <- <-]. split; [assumption|]. apply incl_tl, incl_refl.
  - destruct (int (c :: t)) as [k|]; [|exact Hlater].
    destruct (valid k) eqn:Ev; [|exact Hlater].
    intros [= <- <-]. split; [assumption|]. apply incl_tl, incl_refl.
Qed.

(** X27.  Whatever is typed, the call that [interactive_mode] makes is
    [run_ssh_command] with a host that passes [validate_hostname], a user
    name that passes [validate_username], the password as typed, not
    empty, a port that passes [validate_port], a timeout that passes
    [validate_timeout] and a command that passes [validate_command];
    host, user name and command are answers stripped of their blanks.  So
    the validation at the head of [connect] passes. *)
Theorem interactive_mode_launch_validated ip (int : str -> option Z)
    (answers : list str) (getpass : str) (l : App.launch) :
  App.interactive_mode ip int answers getpass = App.Run l ->
  exists hostname username command port timeout use_shell,
    l = App.RunSshCommand hostname username getpass command port timeout
          use_shell
    /\ validate_hostname ip hostname = true
    /\ validate_username username = true
    /\ getpass <> []
    /\ validate_port port = true
    /\ validate_timeout timeout = true
    /\ validate_command command = true
    /\ (forall value, In value [hostname; username; command] ->
          exists answer, In answer answers /\ value = strip answer)
    /\ connect_validation ip hostname username getpass port = None.
Proof.
  unfold App.interactive_mode.
  destruct (App.ask (validate_hostname ip) answers)
    as [[hostname a1]|] eqn:E1; [|discriminate].
  destruct (App.ask validate_username a1) as [[username a2]|] eqn:E2;
    [|discriminate].
  destruct getpass as [|p ps]; [discriminate|].
  destruct (App.ask_number int 22 validate_port a2) as [[port a3]|] eqn:E3;
    [|discriminate].
  destruct (App.ask_number int 30 validate_timeout a3)
    as [[timeout a4]|] eqn:E4; [|discriminate].
  destruct a4 as [|shell_mode a5]; [discriminate|].
  destruct (App.ask validate_command a5) as [[command a6]|] eqn:E5;
    [|discriminate].
  intros [= <-].
  apply ask_number_Some in E3 as [Hp I3]; [|reflexivity].
  apply ask_number_Some in E4 as [Ht I4]; [|reflexivity].
  destruct (ask_Some _ _ _ _ E1) as (Hh & _ & (x1 & Hx1 & Hs1) & I1).
  destruct (ask_Some _ _ _ _ E2) as (Hu & _ & (x2 & Hx2 & Hs2) & I2).
  destruct (ask_Some _ _ _ _ E5) as (Hc & _ & (x5 & Hx5 & Hs5) & _).
  exists hostname, username, command, port, timeout.
  eexists. split; [reflexivity|].
  repeat (split; [assumption || discriminate|]).
  split.
  - intros value [<-|[<-|[<-|[]]]].
    + eauto.
    + exists x2. split; [|assumption]. now apply I1.
    + exists x5. split; [|assumption].
      apply I1, I2, I3, I4. now right.
  - unfold connect_validation. now rewrite Hh, Hu, Hp.
Qed.

Lemma interactive_mode_launch_validated_witness :
  exists hostname username command port timeout use_shell,
    App.RunSshCommand (py "r1.lab") (py "admin") (py "secret")
      (py "show version") 22 30 true
    = App.RunSshCommand hostname username (py "secret") command port timeout
        use_shell
    /\ validate_hostname (fun _ => false) hostname = true
    /\ validate_username username = true
    /\ py "secret" <> []
    /\ validate_port port = true
    /\ validate_timeout timeout = true
    /\ validate_command command = true
    /\ (forall value, In value [hostname; username; command] ->
          exists answer, In answer typed_answers /\ value = strip answer)
    /\ connect_validation (fun _ => false) hostname username (py "secret")
         port = None.
Proof.
  exact (interactive_mode_launch_validated (fun _ => false) (fun _ => None)
           typed_answers (py "secret")
           (App.RunSshCommand (py "r1.lab") (py "admin") (py "secret")
              (py "show version") 22 30 true) eq_refl).
Defined.

(** ** The shell mode as a whole *)

(** X28.  In shell mode on a connected session, [execute_command] adds
    nothing of its own: no exception reaches its handlers, whatever the
    channel does.  If opening the shell raises, or the first receive, the
    result is [(False, "", "Shell execution error: <type>: <text>")] with
    the type and the text of the exception, and the command is not sent.
    If the device has nothing to read 0.2 s after the shell is opened,
    the command is not sent either and the result is
    [(False, "", "Shell execution error: UnboundLocalError: ...")].  If
    sending raises, the result is [(False, "", "Failed to send command:
    <text>")] and no error is logged.  If an exception leaves the
    collection or the cleanup, the result is again the shell execution
    error of that exception.  Otherwise the result is that of the
    cleaning and of the success determination on the harvested text. *)
Theorem execute_command_shell (s : session) (unbound_message : str)
    (r : Shell.shell_run) (command hostname : str) :
  client s <> None ->
  let x := Shell.execute_with_shell unbound_message r command hostname in
  let done :=
    execute_command
      (fun c _ h => Shell.execute_with_shell unbound_message r c h)
      s command true hostname in
  snd done = channel_events x
  /\ outcome x = inl (fst done)
  /\ (forall e,
        Shell.invoke_shell r = Some e ->
        fst done = (false, [], Shell.shell_error_message e)
        /\ ~ In (ChannelIO command true) (snd done))
  /\ (Shell.invoke_shell r = None ->
      match Shell.initial r with
      | Shell.NoPrompt =>
          fst done
          = (false, [],
             py "Shell execution error: UnboundLocalError: "
             ++ unbound_message)
          /\ ~ In (ChannelIO command true) (snd done)
      | Shell.PromptFails e =>
          fst done = (false, [], Shell.shell_error_message e)
          /\ ~ In (ChannelIO command true) (snd done)
      | Shell.PromptRead =>
          match Shell.send r with
          | Some e =>
              fst done
              = (false, [], py "Failed to send command: " ++ text_of e)
              /\ snd done = [ChannelIO command true]
          | None =>
              match Shell.harvested r with
              | inl output =>
                  fst done = shell_result command output
                  /\ snd done = [ChannelIO command true]
              | inr e =>
                  fst done = (false, [], Shell.shell_error_message e)
                  /\ snd done
                     = [ChannelIO command true;
                        LogError (Shell.shell_error_message e)]
              end
          end
      end).
Proof.
  intros Hc x done. subst x done. unfold execute_command.
  destruct (client s); [|congruence].
  unfold Shell.execute_with_shell.
  destruct r as [inv ini snd_ har]. cbn [Shell.invoke_shell Shell.initial
                                          Shell.send Shell.harvested].
  split; [|split; [|split]].
  - destruct inv; [reflexivity|]. destruct ini; try reflexivity.
    destruct snd_; [reflexivity|]. destruct har; reflexivity.
  - destruct inv; [reflexivity|]. destruct ini; try reflexivity.
    destruct snd_; [reflexivity|]. destruct har; reflexivity.
  - intros e ->. split; [reflexivity|].
    cbn. intros [H|[]]. discriminate.
  - intros ->. destruct ini as [|e|].
    + destruct snd_ as [e|]; [split; reflexivity|].
      destruct har as [output|e]; split; reflexivity.
    + split; [reflexivity|]. cbn. intros [H|[]]. discriminate.
    + split; [reflexivity|]. cbn. intros [H|[]]. discriminate.
Qed.

Lemma execute_command_shell_witness :
  fst (execute_command
         (fun c _ h =>
            Shell.execute_with_shell (py "initial_sample")
              {| Shell.invoke_shell := None; Shell.initial := Shell.NoPrompt;
                 Shell.send := None; Shell.harvested := inl [] |} c h)
         {| timeout := 30; client := Some SSHClient |}
         (py "show version") true (py "r1"))
  = (false, [],
     py "Shell execution error: UnboundLocalError: " ++ py "initial_sample")
  /\ ~ In (ChannelIO (py "show version") true)
       (snd (execute_command
               (fun c _ h =>
                  Shell.execute_with_shell (py "initial_sample")
                    {| Shell.invoke_shell := None;
                       Shell.initial := Shell.NoPrompt;
                       Shell.send := None; Shell.harvested := inl [] |} c h)
               {| timeout := 30; client := Some SSHClient |}
               (py "show version") true (py "r1"))).
Proof.
  assert (Hc : client {| timeout := 30; client := Some SSHClient |} <> None)
    by discriminate.
  destruct (execute_command_shell {| timeout := 30; client := Some SSHClient |}
              (py "initial_sample")
              {| Shell.invoke_shell := None; Shell.initial := Shell.NoPrompt;
                 Shell.send := None; Shell.harvested := inl [] |}
              (py "show version") (py "r1") Hc) as (_ & _ & _ & H).
  exact (H eq_refl).
Defined.

(** ** User names *)

Lemma newline_not_username_char : username_char newline = false.
Proof. reflexivity. Qed.

Lemma nonempty_all_spec p s :
  nonempty_all p s = true <-> s <> [] /\ forallb p s = true.
Proof.
  unfold nonempty_all. destruct s as [|c t].
  - split; [discriminate|]. now intros [H _].
  - split; [intros H; split; [discriminate|exact H]|now intros [_ H]].
Qed.

Lemma username_pattern_match_shape u :
  username_pattern_match u = true <-> username_shape u.
Proof.
  unfold username_pattern_match, username_shape. split.
  - intros H. apply orb_prop in H as [H|H].
    + apply nonempty_all_spec in H as [Hne Hall].
      exists u, []. rewrite app_nil_r. auto.
    + destruct (rev u) as [|c r] eqn:Er; [discriminate|].
      apply andb_prop in H as [Hc Hr].
      apply Ascii.eqb_eq in Hc. subst c.
      apply nonempty_all_spec in Hr as [Hne Hall].
      exists (rev r), [newline]. split; [|auto].
      rewrite <- (rev_involutive u), Er. reflexivity.
  - intros (core & nl & -> & Hne & Hall & [->| ->]).
    + rewrite app_nil_r. apply orb_true_intro. left.
      now apply nonempty_all_spec.
    + apply orb_true_intro. right.
      rewrite rev_app_distr. cbn [rev app].
      rewrite Ascii.eqb_refl, rev_involutive. cbn [andb].
      now apply nonempty_all_spec.
Qed.

(** X29.  [validate_username] accepts exactly the strings of at most 32
    characters that are a non-empty run of letters, digits, dots,
    underscores and hyphens, possibly followed by one newline.  So an
    accepted name holds no blank other than that newline, no [@], no
    slash and no NUL. *)
Theorem validate_username_shape (u : str) :
  (validate_username u = true <-> len u <= 32 /\ username_shape u)
  /\ (validate_username u = true ->
      forall c, In c u ->
        c = newline
        \/ (is_space c = false /\ c <> "@"%char /\ c <> "/"%char /\ c <> nul)).
Proof.
  assert (Hiff : validate_username u = true
                 <-> len u <= 32 /\ username_shape u).
  { unfold validate_username. destruct u as [|c t].
    - split; [discriminate|].
      intros [_ (core & nl & Hu & Hne & _)].
      destruct core; [congruence|discriminate].
    - destruct (Z.gtb_spec (len (c :: t)) 32) as [Hgt|Hle]; cbn [orb].
      + split; [discriminate|]. intros [Hle _]. lia.
      + destruct (Z.ltb_spec (len (c :: t)) 1) as [Hlt|_].
        * unfold len in Hlt. simpl in Hlt. lia.
        * rewrite username_pattern_match_shape. tauto. }
  split; [exact Hiff|].
  intros Hv c Hin. apply Hiff in Hv as [_ (core & nl & -> & _ & Hall & Hnl)].
  apply in_app_or in Hin as [Hin|Hin].
  - right. rewrite forallb_forall in Hall. specialize (Hall c Hin).
    repeat split.
    + destruct c as [[] [] [] [] [] [] [] []]; try reflexivity;
        discriminate Hall.
    + intros ->. discriminate Hall.
    + intros ->. discriminate Hall.
    + intros ->. discriminate Hall.
  - left. destruct Hnl as [->| ->]; [destruct Hin|].
    destruct Hin as [<-|[]]. reflexivity.
Qed.
